(** * e2e: golden-file testing of an in-process HTTP handler

    A shallow embedding of [e2e.go] (package [e2e]) and of the example
    router that its tests drive, followed by the properties of the field
    rewriter, the filters and the test driver.

    Go strings and byte slices are both byte sequences; they are embedded
    as [string] (a sequence of 8-bit [ascii] characters). *)

From Stdlib Require Import String Ascii List ZArith NArith Bool Lia Arith Sorted
  Permutation.
From Stdlib Require OrderedTypeEx.
Import ListNotations.
Set Warnings "-register-all".
Local Open Scope string_scope.

(** ** Bytes and text helpers *)

Definition bytes := string.

Definition LF : string := String "010" EmptyString.
Definition CRLF : string := String "013" (String "010" EmptyString).
Definition DQ : ascii := "034"%char.

(** JSON text is full of double quotes; [js] lets a literal be written with
    apostrophes in their place. *)
Fixpoint js (s : string) : string :=
  match s with
  | EmptyString => EmptyString
  | String c s' => String (if Ascii.eqb c "'" then DQ else c) (js s')
  end.

Definition digit_char (d : N) : ascii := ascii_of_N (48 + d).

Fixpoint utoa_aux (fuel : nat) (n : N) (acc : string) : string :=
  match fuel with
  | O => acc
  | S fuel' =>
      let acc' := String (digit_char (n mod 10)) acc in
      if (n <? 10)%N then acc' else utoa_aux fuel' (n / 10) acc'
  end.

(** Decimal digits of a natural number, most significant first. *)
Definition utoa (n : N) : string :=
  utoa_aux (S (N.to_nat (N.log2 n))) n "".

(** [strconv.Itoa] and the [%d] verb of package [fmt]. *)
Definition Itoa (z : Z) : string :=
  match z with
  | Zneg p => String "-" (utoa (Npos p))
  | _ => utoa (Z.to_N z)
  end.

(** [strings.Join]. *)
Definition Join (elems : list string) (sep : string) : string :=
  String.concat sep elems.

(** [strings.HasPrefix]. *)
Fixpoint HasPrefix (s prefix : string) {struct prefix} : bool :=
  match prefix with
  | EmptyString => true
  | String a prefix' =>
      match s with
      | String b s' => Ascii.eqb a b && HasPrefix s' prefix'
      | EmptyString => false
      end
  end.

(** ** Dynamic values

    The values an [any] holds in this program: what [encoding/json] decodes
    into an [any] (nil, bool, float64, string, []any, map[string]any) and
    what a test author writes in an overwrite (int, []string, []int and
    []map[string]any besides).  A float64 is its IEEE 754 bit pattern
    ([math.Float64bits]).

    A [map[string]any] is an association list.  Go leaves the iteration
    order of a map unspecified: the order of the list is the order in which
    [range] visits the entries, so a statement for every list covers every
    order.  A Go map never holds a key twice; [NoDupKeys] says so. *)

Scheme All for list.
Scheme All for prod.

Inductive any : Type :=
| Nil
| Bool (b : bool)
| Float64 (bits : N)
| Int (n : Z)
| Str (s : string)
| Slice (l : list any)
| Map (m : list (string * any))
| MapSlice (l : list (list (string * any)))
| StrSlice (l : list string)
| IntSlice (l : list Z).

Definition gomap := list (string * any).

Definition keys (m : gomap) : list string := List.map fst m.

Definition NoDupKeys (m : gomap) : Prop := NoDup (keys m).

(** [old, ok := base[k]] *)
Fixpoint lookup (k : string) (m : gomap) : option any :=
  match m with
  | [] => None
  | (k', v) :: m' => if String.eqb k k' then Some v else lookup k m'
  end.

(** [_, ok := base[k]] *)
Definition hasKey (m : gomap) (k : string) : bool :=
  match lookup k m with Some _ => true | None => false end.

(** [base[k] = v] for a key the map holds (the only use in this program). *)
Fixpoint store (k : string) (v : any) (m : gomap) : gomap :=
  match m with
  | [] => []
  | (k', v') :: m' =>
      if String.eqb k k' then (k', v) :: m' else (k', v') :: store k v m'
  end.

(** [sub[i] = x] for an index in range. *)
Fixpoint update (i : nat) (x : any) (l : list any) : list any :=
  match l, i with
  | [], _ => []
  | _ :: l', O => x :: l'
  | y :: l', S i' => y :: update i' x l'
  end.

(** ** [testing.T]

    A test function writes to its [*testing.T]: it logs, marks the test as
    failed, and may stop the test ([FailNow], which [Fatal] and [Fatalf]
    call).  A computation is the events it emits together with how it ends. *)

Inductive error : Type :=
| SyntaxError (msg : string)
| UnmarshalTypeError (value : string)
| UnsupportedValueError (what : string)
| EOF
| PathError (op path : string).

Inductive arg : Type :=
| AString (s : string)
| AInt (n : Z)
| AError (e : error).

Inductive event : Type :=
| Logf (format : string) (args : list arg)
| Log (args : list arg)
| Fail.

Inductive result (A : Type) : Type :=
| Ok (a : A)
| FailNow
| Panic (msg : string).
Arguments Ok {A} a.
Arguments FailNow {A}.
Arguments Panic {A} msg.

Definition W (A : Type) : Type := list event * result A.

Definition ret {A} (a : A) : W A := ([], Ok a).

Definition bind {A B} (m : W A) (f : A -> W B) : W B :=
  match m with
  | (ev, Ok a) => let '(ev', r) := f a in ((ev ++ ev')%list, r)
  | (ev, FailNow) => (ev, FailNow)
  | (ev, Panic msg) => (ev, Panic msg)
  end.

Declare Scope test_scope.
Delimit Scope test_scope with test.
Notation "x <- m ;; f" := (bind m (fun x => f))
  (at level 61, m at next level, right associativity) : test_scope.
Notation "m ;;; f" := (bind m (fun _ => f))
  (at level 61, right associativity) : test_scope.
Local Open Scope test_scope.

Definition t_Logf (format : string) (args : list arg) : W unit :=
  ([Logf format args], Ok tt).
Definition t_Errorf (format : string) (args : list arg) : W unit :=
  ([Logf format args; Fail], Ok tt).
Definition t_Fatalf {A} (format : string) (args : list arg) : W A :=
  ([Logf format args; Fail], FailNow).
Definition t_Fatal {A} (args : list arg) : W A :=
  ([Log args; Fail], FailNow).
Definition panic {A} (msg : string) : W A := ([], Panic msg).

(** The test is reported as failed. *)
Definition failed {A} (w : W A) : bool :=
  existsb (fun e => match e with Fail => true | _ => false end) (fst w).

(** The test was stopped by [FailNow]. *)
Definition aborted {A} (w : W A) : bool :=
  match snd w with FailNow => true | _ => false end.

(** ** Package [unicode/utf8]

    [DecodeRune] and [EncodeRune], with the shifts and masks of the Go
    source written as the multiplications and remainders they are on the
    byte ranges each branch accepts. *)

Definition code (c : ascii) : N := N_of_ascii c.
Definition chr (n : N) : ascii := ascii_of_N n.

Definition RuneError : N := 0xFFFD.

(** A continuation byte, [0x80..0xBF]. *)
Definition isCont (b : N) : bool := ((0x80 <=? b) && (b <=? 0xBF))%N.

Definition isSurrogate (r : N) : bool := ((0xD800 <=? r) && (r <? 0xE000))%N.

(** [utf8.DecodeRune]: the first rune of [p] and its width in bytes;
    [(RuneError, 1)] for an encoding that is not well formed. *)
Definition DecodeRune (p : string) : N * nat :=
  match p with
  | EmptyString => (RuneError, 0%nat)
  | String c0 p1 =>
      let p0 := code c0 in
      if (p0 <? 0x80)%N then (p0, 1%nat)
      else if ((p0 <? 0xC2) || (0xF4 <? p0))%N then (RuneError, 1%nat)
      else
        match p1 with
        | EmptyString => (RuneError, 1%nat)
        | String c1 p2 =>
            let b1 := code c1 in
            let lo := (if p0 =? 0xE0 then 0xA0
                       else if p0 =? 0xF0 then 0x90 else 0x80)%N in
            let hi := (if p0 =? 0xED then 0x9F
                       else if p0 =? 0xF4 then 0x8F else 0xBF)%N in
            if ((b1 <? lo) || (hi <? b1))%N then (RuneError, 1%nat)
            else if (p0 <? 0xE0)%N then
              (((p0 - 0xC0) * 64 + (b1 - 0x80))%N, 2%nat)
            else
              match p2 with
              | EmptyString => (RuneError, 1%nat)
              | String c2 p3 =>
                  let b2 := code c2 in
                  if negb (isCont b2) then (RuneError, 1%nat)
                  else if (p0 <? 0xF0)%N then
                    ((((p0 - 0xE0) * 64 + (b1 - 0x80)) * 64
                      + (b2 - 0x80))%N, 3%nat)
                  else
                    match p3 with
                    | EmptyString => (RuneError, 1%nat)
                    | String c3 _ =>
                        let b3 := code c3 in
                        if negb (isCont b3) then (RuneError, 1%nat)
                        else
                          (((((p0 - 0xF0) * 64 + (b1 - 0x80)) * 64
                             + (b2 - 0x80)) * 64 + (b3 - 0x80))%N, 4%nat)
                    end
              end
        end
  end.

Definition encode3 (r : N) : string :=
  String (chr (0xE0 + r / 4096))
    (String (chr (0x80 + (r / 64) mod 64))
       (String (chr (0x80 + r mod 64)) EmptyString)).

(** [utf8.EncodeRune] (as [utf8.AppendRune] would give it): a rune that is
    out of range or a surrogate half is written as U+FFFD. *)
Definition EncodeRune (r : N) : string :=
  if (r <? 0x80)%N then String (chr r) EmptyString
  else if (r <? 0x800)%N then
    String (chr (0xC0 + r / 64)) (String (chr (0x80 + r mod 64)) EmptyString)
  else if ((0x10FFFF <? r) || isSurrogate r)%N then encode3 RuneError
  else if (r <? 0x10000)%N then encode3 r
  else
    String (chr (0xF0 + r / 262144))
      (String (chr (0x80 + (r / 4096) mod 64))
         (String (chr (0x80 + (r / 64) mod 64))
            (String (chr (0x80 + r mod 64)) EmptyString))).

(** [utf16.DecodeRune]: the rune of a surrogate pair, U+FFFD when the two
    are not one. *)
Definition utf16_DecodeRune (r1 r2 : N) : N :=
  if ((0xD800 <=? r1) && (r1 <? 0xDC00) && (0xDC00 <=? r2) && (r2 <? 0xE000))%N
  then ((r1 - 0xD800) * 1024 + (r2 - 0xDC00) + 0x10000)%N
  else RuneError.

Fixpoint drop (n : nat) (s : string) : string :=
  match n, s with
  | O, _ => s
  | S n', String _ s' => drop n' s'
  | S _, EmptyString => EmptyString
  end.

Fixpoint take (n : nat) (s : string) : string :=
  match n, s with
  | O, _ => EmptyString
  | S n', String c s' => String c (take n' s')
  | S _, EmptyString => EmptyString
  end.

Fixpoint zeros (n : nat) : string :=
  match n with
  | O => EmptyString
  | S n' => String "0" (zeros n')
  end.

(** ** Package [strconv]: float64 to and from decimal text

    A float64 is its bit pattern: sign, 11 bits of biased exponent, 52 bits
    of fraction. *)

Definition isDigit (c : ascii) : bool := ((48 <=? code c) && (code c <=? 57))%N.

(** The longest prefix of decimal digits, and what follows it. *)
Fixpoint spanDigits (s : string) : string * string :=
  match s with
  | EmptyString => (EmptyString, EmptyString)
  | String c s' =>
      if isDigit c then
        let '(ds, rest) := spanDigits s' in (String c ds, rest)
      else (EmptyString, s)
  end.

Fixpoint digitsValue (ds : string) (acc : Z) : Z :=
  match ds with
  | EmptyString => acc
  | String c ds' => digitsValue ds' (acc * 10 + (Z.of_N (code c) - 48))
  end.

Local Open Scope Z_scope.

Definition signBit (neg : bool) : Z := if neg then 2 ^ 63 else 0.

Definition infBits : Z := 0x7FF0000000000000.

(** [num / den] rounded to the nearest integer, ties to even. *)
Definition roundQuot (num den : Z) : Z :=
  let q := num / den in
  let r := num mod den in
  match 2 * r ?= den with
  | Lt => q
  | Gt => q + 1
  | Eq => if Z.even q then q else q + 1
  end.

(** The float64 nearest to [num / den] (both positive), ties to even, as
    IEEE 754 rounds; the infinity when the quotient is out of range. *)
Definition roundFloat64 (num den : Z) : Z :=
  let e0 := Z.log2 num - Z.log2 den in
  (* the binary exponent E of the quotient: 2^E <= num/den < 2^(E+1) *)
  let E := if num * 2 ^ Z.max 0 (- e0) <? den * 2 ^ Z.max 0 e0
           then e0 - 1 else e0 in
  (* the exponent of the last place: 52 bits below E, not below 2^-1074 *)
  let q := Z.max (E - 52) (-1074) in
  let m := roundQuot (num * 2 ^ Z.max 0 (- q)) (den * 2 ^ Z.max 0 q) in
  let bits := (q + 1074) * 2 ^ 52 + m in
  if infBits <=? bits then infBits else bits.

(** The float64 nearest to [(-1)^neg * d * 10^x]. *)
Definition decimalToFloat64 (neg : bool) (d x : Z) : N :=
  Z.to_N
    (signBit neg +
     if d =? 0 then 0
     else if 0 <=? x then roundFloat64 (d * 10 ^ x) 1
     else roundFloat64 d (10 ^ (- x))).

Definition isExpChar (c : ascii) : bool :=
  (Ascii.eqb c "e" || Ascii.eqb c "E")%bool.

(** [strconv.ParseFloat(s, 64)] on decimal text: an optional sign, digits
    with an optional fraction, an optional exponent.  (The other spellings
    it accepts, such as "Inf", hexadecimal mantissas and underscores, are
    never passed to it by [encoding/json].)  [None] is a syntax error; a
    value out of range comes back as an infinity, as Go returns it next to
    [ErrRange]. *)
Definition ParseFloat (s : string) : option N :=
  let '(neg, s1) :=
    match s with
    | String c s' =>
        if Ascii.eqb c "-" then (true, s')
        else if Ascii.eqb c "+" then (false, s') else (false, s)
    | EmptyString => (false, s)
    end in
  let '(int, s2) := spanDigits s1 in
  let '(frac, s3) :=
    match s2 with
    | String c s' => if Ascii.eqb c "." then spanDigits s' else (EmptyString, s2)
    | EmptyString => (EmptyString, s2)
    end in
  match (int ++ frac)%string with
  | EmptyString => None
  | mant =>
      let d := digitsValue mant 0 in
      let x0 := - Z.of_nat (String.length frac) in
      match s3 with
      | EmptyString => Some (decimalToFloat64 neg d x0)
      | String c s4 =>
          if isExpChar c then
            let '(eneg, s5) :=
              match s4 with
              | String c' s' =>
                  if Ascii.eqb c' "-" then (true, s')
                  else if Ascii.eqb c' "+" then (false, s') else (false, s4)
              | EmptyString => (false, s4)
              end in
            match spanDigits s5 with
            | (EmptyString, _) => None
            | (ds, EmptyString) =>
                let e := digitsValue ds 0 in
                Some (decimalToFloat64 neg d (x0 + if eneg then - e else e))
            | (_, String _ _) => None
            end
          else None
      end
  end.

(** The fields of a float64. *)
Definition biasedExp (bits : N) : N := ((bits / 2 ^ 52) mod 2048)%N.
Definition fraction (bits : N) : N := (bits mod 2 ^ 52)%N.
Definition signOf (bits : N) : bool := (2 ^ 63 <=? bits)%N.

(** Neither an infinity nor a NaN. *)
Definition isFinite (bits : N) : bool :=
  ((bits <? 2 ^ 64) && negb (biasedExp bits =? 2047))%N.

(** A finite float64 is [mant * 2^exp]. *)
Definition mantExp (bits : N) : Z * Z :=
  if (biasedExp bits =? 0)%N then (Z.of_N (fraction bits), -1074)
  else (Z.of_N (fraction bits) + 2 ^ 52, Z.of_N (biasedExp bits) - 1075).

Definition absBits (bits : N) : N := (bits mod 2 ^ 63)%N.

(** [10^p <= num/den] *)
Definition pow10Le (p num den : Z) : bool :=
  if 0 <=? p then 10 ^ p * den <=? num else den <=? num * 10 ^ (- p).

(** The decimal exponent [p] of [num/den]: [10^p <= num/den < 10^(p+1)]. *)
Definition decimalExponent (num den : Z) : Z :=
  let adjust p :=
    if pow10Le (p + 1) num den then p + 1
    else if pow10Le p num den then p else p - 1 in
  adjust (adjust (adjust ((Z.log2 num - Z.log2 den) * 1233 / 4096))).

Fixpoint trimZeros (fuel : nat) (d s : Z) : Z * Z :=
  match fuel with
  | O => (d, s)
  | S fuel' => if d mod 10 =? 0 then trimZeros fuel' (d / 10) (s + 1) else (d, s)
  end.

(** The decimals [d * 10^s] of [n] digits on either side of [num/den],
    the nearer one first (the one with the even last digit on a tie). *)
Definition candidates (num den p : Z) (n : nat) : list (Z * Z) :=
  let s := p - Z.of_nat n + 1 in
  let num' := num * 10 ^ Z.max 0 (- s) in
  let den' := den * 10 ^ Z.max 0 s in
  let lo := num' / den' in
  let r := num' mod den' in
  if r =? 0 then [(lo, s)]
  else
    match 2 * r ?= den' with
    | Lt => [(lo, s); (lo + 1, s)]
    | Gt => [(lo + 1, s); (lo, s)]
    | Eq => if Z.even lo then [(lo, s); (lo + 1, s)] else [(lo + 1, s); (lo, s)]
    end.

(** [%f] with the digits [ds] and the decimal point after the first [dp]
    of them. *)
Definition fmtF (ds : string) (dp : Z) : string :=
  let nd := Z.of_nat (String.length ds) in
  if dp <=? 0 then ("0." ++ zeros (Z.to_nat (- dp)) ++ ds)%string
  else if nd <=? dp then (ds ++ zeros (Z.to_nat (dp - nd)))%string
  else (take (Z.to_nat dp) ds ++ "." ++ drop (Z.to_nat dp) ds)%string.

(** [%e]: one digit, the others after a point, and an exponent of at
    least two digits; the mantissa and the exponent. *)
Definition fmtE (ds : string) (dp : Z) : string * string :=
  let e := dp - 1 in
  let mant :=
    match ds with
    | String c (String c' rest) => String c ("." ++ String c' rest)
    | _ => ds
    end in
  let digits := utoa (Z.to_N (Z.abs e)) in
  (mant,
   ("e" ++ (if (e <? 0)%Z then "-" else "+")
        ++ (if (Z.abs e <? 10)%Z then "0" else "") ++ digits)%string).

(** [encoding/json] turns the exponent [e-09] into [e-9]: the cleanup at
    the end of [floatEncoder.encode], on the last four bytes, which are
    bytes of the exponent. *)
Definition cleanExponent (expo : string) : string :=
  match expo with
  | String e (String sign (String zero (String c EmptyString))) =>
      if (Ascii.eqb e "e" && Ascii.eqb sign "-" && Ascii.eqb zero "0")%bool
      then String e (String sign (String c EmptyString))
      else expo
  | _ => expo
  end.

Definition bits1e21 : N := 0x444B1AE4D6E2EF50.
Definition bits1e_6 : N := 0x3EB0C6F7A0B5ED8D.

(** The layout [encoding/json] chooses: [%e] below 1e-6 and from 1e21 on. *)
Definition useExponent (bits : N) : bool :=
  let a := absBits bits in
  (negb (a =? 0) && ((a <? bits1e_6) || (bits1e21 <=? a)))%N.

Definition render (bits : N) (d s : Z) : string :=
  let '(d', s') := trimZeros 400 d s in
  let ds := utoa (Z.to_N d') in
  let dp := Z.of_nat (String.length ds) + s' in
  ((if signOf bits then "-" else "") ++
   (if useExponent bits
    then let '(mant, expo) := fmtE ds dp in mant ++ cleanExponent expo
    else fmtF ds dp))%string.

Fixpoint firstRoundTrip (bits : N) (cands : list (Z * Z)) : option string :=
  match cands with
  | [] => None
  | (d, s) :: rest =>
      let text := render bits d s in
      match ParseFloat text with
      | Some bits' => if ((0 <? d) && (bits' =? bits)%N)%bool then Some text
                      else firstRoundTrip bits rest
      | None => firstRoundTrip bits rest
      end
  end.

(** The shortest decimal that [ParseFloat] reads back as [bits]: the
    contract of [strconv.FormatFloat] with precision -1.  Seventeen digits
    are enough for every float64, so Go has no failing case here; the
    search is bounded by them. *)
Fixpoint shortest (bits : N) (num den p : Z) (n fuel : nat) : option string :=
  match fuel with
  | O => None
  | S fuel' =>
      match firstRoundTrip bits (candidates num den p n) with
      | Some text => Some text
      | None => shortest bits num den p (S n) fuel'
      end
  end.

(** The text of a finite float64 in a JSON document ([floatEncoder]). *)
Definition formatFloat (bits : N) : option string :=
  let '(m, q) := mantExp bits in
  if m =? 0 then Some (if signOf bits then "-0" else "0")%string
  else
    let num := m * 2 ^ Z.max 0 q in
    let den := 2 ^ Z.max 0 (- q) in
    shortest bits num den (decimalExponent num den) 1 17.

Local Close Scope Z_scope.
(** ** Package [encoding/json]

    What [Marshal], [MarshalIndent], [Encoder.Encode], [Unmarshal] and
    [Decoder.Decode] do with a [map[string]any].  A library call that
    returns [(value, err)] returns [Val value] or [Err err]. *)

Inductive orError (A : Type) : Type :=
| Val (a : A)
| Err (e : error).
Arguments Val {A} a.
Arguments Err {A} e.

(** *** Encoding *)

Definition hexDigit (n : N) : ascii :=
  match String.get (N.to_nat n) "0123456789abcdef" with
  | Some c => c
  | None => "0"%char
  end.

(** [htmlSafeSet]: the ASCII characters written as they are. *)
Definition htmlSafe (b : N) : bool :=
  ((0x20 <=? b) && (b <? 0x80) &&
   negb ((b =? 34) || (b =? 38) || (b =? 60) || (b =? 62) || (b =? 92)))%N.

Definition BS : ascii := "\"%char.

(** The escape of an ASCII byte that is not in [htmlSafeSet]. *)
Definition escapeByte (c : ascii) : string :=
  let b := code c in
  if ((b =? 92) || (b =? 34))%N then String BS (String c EmptyString)
  else if (b =? 8)%N then String BS "b"
  else if (b =? 12)%N then String BS "f"
  else if (b =? 10)%N then String BS "n"
  else if (b =? 13)%N then String BS "r"
  else if (b =? 9)%N then String BS "t"
  else
    String BS
      (String "u" (String "0" (String "0"
         (String (hexDigit (b / 16)) (String (hexDigit (b mod 16)) EmptyString))))).

(** The loop of [appendString] with [escapeHTML] set, one rune a turn. *)
Fixpoint escapeString (fuel : nat) (src : string) : string :=
  match fuel with
  | O => EmptyString
  | S fuel' =>
      match src with
      | EmptyString => EmptyString
      | String c rest =>
          let b := code c in
          if (b <? 0x80)%N then
            if htmlSafe b then String c (escapeString fuel' rest)
            else escapeByte c ++ escapeString fuel' rest
          else
            let '(r, size) := DecodeRune src in
            if ((r =? RuneError)%N && (size =? 1)%nat)%bool then
              String BS "ufffd" ++ escapeString fuel' rest
            else if ((r =? 0x2028) || (r =? 0x2029))%N then
              String BS "u202" ++ String (hexDigit (r mod 16)) EmptyString
                ++ escapeString fuel' (drop size src)
            else take size src ++ escapeString fuel' (drop size src)
      end
  end.

(** A Go string as a JSON string. *)
Definition appendString (src : string) : string :=
  String DQ (escapeString (String.length src) src ++ String DQ EmptyString).

(** Where [MarshalIndent] differs from [Marshal]: a line break and
    [depth] indents before each element and before a closing bracket, and
    a space after the colon. *)
Record layout : Type := {
  newline : nat -> string;
  colon : string
}.

Definition compact : layout :=
  {| newline := fun _ => EmptyString; colon := ":" |}.

Fixpoint indentation (indent : string) (depth : nat) : string :=
  match depth with
  | O => EmptyString
  | S d => indent ++ indentation indent d
  end.

Definition indented (prefix indent : string) : layout :=
  {| newline := fun depth => LF ++ prefix ++ indentation indent depth;
     colon := ": " |}.

(** The first error of a list of encodings, or all the texts. *)
Fixpoint collect {A} (l : list (A * orError string))
  : orError (list (A * string)) :=
  match l with
  | [] => Val []
  | (a, Err e) :: _ => Err e
  | (a, Val s) :: l' =>
      match collect l' with
      | Val ss => Val ((a, s) :: ss)
      | Err e => Err e
      end
  end.

(** Map keys are written in increasing order ([strings.Compare]). *)
Fixpoint insertSorted {A} (x : string * A) (l : list (string * A))
  : list (string * A) :=
  match l with
  | [] => [x]
  | y :: l' =>
      match String.compare (fst x) (fst y) with
      | Gt => y :: insertSorted x l'
      | _ => x :: l
      end
  end.

Fixpoint sortByKey {A} (l : list (string * A)) : list (string * A) :=
  match l with
  | [] => []
  | x :: l' => insertSorted x (sortByKey l')
  end.

Section Encode.
Variable L : layout.

Fixpoint joinItems (depth : nat) (items : list string) : string :=
  match items with
  | [] => EmptyString
  | [s] => s
  | s :: rest => s ++ "," ++ newline L depth ++ joinItems depth rest
  end.

Definition bracket (opening closing : string) (depth : nat)
    (items : list string) : string :=
  match items with
  | [] => opening ++ closing
  | _ => opening ++ newline L (S depth) ++ joinItems (S depth) items
           ++ newline L depth ++ closing
  end.

Definition encodeArray (depth : nat) (items : list (orError string))
  : orError string :=
  match collect (List.map (fun x => (tt, x)) items) with
  | Val ss => Val (bracket "[" "]" depth (List.map snd ss))
  | Err e => Err e
  end.

Definition encodeObject (depth : nat)
    (entries : list (string * orError string)) : orError string :=
  match collect (sortByKey entries) with
  | Val ss =>
      Val (bracket "{" "}" depth
             (List.map (fun '(k, s) => appendString k ++ colon L ++ s) ss))
  | Err e => Err e
  end.

Definition encodeFloat (bits : N) : orError string :=
  match (if isFinite bits then formatFloat bits else None) with
  | Some s => Val s
  | None => Err (UnsupportedValueError "float64")
  end.

(** The text of a value that stands [depth] brackets deep. *)
Fixpoint encode (depth : nat) (v : any) : orError string :=
  match v with
  | Nil => Val "null"
  | Bool b => Val (if b then "true" else "false")
  | Float64 bits => encodeFloat bits
  | Int n => Val (Itoa n)
  | Str s => Val (appendString s)
  | Slice l => encodeArray depth (List.map (encode (S depth)) l)
  | Map m =>
      encodeObject depth
        (List.map (fun '(k, x) => (k, encode (S depth) x)) m)
  | MapSlice l =>
      encodeArray depth
        (List.map
           (fun m =>
              encodeObject (S depth)
                (List.map (fun '(k, x) => (k, encode (S (S depth)) x)) m))
           l)
  | StrSlice l =>
      encodeArray depth (List.map (fun s => Val (appendString s)) l)
  | IntSlice l => encodeArray depth (List.map (fun n => Val (Itoa n)) l)
  end.

(** The text of a [*map[string]any]: [null] for the nil map. *)
Definition encodeMap (m : option gomap) : orError string :=
  match m with
  | Some m => encode 0 (Map m)
  | None => Val "null"
  end.
End Encode.

(** [json.Marshal(&m)] *)
Definition Marshal (m : option gomap) : orError string := encodeMap compact m.

(** [json.MarshalIndent(&m, prefix, indent)]: the text of [Marshal], laid
    out by [Indent]. *)
Definition MarshalIndent (m : option gomap) (prefix indent : string)
  : orError string :=
  encodeMap (indented prefix indent) m.

(** [json.NewEncoder(w).Encode(&m)]: what is written to [w]. *)
Definition Encode (m : option gomap) : orError string :=
  match Marshal m with
  | Val s => Val (s ++ LF)
  | Err e => Err e
  end.

(** *** Decoding *)

Definition isSpace (c : ascii) : bool :=
  let b := code c in ((b =? 32) || (b =? 9) || (b =? 13) || (b =? 10))%N.

Fixpoint skipSpace (s : string) : string :=
  match s with
  | String c s' => if isSpace c then skipSpace s' else s
  | EmptyString => s
  end.

Definition onlySpace (s : string) : bool :=
  match skipSpace s with EmptyString => true | _ => false end.

Definition hexVal (c : ascii) : option N :=
  let b := code c in
  if ((48 <=? b) && (b <=? 57))%N then Some (b - 48)%N
  else if ((97 <=? b) && (b <=? 102))%N then Some (b - 87)%N
  else if ((65 <=? b) && (b <=? 70))%N then Some (b - 55)%N
  else None.

(** Four hexadecimal digits: the number of a [\u] escape ([getu4]). *)
Definition hex4 (s : string) : option (N * string) :=
  match s with
  | String c1 (String c2 (String c3 (String c4 rest))) =>
      match hexVal c1, hexVal c2, hexVal c3, hexVal c4 with
      | Some h1, Some h2, Some h3, Some h4 =>
          Some ((((h1 * 16 + h2) * 16 + h3) * 16 + h4)%N, rest)
      | _, _, _, _ => None
      end
  | _ => None
  end.

(** The character of a one-letter escape. *)
Definition unescape (c : ascii) : option ascii :=
  let b := code c in
  if ((b =? 34) || (b =? 92) || (b =? 47))%N then Some c
  else if Ascii.eqb c "b" then Some (chr 8)
  else if Ascii.eqb c "f" then Some (chr 12)
  else if Ascii.eqb c "n" then Some (chr 10)
  else if Ascii.eqb c "r" then Some (chr 13)
  else if Ascii.eqb c "t" then Some (chr 9)
  else None.

Definition prepend (pre : string) (r : option (string * string))
  : option (string * string) :=
  match r with
  | Some (s, rest) => Some (pre ++ s, rest)
  | None => None
  end.

(** A JSON string from behind its opening quote: the Go string it stands
    for and the text after its closing quote ([unquote], on text the
    scanner accepts).  Bytes that are not well-formed UTF-8 and surrogate
    halves without their pair become U+FFFD. *)
Fixpoint unquote (fuel : nat) (s : string) : option (string * string) :=
  match fuel with
  | O => None
  | S fuel' =>
      match s with
      | EmptyString => None
      | String c s1 =>
          if Ascii.eqb c DQ then Some (EmptyString, s1)
          else if Ascii.eqb c BS then
            match s1 with
            | EmptyString => None
            | String e s2 =>
                if Ascii.eqb e "u" then
                  match hex4 s2 with
                  | None => None
                  | Some (rr, s3) =>
                      if isSurrogate rr then
                        let second :=
                          match s3 with
                          | String b1 (String b2 s4) =>
                              if (Ascii.eqb b1 BS && Ascii.eqb b2 "u")%bool
                              then hex4 s4 else None
                          | _ => None
                          end in
                        match second with
                        | Some (rr1, s5) =>
                            let dec := utf16_DecodeRune rr rr1 in
                            if (dec =? RuneError)%N then
                              prepend (EncodeRune RuneError) (unquote fuel' s3)
                            else prepend (EncodeRune dec) (unquote fuel' s5)
                        | None =>
                            prepend (EncodeRune RuneError) (unquote fuel' s3)
                        end
                      else prepend (EncodeRune rr) (unquote fuel' s3)
                  end
                else
                  match unescape e with
                  | Some ch =>
                      prepend (String ch EmptyString) (unquote fuel' s2)
                  | None => None
                  end
            end
          else if (code c <? 0x20)%N then None
          else if (code c <? 0x80)%N then
            prepend (String c EmptyString) (unquote fuel' s1)
          else
            let '(rr, size) := DecodeRune s in
            prepend (EncodeRune rr) (unquote fuel' (drop size s))
      end
  end.

(** A JSON number at the head of [s], as the scanner delimits it: the
    literal and the text after it.  First its parts. *)
Definition scanSign (s : string) : string * string :=
  match s with
  | String c s' => if Ascii.eqb c "-" then ("-", s') else (EmptyString, s)
  | EmptyString => (EmptyString, s)
  end.

(** [0], or digits that do not begin with [0]. *)
Definition scanInt (s : string) : option (string * string) :=
  match spanDigits s with
  | (EmptyString, _) => None
  | (String c EmptyString, rest) => Some (String c EmptyString, rest)
  | (String c ds, rest) =>
      if Ascii.eqb c "0" then None else Some (String c ds, rest)
  end.

(** A point and at least one digit, or nothing. *)
Definition scanFraction (s : string) : option (string * string) :=
  match s with
  | String c s' =>
      if Ascii.eqb c "." then
        match spanDigits s' with
        | (EmptyString, _) => None
        | (ds, rest) => Some (String c ds, rest)
        end
      else Some (EmptyString, s)
  | EmptyString => Some (EmptyString, s)
  end.

(** [e] or [E], an optional sign and at least one digit, or nothing. *)
Definition scanExponent (s : string) : option (string * string) :=
  match s with
  | String c s' =>
      if isExpChar c then
        let '(esign, s'') :=
          match s' with
          | String c' t =>
              if (Ascii.eqb c' "-" || Ascii.eqb c' "+")%bool
              then (String c' EmptyString, t) else (EmptyString, s')
          | EmptyString => (EmptyString, s')
          end in
        match spanDigits s'' with
        | (EmptyString, _) => None
        | (ds, rest) => Some (String c (esign ++ ds), rest)
        end
      else Some (EmptyString, s)
  | EmptyString => Some (EmptyString, s)
  end.

Definition scanNumber (s : string) : option (string * string) :=
  let '(sign, s1) := scanSign s in
  match scanInt s1 with
  | None => None
  | Some (int, s2) =>
      match scanFraction s2 with
      | None => None
      | Some (frac, s3) =>
          match scanExponent s3 with
          | None => None
          | Some (expo, s4) => Some (sign ++ int ++ frac ++ expo, s4)
          end
      end
  end.

(** [m[k] = v] while decoding.  The entries are kept in increasing order
    of their keys: the order of a Go map cannot be observed, and this one
    is the order in which the encoder writes them. *)
Fixpoint insertKey (k : string) (v : any) (m : gomap) : gomap :=
  match m with
  | [] => [(k, v)]
  | (k', v') :: m' =>
      match String.compare k k' with
      | Lt => (k, v) :: m
      | Eq => (k, v) :: m'
      | Gt => (k', v') :: insertKey k v m'
      end
  end.

(** The value at the head of [s] (after white space) as it is decoded
    into an [any], and the text after it; [None] for text the scanner
    rejects.  [fuel] bounds the recursion; the length of [s] is enough. *)
Fixpoint parseValue (fuel : nat) (s : string) : option (any * string) :=
  match fuel with
  | O => None
  | S fuel' =>
      match skipSpace s with
      | EmptyString => None
      | String c s1 =>
          if Ascii.eqb c "{" then
            match skipSpace s1 with
            | String c' s2 =>
                if Ascii.eqb c' "}" then Some (Map [], s2)
                else parseMembers fuel' s1 []
            | EmptyString => None
            end
          else if Ascii.eqb c "[" then
            match skipSpace s1 with
            | String c' s2 =>
                if Ascii.eqb c' "]" then Some (Slice [], s2)
                else
                  match parseElements fuel' s1 with
                  | Some (l, rest) => Some (Slice l, rest)
                  | None => None
                  end
            | EmptyString => None
            end
          else if Ascii.eqb c DQ then
            match unquote (String.length s1) s1 with
            | Some (str, rest) => Some (Str str, rest)
            | None => None
            end
          else if (Ascii.eqb c "-" || isDigit c)%bool then
            match scanNumber (String c s1) with
            | Some (lit, rest) =>
                match ParseFloat lit with
                | Some bits => Some (Float64 bits, rest)
                | None => None
                end
            | None => None
            end
          else if HasPrefix (String c s1) "true" then
            Some (Bool true, drop 4 (String c s1))
          else if HasPrefix (String c s1) "false" then
            Some (Bool false, drop 5 (String c s1))
          else if HasPrefix (String c s1) "null" then
            Some (Nil, drop 4 (String c s1))
          else None
      end
  end

(** The elements of an array from its first element on, up to and with
    the closing bracket. *)
with parseElements (fuel : nat) (s : string) : option (list any * string) :=
  match fuel with
  | O => None
  | S fuel' =>
      match parseValue fuel' s with
      | None => None
      | Some (v, rest) =>
          match skipSpace rest with
          | String c rest' =>
              if Ascii.eqb c "," then
                match parseElements fuel' rest' with
                | Some (l, rest'') => Some (v :: l, rest'')
                | None => None
                end
              else if Ascii.eqb c "]" then Some ([v], rest')
              else None
          | EmptyString => None
          end
      end
  end

(** The members of an object from its first key on, up to and with the
    closing brace, added to [acc]. *)
with parseMembers (fuel : nat) (s : string) (acc : gomap)
  : option (any * string) :=
  match fuel with
  | O => None
  | S fuel' =>
      match skipSpace s with
      | String q s1 =>
          if Ascii.eqb q DQ then
            match unquote (String.length s1) s1 with
            | None => None
            | Some (k, s2) =>
                match skipSpace s2 with
                | String c s3 =>
                    if Ascii.eqb c ":" then
                      match parseValue fuel' s3 with
                      | None => None
                      | Some (v, s4) =>
                          let acc' := insertKey k v acc in
                          match skipSpace s4 with
                          | String c' s5 =>
                              if Ascii.eqb c' "," then
                                parseMembers fuel' s5 acc'
                              else if Ascii.eqb c' "}" then
                                Some (Map acc', s5)
                              else None
                          | EmptyString => None
                          end
                      end
                    else None
                | EmptyString => None
                end
            end
          else None
      | EmptyString => None
      end
  end.

(** A number that [ParseFloat] found out of range is in the value. *)
Fixpoint hasRangeError (v : any) : bool :=
  match v with
  | Float64 bits => negb (isFinite bits)
  | Slice l => existsb hasRangeError l
  | Map m => existsb (fun '(_, x) => hasRangeError x) m
  | _ => false
  end.

(** The decoded value stored into a [*map[string]any]: an object becomes
    a fresh map and [null] the nil map; anything else is reported as an
    [UnmarshalTypeError], and so is a number out of range. *)
Definition storeMap (v : any) : orError (option gomap) :=
  match v with
  | Map m =>
      if hasRangeError v then Err (UnmarshalTypeError "number")
      else Val (Some m)
  | Nil => Val None
  | Bool _ => Err (UnmarshalTypeError "bool")
  | Float64 _ => Err (UnmarshalTypeError "number")
  | Str _ => Err (UnmarshalTypeError "string")
  | _ => Err (UnmarshalTypeError "array")
  end.

(** [json.Unmarshal(data, &m)] with [m] a nil [map[string]any]: [data]
    is one JSON value inside optional white space. *)
Definition Unmarshal (data : bytes) : orError (option gomap) :=
  match parseValue (S (String.length data)) data with
  | Some (v, rest) =>
      if onlySpace rest then storeMap v else Err (SyntaxError "invalid character after top-level value")
  | None => Err (SyntaxError "invalid JSON")
  end.

(** [json.NewDecoder(r).Decode(&m)] on a reader that holds [stream]: the
    first JSON value of the stream; what follows it is not looked at. *)
Definition Decode (stream : bytes) : orError (option gomap) :=
  match parseValue (S (String.length stream)) stream with
  | Some (v, _) => storeMap v
  | None =>
      if onlySpace stream then Err EOF
      else Err (SyntaxError "invalid JSON")
  end.
(** ** The field rewriter, [rewriteMap]

    [rewriteMap] changes [base] in place; the embedding returns the map as
    it is after the call.  [base] is the freshly decoded body and shares
    nothing with [overwrite], so the in-place writes to a nested map are the
    writes to the entry that holds it. *)

Section Range.
(** What the body of the loop does with one entry [k, v] of [overwrite]
    whose key [base] holds with value [old]: the value of [base[k]]
    afterwards. *)
Variable visit : string -> any -> any -> W any.

(** [for k, v := range overwrite { if old, ok := base[k]; ok { ... } }] *)
Fixpoint rangeMap (overwrite base : gomap) : W gomap :=
  match overwrite with
  | [] => ret base
  | (k, v) :: rest =>
      match lookup k base with
      | Some old =>
          new <- visit k old v ;;
          rangeMap rest (store k new base)
      | None => rangeMap rest base
      end
  end.
End Range.

Section RangeSlice.
(** The recursive call on element [i]: [rewriteMap(t, sub2, vv, ...)]. *)
Variable visit : nat -> gomap -> gomap -> W gomap.
(** The test stops when [sub[i]] is not a map. *)
Variable notMap : nat -> W (list any).

(** [for i, vv := range v { sub2, ok := sub[i].(map[string]any) ... }] *)
Fixpoint rangeSlice (i : nat) (v : list gomap) (sub : list any)
  : W (list any) :=
  match v with
  | [] => ret sub
  | vv :: v' =>
      match nth_error sub i with
      | Some (Map sub2) =>
          sub2' <- visit i sub2 vv ;;
          rangeSlice (S i) v' (update i (Map sub2') sub)
      | Some _ => notMap i
      | None => panic "index out of range"
      end
  end.
End RangeSlice.

(** [kk := k + "#" + strconv.Itoa(i)] *)
Definition indexKey (k : string) (i : nat) : string :=
  k ++ "#" ++ Itoa (Z.of_nat i).

Definition keyPath (parents : list string) (k : string) : arg :=
  AString (Join (parents ++ [k])%list ".").

(** One turn of the loop of [rewriteMap]: the [switch v := v.(type)]. *)
Fixpoint rewriteField (parents : list string) (k : string) (old v : any)
  {struct v} : W any :=
  match v with
  | Map v =>
      match old with
      | Map sub =>
          sub' <- rangeMap (rewriteField (parents ++ [k])%list) v sub ;;
          ret (Map sub')
      | _ => t_Fatalf "could not rewrite map: key = %q" [keyPath parents k]
      end
  | MapSlice v =>
      match old with
      | Slice sub =>
          if negb (length sub =? length v)%nat then
            t_Fatalf
              "could not rewrite array map: len(sub)=%d != len(v)=%d: key = %q"
              [AInt (Z.of_nat (length sub)); AInt (Z.of_nat (length v));
               keyPath parents k]
          else
            sub' <- rangeSlice
                      (fun i sub2 vv =>
                         let kk := indexKey k i in
                         rangeMap (rewriteField (parents ++ [kk])%list) vv sub2)
                      (fun i =>
                         let kk := indexKey k i in
                         t_Fatalf "could not rewrite array map: key = %q"
                           [keyPath parents kk])
                      0 v sub ;;
            ret (Slice sub')
      | _ => t_Fatalf "could not rewrite array map: key = %q"
               [keyPath parents k]
      end
  | _ => ret v
  end.

Definition rewriteMap (base overwrite : gomap) (parents : list string)
  : W gomap :=
  rangeMap (rewriteField parents) overwrite base.

(** A Go map holds a key once.  [wellFormed v] says so of every
    [map[string]any] the rewriter walks through when [v] is an overwrite
    value: the nested mappings and the mappings of a sequence of them. *)
Fixpoint distinct (l : list string) : bool :=
  match l with
  | [] => true
  | k :: l' => negb (existsb (String.eqb k) l') && distinct l'
  end.

Fixpoint wellFormed (v : any) : bool :=
  match v with
  | Map m =>
      distinct (keys m) && forallb (fun '(_, x) => wellFormed x) m
  | MapSlice l =>
      forallb (fun m =>
                 distinct (keys m) && forallb (fun '(_, x) => wellFormed x) m)
        l
  | _ => true
  end.

(** ** Packages [net/http], [io] and [os], as far as the driver uses them *)

(** An [io.ReadCloser] over bytes held in memory: [http.NoBody], or a
    reader with the bytes not read yet. *)
Inductive body : Type :=
| NoBody
| Reader (unread : bytes).

(** [io.ReadAll]: on these readers no read fails. *)
Definition ReadAll (b : body) : bytes :=
  match b with
  | NoBody => EmptyString
  | Reader s => s
  end.

Definition header := list (string * list string).

(** [Header.Get], for a key in canonical form. *)
Fixpoint Get (h : header) (key : string) : string :=
  match h with
  | [] => EmptyString
  | (k, vs) :: h' =>
      if String.eqb k key then
        match vs with v :: _ => v | [] => EmptyString end
      else Get h' key
  end.

Record Response : Type := {
  StatusCode : Z;
  Header : header;
  Body : body
}.

Definition withBody (r : Response) (b : body) : Response :=
  {| StatusCode := StatusCode r; Header := Header r; Body := b |}.

Record Request : Type := {
  Method : string;
  Path : string;
  Query : list (string * string);
  RequestBody : bytes
}.

(** [r.URL], printed. *)
Definition URL (r : Request) : string :=
  match Query r with
  | [] => Path r
  | q => Path r ++ "?" ++ Join (List.map (fun '(k, v) => k ++ "=" ++ v) q) "&"
  end.

Definition StatusOK : Z := 200.
Definition StatusCreated : Z := 201.
Definition StatusNoContent : Z := 204.
Definition StatusNotFound : Z := 404.
Definition StatusMethodNotAllowed : Z := 405.
Definition StatusInternalServerError : Z := 500.

(** The files of the working directory: their contents by path, the
    directories made, and whether the directory refuses writes (then
    [MkdirAll] and [WriteFile] fail; [ReadFile] fails on a path that is not
    there). *)
Record FileSystem : Type := {
  files : list (string * bytes);
  dirs : list string;
  readOnly : bool
}.

Fixpoint fileAt (fs : list (string * bytes)) (path : string) : option bytes :=
  match fs with
  | [] => None
  | (p, d) :: fs' => if String.eqb p path then Some d else fileAt fs' path
  end.

Fixpoint putFile (fs : list (string * bytes)) (path : string) (data : bytes)
  : list (string * bytes) :=
  match fs with
  | [] => [(path, data)]
  | (p, d) :: fs' =>
      if String.eqb p path then (p, data) :: fs'
      else (p, d) :: putFile fs' path data
  end.

Definition MkdirAll (path : string) (fs : FileSystem) : orError FileSystem :=
  if readOnly fs then Err (PathError "mkdir" path)
  else Val {| files := files fs; dirs := path :: dirs fs;
              readOnly := readOnly fs |}.

Definition WriteFile (name : string) (data : bytes) (fs : FileSystem)
  : orError FileSystem :=
  if readOnly fs then Err (PathError "open" name)
  else Val {| files := putFile (files fs) name data; dirs := dirs fs;
              readOnly := readOnly fs |}.

Definition ReadFile (name : string) (fs : FileSystem) : orError bytes :=
  match fileAt (files fs) name with
  | Some data => Val data
  | None => Err (PathError "open" name)
  end.

(** [filepath.Join] and [filepath.Dir], on clean slash-separated paths. *)
Definition filepath_Join (elems : list string) : string := Join elems "/".

Fixpoint filepath_Dir_aux (s : string) : option string :=
  match s with
  | EmptyString => None
  | String c s' =>
      match filepath_Dir_aux s' with
      | Some d => Some (String c d)
      | None => if Ascii.eqb c "/" then Some EmptyString else None
      end
  end.

Definition filepath_Dir (path : string) : string :=
  match filepath_Dir_aux path with
  | Some EmptyString => "/"
  | Some d => d
  | None => "."
  end.

(** ** Package [e2e] *)

(** The part of a [*testing.T] a helper reads: the name of the test. *)
Record testingT : Type := { Name : string }.

(** [type ResponseFilter func(t *testing.T, r *http.Response)]: the
    filter changes [r] in place; here it returns [r] as it leaves it. *)
Definition ResponseFilter : Type := testingT -> Response -> W Response.

(** The driver also reads and writes golden files: a computation of the
    driver runs from a state of the file system and ends in one, also
    when the test is stopped. *)
Definition M (A : Type) : Type := FileSystem -> W A * FileSystem.

Definition lift {A} (w : W A) : M A := fun fs => (w, fs).

Definition bindM {A B} (m : M A) (f : A -> M B) : M B :=
  fun fs =>
    match m fs with
    | ((ev, Ok a), fs') =>
        let '((ev', r), fs'') := f a fs' in (((ev ++ ev')%list, r), fs'')
    | ((ev, FailNow), fs') => ((ev, FailNow), fs')
    | ((ev, Panic msg), fs') => ((ev, Panic msg), fs')
    end.

Notation "x <~ m ;; f" := (bindM m (fun x => f))
  (at level 61, m at next level, right associativity) : test_scope.
Notation "m ;;~ f" := (bindM m (fun _ => f))
  (at level 61, right associativity) : test_scope.

(** [if err != nil { t.Fatal(err) }] *)
Definition orFatal {A} (r : orError A) : W A :=
  match r with
  | Val a => ret a
  | Err e => t_Fatal [AError e]
  end.

(** This is a modified version of [httputil.drainBody] for this test: the
    body read into a buffer, as two readers ([dump], [orig]).  Reading
    from memory does not fail, so its [t.Fatal] is not reached. *)
Definition drainBody (t : testingT) (b : body) : W (body * body) :=
  match b with
  | NoBody => ret (NoBody, NoBody)
  | Reader s => ret (Reader s, Reader s)
  end.

Definition indentJSON (t : testingT) (body : bytes) : W bytes :=
  tmp <- orFatal (Unmarshal body) ;;
  body <- orFatal (MarshalIndent tmp "" "  ") ;;
  ret body.

Definition goldenFileName (name : string) : string :=
  filepath_Join ["testdata"; name ++ ".golden"].

Definition writeGolden (t : testingT) (data : bytes) : M unit :=
  fun fs =>
    let filename := goldenFileName (Name t) in
    match MkdirAll (filepath_Dir filename) fs with
    | Err e => (t_Fatal [AError e], fs)
    | Val fs1 =>
        match WriteFile filename data fs1 with
        | Err e => (t_Fatal [AError e], fs1)
        | Val fs2 => (ret tt, fs2)
        end
    end.

Definition readGolden (t : testingT) : M bytes :=
  fun fs => (orFatal (ReadFile (goldenFileName (Name t)) fs), fs).

(** [ModifyJSON] overwrites the specified key in the JSON field of the
    response body if it exists.  On the nil map that a [null] body decodes
    to, every lookup of [rewriteMap] misses. *)
Definition ModifyJSON (overwrite : gomap) : ResponseFilter :=
  fun t r =>
    tmp <- orFatal (Decode (ReadAll (Body r))) ;;
    tmp <- match tmp with
           | Some base =>
               base <- rewriteMap base overwrite [] ;; ret (Some base)
           | None => ret None
           end ;;
    body <- orFatal (Encode tmp) ;;
    ret (withBody r (Reader body)).

(** [PrettyJSON] is a [ResponseFilter] for formatting JSON responses.  It
    adds indentation if the status code is not 204. *)
Definition PrettyJSON : ResponseFilter :=
  fun t r =>
    if Z.eqb (StatusCode r) StatusNoContent then ret r
    else if negb (HasPrefix (Get (Header r) "Content-Type") "application/json")
    then t_Fatal [AString "Response is not JSON"]
    else
      let body := ReadAll (Body r) in
      body <- indentJSON t body ;;
      ret (withBody r (Reader body)).

(** [for _, f := range filters { f(t, got) }] *)
Fixpoint runFilters (t : testingT) (filters : list ResponseFilter)
    (got : Response) : W Response :=
  match filters with
  | [] => ret got
  | f :: rest => got <- f t got ;; runFilters t rest got
  end.

Section Driver.
(** The package variables: the registered router, seen as the response
    [httptest] records for a request, and the two flags. *)
Variable router : Request -> Response.
Variable dumpRawResponse : bool.
Variable updateGolden : bool.

(** [httputil.DumpResponse] and [cmp.Diff]. *)
Variable DumpResponse : Response -> bool -> orError bytes.
Variable Diff : bytes -> bytes -> string.

(** The block under [if *dumpRawResponse]. *)
Definition dumpRaw (t : testingT) (got : Response) : W Response :=
  bodies <- drainBody t (Body got) ;;
  let '(rc, orig) := bodies in
  let got := withBody got orig in
  let body := ReadAll rc in
  body <- (if HasPrefix (Get (Header got) "Content-Type") "application/json"
           then
             if (Z.eqb (StatusCode got) StatusOK
                 || Z.eqb (StatusCode got) StatusCreated)%bool
             then indentJSON t body
             else ret body
           else ret body) ;;
  dump <- orFatal (DumpResponse got false) ;;
  t_Logf ("Raw response:" ++ LF ++ "%s%s" ++ LF) [AString dump; AString body]
  ;;; ret got.

(** The last step: write the golden file, or compare with it. *)
Definition compareOrUpdate (t : testingT) (dump : bytes) : M unit :=
  if updateGolden then writeGolden t dump
  else
    golden <~ readGolden t ;;
    let diff := Diff golden dump in
    if negb (String.eqb diff "") then
      lift (t_Errorf ("HTTP Response mismatch (-want +got):" ++ LF ++ "%s")
              [AString diff])
    else lift (ret tt).

(** [RunTest] sends an HTTP request to the router, then checks the
    status code and compares the response with the golden file.  When
    [updateGolden] is true, it updates the golden file instead. *)
Definition RunTest (t : testingT) (r : Request) (want : Z)
    (filters : list ResponseFilter) : M unit :=
  lift (t_Logf (">>> %s %s" ++ LF) [AString (Method r); AString (URL r)]) ;;~
  let got := router r in
  lift (if negb (Z.eqb (StatusCode got) want) then
          t_Errorf ("HTTP StatusCode: %d, want: %d" ++ LF)
            [AInt (StatusCode got); AInt want]
        else ret tt) ;;~
  got <~ lift (if dumpRawResponse then dumpRaw t got else ret got) ;;
  got <~ lift (runFilters t filters got) ;;
  dump <~ lift (orFatal (DumpResponse got true)) ;;
  compareOrUpdate t dump ;;~
  lift (t_Logf ("<<< %s" ++ LF) [AString (goldenFileName (Name t))]).

(** The steps of [RunTest] that come before the golden file: the
    exchange with the router, the status check, the raw dump, the filters
    and the serialized response. *)
Definition exchange (t : testingT) (r : Request) (want : Z)
    (filters : list ResponseFilter) : W bytes :=
  t_Logf (">>> %s %s" ++ LF) [AString (Method r); AString (URL r)] ;;;
  let got := router r in
  (if negb (Z.eqb (StatusCode got) want) then
     t_Errorf ("HTTP StatusCode: %d, want: %d" ++ LF)
       [AInt (StatusCode got); AInt want]
   else ret tt) ;;;
  got <- (if dumpRawResponse then dumpRaw t got else ret got) ;;
  got <- runFilters t filters got ;;
  orFatal (DumpResponse got true).

End Driver.

(** Stand-ins for [httputil.DumpResponse] and [cmp.Diff] in the examples:
    the status code, the header lines and the body; and a report that is
    empty between equal byte strings only. *)
Definition exampleDump (r : Response) (body : bool) : orError bytes :=
  Val ("HTTP/1.1 " ++ Itoa (StatusCode r) ++ CRLF
       ++ String.concat ""
            (List.map (fun '(k, vs) => k ++ ": " ++ Join vs "," ++ CRLF)
               (Header r))
       ++ CRLF ++ (if body then ReadAll (Body r) else "")).

Definition exampleDiff (x y : bytes) : string :=
  if String.eqb x y then "" else "- " ++ x ++ LF ++ "+ " ++ y.

(** ** The example router ([newRouter] of the example server)

    [now] is what [time.Now().Unix()] returns while the request is
    served. *)

Definition jsonHeader : header := [("Content-Type", ["application/json"])].

(** [http.Error(w, msg, code)] *)
Definition httpError (msg : string) (code : Z) : Response :=
  {| StatusCode := code;
     Header := [("Content-Type", ["text/plain; charset=utf-8"]);
                ("X-Content-Type-Options", ["nosniff"])];
     Body := Reader (msg ++ LF) |}.

Definition queryGet (q : list (string * string)) (key : string) : string :=
  match List.find (fun '(k, _) => String.eqb k key) q with
  | Some (_, v) => v
  | None => EmptyString
  end.

Definition newRouter (now : Z) (r : Request) : Response :=
  if String.eqb (Path r) "/v1/health" then
    {| StatusCode := StatusOK; Header := jsonHeader;
       Body := Reader (js "{'hoge':'fuga'}") |}
  else if String.eqb (Path r) "/v2/health" then
    {| StatusCode := StatusOK; Header := jsonHeader;
       Body := Reader (js "{'ping':'pong'}") |}
  else if String.eqb (Path r) "/v1/user/1" then
    if String.eqb (Method r) "GET" then
      if String.eqb (queryGet (Query r) "typ") "exception" then
        httpError "Server error" StatusInternalServerError
      else if String.eqb (queryGet (Query r) "typ") "new" then
        {| StatusCode := StatusOK; Header := jsonHeader;
           Body := Reader (js "{'name':'Giorno Giovanna'}") |}
      else
        {| StatusCode := StatusOK; Header := jsonHeader;
           Body := Reader (js "{'name':'JoJo'}") |}
    else if String.eqb (Method r) "PUT" then
      {| StatusCode := StatusNoContent; Header := []; Body := Reader "" |}
    else httpError "Method not allowed" StatusMethodNotAllowed
  else if String.eqb (Path r) "/v1/user" then
    if String.eqb (Method r) "POST" then
      {| StatusCode := StatusCreated; Header := jsonHeader;
         Body := Reader (js "{'id':1,'created_time':" ++ Itoa now ++ "}") |}
    else httpError "Method not allowed" StatusMethodNotAllowed
  else httpError "404 page not found" StatusNotFound.

(** ** The other helpers of package [e2e] *)

(** [JSONBody] encodes [m] and returns it as an [io.Reader]: the bytes
    the reader holds. *)
Definition JSONBody (t : testingT) (m : option gomap) : W bytes :=
  orFatal (Encode m).

Section Capture.
(** The type [T] of the captured value, and [json.Unmarshal(body, &ptr)]
    for a [ptr] of type [*T]: with the value [*ptr] holds before the call,
    the value it holds afterwards. *)
Variable T : Type.
Variable unmarshalInto : bytes -> T -> orError T.

(** [CaptureResponse] unmarshals the JSON response: the response as it
    leaves it, and the captured value. *)
Definition CaptureResponse (ptr : T) (t : testingT) (r : Response)
  : W (Response * T) :=
  let body := ReadAll (Body r) in
  let r := withBody r (Reader body) in
  captured <- orFatal (unmarshalInto body ptr) ;;
  ret (r, captured).
End Capture.

(** ** The helpers of the example tests *)

(** [strings.ReplaceAll(s, old, new)] for an [old] of one byte. *)
Fixpoint ReplaceAll (s : string) (old : ascii) (new : string) : string :=
  match s with
  | EmptyString => EmptyString
  | String c s' =>
      ((if Ascii.eqb c old then new else String c EmptyString)
       ++ ReplaceAll s' old new)%string
  end.

(** [APITestName] returns golden file name,
    ex) [v1_health_200_success.golden].  [endpoint[1:]] panics on the
    empty string. *)
Definition APITestName (endpoint : string) (code : Z)
    (description : list string) : W string :=
  match endpoint with
  | EmptyString => panic "slice bounds out of range [1:0]"
  | String _ rest =>
      ret (Join (ReplaceAll rest "/" "_" :: Itoa code :: description) "_")
  end.
(** A Unicode scalar value: in range and not a surrogate half. *)
Definition isScalar (r : N) : bool :=
  ((r <=? 0x10FFFF) && negb (isSurrogate r))%N.

(** What [appendString] writes for one rune. *)
Definition quoteRune (r : N) : string :=
  if (r <? 0x80)%N then
    if htmlSafe r then String (chr r) "" else escapeByte (chr r)
  else if ((r =? 0x2028) || (r =? 0x2029))%N then
    String BS "u202" ++ String (hexDigit (r mod 16)) ""
  else EncodeRune r.

(** Well-formed UTF-8: a sequence of encoded scalar values. *)
Inductive ValidUTF8 : string -> Prop :=
| valid_nil : ValidUTF8 ""
| valid_rune r s :
    isScalar r = true -> ValidUTF8 s -> ValidUTF8 (EncodeRune r ++ s).

Fixpoint allDigits (s : string) : bool :=
  match s with
  | EmptyString => true
  | String c s' => isDigit c && allDigits s'
  end.

(** What may follow a value in a JSON text: nothing, white space, a comma
    or a closing bracket. *)
Definition delimited (rest : string) : bool :=
  match rest with
  | EmptyString => true
  | String c _ =>
      isSpace c || Ascii.eqb c "," || Ascii.eqb c "]" || Ascii.eqb c "}"
  end.

Definition headIs (P : ascii -> bool) (s : string) : Prop :=
  match s with
  | EmptyString => True
  | String c _ => P c = true
  end.

(** The shape of a literal: a sign, an integer part, a fraction and an
    exponent. *)
Definition literal (neg : bool) (int : string) (frac expo : string) : string :=
  ((if neg then "-" else "") ++ int ++ frac ++ expo)%string.

Definition isInt (int : string) : Prop :=
  allDigits int = true /\
  exists c t, int = String c t /\ (t = ""%string \/ c <> "0"%char).

Definition isFrac (frac : string) : Prop :=
  frac = ""%string \/
  exists fd, frac = String "." fd /\ allDigits fd = true /\ fd <> ""%string.

Definition isExpo (expo : string) : Prop :=
  expo = ""%string \/
  exists e esign ed,
    expo = String e (esign ++ ed) /\ isExpChar e = true /\
    (esign = ""%string \/ esign = "+"%string \/ esign = "-"%string) /\
    allDigits ed = true /\ ed <> ""%string.

(** The order of map keys: bytewise, as [strings.Compare]. *)
Definition keyLt (a b : string) : Prop := String.compare a b = Lt.

(** The values [encoding/json] decodes into an [any]: null, booleans,
    numbers, strings of well-formed UTF-8, arrays and objects, with the
    entries of an object in increasing order of their keys. *)
Inductive Canonical : any -> Prop :=
| can_nil : Canonical Nil
| can_bool b : Canonical (Bool b)
| can_float bits : Canonical (Float64 bits)
| can_str s : ValidUTF8 s -> Canonical (Str s)
| can_slice l : Forall Canonical l -> Canonical (Slice l)
| can_map m :
    StronglySorted keyLt (keys m) ->
    Forall (fun kv => ValidUTF8 (fst kv) /\ Canonical (snd kv)) m ->
    Canonical (Map m).

(** A layout that only adds white space. *)
Fixpoint allSpace (s : string) : bool :=
  match s with
  | EmptyString => true
  | String c s' => isSpace c && allSpace s'
  end.

Definition spacing (L : layout) : Prop :=
  (forall depth, allSpace (newline L depth) = true) /\
  exists w, colon L = String ":" w /\ allSpace w = true.

(** Reading back the text of [v] followed by [rest] gives [v] and [rest];
    the text begins with a character that starts a value. *)
Definition readsBack (v : any) (text : string) : Prop :=
  (exists c t, text = String c t /\ isSpace c = false /\
               Ascii.eqb c "]" = false) /\
  forall F rest,
    (String.length text < F)%nat -> delimited rest = true ->
    parseValue F (text ++ rest) = Some (v, rest).

(** A member [k: v] of an object, as the encoder writes it. *)
Definition memberText (L : layout) (kv : string * any) (item : string) : Prop :=
  ValidUTF8 (fst kv) /\
  exists t, item = (appendString (fst kv) ++ colon L ++ t)%string /\
            readsBack (snd kv) t.

(** [c] occurs in [s]. *)
Fixpoint hasByte (c : ascii) (s : string) : bool :=
  match s with
  | EmptyString => false
  | String c' s' => Ascii.eqb c' c || hasByte c s'
  end.

(** A value of type [int64]. *)
Definition isInt64 (z : Z) : Prop := (- 2 ^ 63 <= z < 2 ^ 63)%Z.
(* ================================================================== *)
(** * Properties *)
(* ================================================================== *)

(** ** The monad *)

Lemma bind_Ok_inv {A B} (m : W A) (f : A -> W B) (b : B) :
  snd (bind m f) = Ok b ->
  exists a, snd m = Ok a /\ snd (f a) = Ok b.
Proof.
  destruct m as [ev [a | | msg]]; simpl; try discriminate.
  destruct (f a) as [ev' r] eqn:E; simpl. intros ->. exists a. rewrite E. auto.
Qed.

Lemma bind_ret_l {A B} (a : A) (f : A -> W B) : bind (ret a) f = f a.
Proof. unfold bind, ret. destruct (f a). reflexivity. Qed.

Lemma bind_quiet {A B} (m : W A) (f : A -> W B) (a : A) :
  m = ([], Ok a) -> bind m f = f a.
Proof. intros ->. apply bind_ret_l. Qed.

Lemma bind_FailNow {A B} (m : W A) (f : A -> W B) :
  snd m = FailNow -> snd (bind m f) = FailNow.
Proof. destruct m as [ev [a | | msg]]; simpl; try discriminate. auto. Qed.

Lemma bind_Ok_snd {A B} (m : W A) (f : A -> W B) (a : A) :
  snd m = Ok a -> snd (bind m f) = snd (f a).
Proof.
  destruct m as [ev r]; simpl. intros ->. simpl. destruct (f a); reflexivity.
Qed.

Lemma failed_bind {A B} (m : W A) (f : A -> W B) :
  failed m = true -> failed (bind m f) = true.
Proof.
  unfold failed. destruct m as [ev [a | | msg]]; simpl; auto.
  destruct (f a) as [ev' r]; simpl. rewrite existsb_app. intros ->. reflexivity.
Qed.

Lemma failed_bind_r {A B} (m : W A) (f : A -> W B) (a : A) :
  snd m = Ok a -> failed (f a) = true -> failed (bind m f) = true.
Proof.
  unfold failed. destruct m as [ev r]; simpl. intros ->.
  destruct (f a) as [ev' r']; simpl. rewrite existsb_app. intros ->.
  apply orb_true_r.
Qed.

(** ** Maps *)

Lemma lookup_None_iff k m : lookup k m = None <-> ~ In k (keys m).
Proof.
  induction m as [| [k' v] m IH]; simpl.
  - tauto.
  - destruct (String.eqb_spec k k') as [-> | Hne].
    + split; [discriminate | intros H; exfalso; apply H; auto].
    + rewrite IH. split; intros H; [intros [E | E]; [congruence | auto] | tauto].
Qed.

Lemma lookup_Some_In k m v : lookup k m = Some v -> In k (keys m).
Proof.
  intros H. destruct (in_dec string_dec k (keys m)) as [|Hn]; auto.
  apply lookup_None_iff in Hn. congruence.
Qed.

Lemma keys_store k v m : keys (store k v m) = keys m.
Proof.
  induction m as [| [k' v'] m IH]; simpl; auto.
  destruct (String.eqb k k'); simpl; congruence.
Qed.

Lemma lookup_store_eq k v m old :
  lookup k m = Some old -> lookup k (store k v m) = Some v.
Proof.
  induction m as [| [k' v'] m IH]; simpl; try discriminate.
  destruct (String.eqb k k') eqn:E; simpl; rewrite E; auto.
Qed.

Lemma lookup_store_neq k k' v m :
  k <> k' -> lookup k (store k' v m) = lookup k m.
Proof.
  intros Hne. induction m as [| [k'' v''] m IH]; simpl; auto.
  destruct (String.eqb k' k'') eqn:E; simpl.
  - apply String.eqb_eq in E. subst k''.
    destruct (String.eqb_spec k k'); [congruence | reflexivity].
  - rewrite IH. reflexivity.
Qed.

Lemma store_same k v m : lookup k m = Some v -> store k v m = m.
Proof.
  induction m as [| [k' v'] m IH]; simpl; auto.
  destruct (String.eqb k k') eqn:E.
  - intros [= ->]. reflexivity.
  - intros H. rewrite IH; auto.
Qed.

Lemma length_update i x l : length (update i x l) = length l.
Proof.
  revert i. induction l as [| y l IH]; intros [| i]; simpl; auto.
Qed.

Lemma nth_error_update_eq i x l :
  (i < length l)%nat -> nth_error (update i x l) i = Some x.
Proof.
  revert i. induction l as [| y l IH]; intros [| i]; simpl; try lia; auto.
  intros H. apply IH. lia.
Qed.

Lemma nth_error_update_neq i j x l :
  i <> j -> nth_error (update i x l) j = nth_error l j.
Proof.
  revert i j.
  induction l as [| y l IH]; intros [| i] [| j] H; simpl; auto;
    try congruence.
Qed.

Lemma update_same i x l : nth_error l i = Some x -> update i x l = l.
Proof.
  revert i. induction l as [| y l IH]; intros [| i]; simpl; auto.
  - intros [= ->]. reflexivity.
  - intros H. rewrite IH; auto.
Qed.

Lemma distinct_NoDup l : distinct l = true <-> NoDup l.
Proof.
  induction l as [| k l IH]; simpl.
  - split; [constructor | reflexivity].
  - rewrite andb_true_iff, negb_true_iff, IH. split.
    + intros [Hn Hd]. constructor; auto. intros Hin.
      assert (existsb (String.eqb k) l = true) as E
        by (apply existsb_exists; exists k; split; [auto | apply String.eqb_refl]).
      congruence.
    + intros H. inversion H as [| ? ? Hn Hd]; subst. split; auto.
      destruct (existsb (String.eqb k) l) eqn:E; auto.
      apply existsb_exists in E. destruct E as [x [Hin Hx]].
      apply String.eqb_eq in Hx. subst x. contradiction.
Qed.

Lemma map_all_In (P : any -> Prop) (m : gomap) :
  list_all (string * any) (prod_all string (fun _ => unit) any P) m ->
  forall k v, In (k, v) m -> P v.
Proof.
  induction 1 as [| a Ha l Hl IH]; simpl; intros k v [].
  - subst. inversion Ha. assumption.
  - eauto.
Qed.

Lemma maps_all_In (P : any -> Prop) (l : list gomap) :
  list_all (list (string * any))
    (list_all (string * any) (prod_all string (fun _ => unit) any P)) l ->
  forall m k v, In m l -> In (k, v) m -> P v.
Proof.
  induction 1 as [| a Ha l Hl IH]; simpl; intros m k v [].
  - subst. apply map_all_In. assumption.
  - eauto.
Qed.

(** ** The loops of the rewriter *)

Section RangeMapFacts.
Variable visit : string -> any -> any -> W any.

Lemma rangeMap_keys ow : forall base base',
  snd (rangeMap visit ow base) = Ok base' -> keys base' = keys base.
Proof.
  induction ow as [| [k v] rest IH]; simpl; intros base base' H.
  - injection H as <-. reflexivity.
  - destruct (lookup k base) as [old |]; [| auto].
    apply bind_Ok_inv in H. destruct H as [new [_ H]].
    apply IH in H. rewrite H. apply keys_store.
Qed.

Lemma rangeMap_frame ow : forall base base' k,
  snd (rangeMap visit ow base) = Ok base' ->
  ~ In k (keys ow) -> lookup k base' = lookup k base.
Proof.
  induction ow as [| [k' v] rest IH]; simpl; intros base base' k H Hk.
  - injection H as <-. reflexivity.
  - destruct (lookup k' base) as [old |].
    + apply bind_Ok_inv in H. destruct H as [new [_ H]].
      rewrite (IH _ _ k H) by tauto. apply lookup_store_neq.
      intros ->. tauto.
    + apply IH; tauto.
Qed.

Lemma rangeMap_quiet ow :
  (forall k old v new, In (k, v) ow ->
     snd (visit k old v) = Ok new -> fst (visit k old v) = []) ->
  forall base base',
    snd (rangeMap visit ow base) = Ok base' ->
    fst (rangeMap visit ow base) = [].
Proof.
  induction ow as [| [k v] rest IH]; simpl; intros Hq base base' H; auto.
  destruct (lookup k base) as [old |].
  - pose proof H as H0. apply bind_Ok_inv in H. destruct H as [new [Hv H]].
    pose proof (Hq k old v new (or_introl eq_refl) Hv) as Hfst.
    destruct (visit k old v) as [ev r]. simpl in *. subst.
    apply IH in H; [| intros; eapply Hq; eauto].
    destruct (rangeMap visit rest (store k new base)). simpl in *.
    subst. reflexivity.
  - eapply IH; eauto.
Qed.

Lemma rangeMap_no_panic ow :
  (forall k old v msg, In (k, v) ow -> snd (visit k old v) <> Panic msg) ->
  forall base msg, snd (rangeMap visit ow base) <> Panic msg.
Proof.
  induction ow as [| [k v] rest IH]; simpl; intros Hq base msg.
  - discriminate.
  - destruct (lookup k base) as [old |].
    + pose proof (Hq k old v) as Hv.
      destruct (visit k old v) as [ev [new | | m]]; simpl.
      * specialize (IH (fun k old v msg H => Hq k old v msg (or_intror H))
                       (store k new base) msg).
        destruct (rangeMap visit rest (store k new base)). exact IH.
      * discriminate.
      * exfalso. apply (Hv m); auto.
    + apply IH. intros; apply Hq; auto.
Qed.

(** The loop run again on its own result changes nothing, when each
    turn does so and the keys are distinct. *)
Lemma rangeMap_idem ow :
  NoDup (keys ow) ->
  (forall k old v new, In (k, v) ow ->
     snd (visit k old v) = Ok new -> visit k new v = ([], Ok new)) ->
  forall base base',
    snd (rangeMap visit ow base) = Ok base' ->
    rangeMap visit ow base' = ([], Ok base').
Proof.
  induction ow as [| [k v] rest IH]; simpl; intros Hnd Hv base base' H.
  - injection H as <-. reflexivity.
  - inversion Hnd as [| ? ? Hk Hnd']; subst.
    assert (IH' := IH Hnd' (fun k old v new Hin => Hv k old v new (or_intror Hin))).
    destruct (lookup k base) as [old |] eqn:El.
    + apply bind_Ok_inv in H. destruct H as [new [Hnew H]].
      rewrite (rangeMap_frame _ _ _ k H Hk).
      rewrite (lookup_store_eq _ _ _ _ El).
      rewrite (bind_quiet _ _ new); [| eapply Hv; eauto].
      rewrite store_same.
      * eapply IH'; eauto.
      * rewrite (rangeMap_frame _ _ _ k H Hk). eapply lookup_store_eq; eauto.
    + rewrite (rangeMap_frame _ _ _ k H Hk), El. eapply IH'; eauto.
Qed.

(** Entries whose key [base] does not hold are skipped. *)
Lemma rangeMap_absent ow : forall base,
  (forall k, In k (keys ow) -> lookup k base = None) ->
  rangeMap visit ow base = ret base.
Proof.
  induction ow as [| [k v] rest IH]; simpl; intros base H; auto.
  rewrite (H k) by auto. apply IH. auto.
Qed.

Lemma rangeMap_filter ow : forall T base,
  keys base = keys T ->
  rangeMap visit ow base
  = rangeMap visit
      (filter (fun '(k, _) => hasKey T k) ow) base.
Proof.
  induction ow as [| [k v] rest IH]; simpl; intros T base Hk; auto.
  unfold hasKey at 1. destruct (lookup k T) as [x |] eqn:ET.
  - simpl. destruct (lookup k base) as [old |] eqn:EB.
    + destruct (visit k old v) as [ev [new | | msg]]; simpl; auto.
      rewrite (IH T (store k new base)); auto.
      rewrite keys_store. auto.
    + apply IH; auto.
  - assert (lookup k base = None) as ->.
    { apply lookup_None_iff. rewrite Hk. apply lookup_None_iff. auto. }
    apply IH; auto.
Qed.
End RangeMapFacts.

Section RangeSliceFacts.
Variable visit : nat -> gomap -> gomap -> W gomap.
Variable notMap : nat -> W (list any).
Hypothesis notMap_stops : forall i, snd (notMap i) = FailNow.

Lemma rangeSlice_Ok_inv i vv v sub sub' :
  snd (rangeSlice visit notMap i (vv :: v) sub) = Ok sub' ->
  exists sub2 r,
    nth_error sub i = Some (Map sub2) /\
    snd (visit i sub2 vv) = Ok r /\
    snd (rangeSlice visit notMap (S i) v (update i (Map r) sub)) = Ok sub'.
Proof.
  simpl. destruct (nth_error sub i) as [x |] eqn:E; [| discriminate].
  destruct x; try (rewrite notMap_stops; discriminate).
  intros H. apply bind_Ok_inv in H. destruct H as [r [H1 H2]].
  eauto.
Qed.

Lemma rangeSlice_length v : forall i sub sub',
  snd (rangeSlice visit notMap i v sub) = Ok sub' ->
  length sub' = length sub.
Proof.
  induction v as [| vv v IH]; intros i sub sub' H.
  - simpl in H. injection H as <-. reflexivity.
  - apply rangeSlice_Ok_inv in H. destruct H as (sub2 & r & _ & _ & H).
    apply IH in H. rewrite H. apply length_update.
Qed.

Lemma rangeSlice_frame v : forall i sub sub' j,
  snd (rangeSlice visit notMap i v sub) = Ok sub' ->
  (j < i)%nat -> nth_error sub' j = nth_error sub j.
Proof.
  induction v as [| vv v IH]; intros i sub sub' j H Hj.
  - simpl in H. injection H as <-. reflexivity.
  - apply rangeSlice_Ok_inv in H. destruct H as (sub2 & r & _ & _ & H).
    rewrite (IH _ _ _ j H) by lia. apply nth_error_update_neq. lia.
Qed.

Lemma rangeSlice_quiet v :
  (forall i sub2 vv r, In vv v ->
     snd (visit i sub2 vv) = Ok r -> fst (visit i sub2 vv) = []) ->
  forall i sub sub',
    snd (rangeSlice visit notMap i v sub) = Ok sub' ->
    fst (rangeSlice visit notMap i v sub) = [].
Proof.
  induction v as [| vv v IH]; intros Hq i sub sub' H; auto.
  pose proof H as H0.
  apply rangeSlice_Ok_inv in H. destruct H as (sub2 & r & E & Hv & H).
  simpl. rewrite E.
  pose proof (Hq i sub2 vv r (or_introl eq_refl) Hv) as Hfst.
  destruct (visit i sub2 vv) as [ev w]. simpl in *. subst.
  apply IH in H; [| intros; eapply Hq; eauto].
  destruct (rangeSlice visit notMap (S i) v (update i (Map r) sub)).
  simpl in *. subst. reflexivity.
Qed.

Lemma rangeSlice_no_panic v :
  (forall i sub2 vv msg, In vv v -> snd (visit i sub2 vv) <> Panic msg) ->
  forall i sub msg,
    (i + length v <= length sub)%nat ->
    snd (rangeSlice visit notMap i v sub) <> Panic msg.
Proof.
  induction v as [| vv v IH]; intros Hq i sub msg Hlen; simpl.
  - discriminate.
  - simpl in Hlen.
    destruct (nth_error sub i) as [x |] eqn:E.
    + destruct x; try (rewrite notMap_stops; discriminate).
      pose proof (Hq i m vv) as Hv.
      destruct (visit i m vv) as [ev [r | | msg']]; simpl.
      * specialize (IH (fun i s vv msg H => Hq i s vv msg (or_intror H))
                       (S i) (update i (Map r) sub) msg).
        rewrite length_update in IH.
        destruct (rangeSlice visit notMap (S i) v (update i (Map r) sub)).
        intros Hp. apply IH; [lia | exact Hp].
      * discriminate.
      * exfalso. apply (Hv msg'); [left |]; reflexivity.
    + apply nth_error_None in E. lia.
Qed.

Lemma rangeSlice_idem v :
  (forall i sub2 vv r, In vv v ->
     snd (visit i sub2 vv) = Ok r -> visit i r vv = ([], Ok r)) ->
  forall i sub sub',
    snd (rangeSlice visit notMap i v sub) = Ok sub' ->
    rangeSlice visit notMap i v sub' = ([], Ok sub').
Proof.
  induction v as [| vv v IH]; intros Hv i sub sub' H.
  - simpl in H. injection H as <-. reflexivity.
  - apply rangeSlice_Ok_inv in H. destruct H as (sub2 & r & E & Hr & H).
    assert (nth_error sub' i = Some (Map r)) as E'.
    { rewrite (rangeSlice_frame _ _ _ _ i H) by lia.
      apply nth_error_update_eq. apply nth_error_Some. congruence. }
    simpl. rewrite E'.
    rewrite (bind_quiet _ _ r); [| eapply Hv; simpl; eauto].
    rewrite update_same by exact E'.
    eapply IH; eauto. intros; eapply Hv; simpl; eauto.
Qed.
End RangeSliceFacts.

(** ** [rewriteMap] *)

Lemma any_induction (P : any -> Prop) :
  (forall v, (forall m, v <> Map m) -> (forall l, v <> MapSlice l) -> P v) ->
  (forall m, (forall k v, In (k, v) m -> P v) -> P (Map m)) ->
  (forall l, (forall m k v, In m l -> In (k, v) m -> P v) -> P (MapSlice l)) ->
  forall v, P v.
Proof.
  intros Hleaf Hmap Hslice.
  induction v as [ | | | | | l X | m X | l X | | ] using any_ind;
    try (apply Hleaf; discriminate).
  - apply Hmap. apply map_all_In. exact X.
  - apply Hslice. apply maps_all_In. exact X.
Qed.

Lemma rewriteField_Map parents k old v :
  rewriteField parents k old (Map v)
  = match old with
    | Map sub =>
        sub' <- rewriteMap sub v (parents ++ [k])%list ;; ret (Map sub')
    | _ => t_Fatalf "could not rewrite map: key = %q" [keyPath parents k]
    end.
Proof. reflexivity. Qed.

Lemma rewriteField_MapSlice parents k old v :
  rewriteField parents k old (MapSlice v)
  = match old with
    | Slice sub =>
        if negb (length sub =? length v)%nat then
          t_Fatalf
            "could not rewrite array map: len(sub)=%d != len(v)=%d: key = %q"
            [AInt (Z.of_nat (length sub)); AInt (Z.of_nat (length v));
             keyPath parents k]
        else
          sub' <- rangeSlice
                    (fun i sub2 vv =>
                       rewriteMap sub2 vv (parents ++ [indexKey k i])%list)
                    (fun i =>
                       t_Fatalf "could not rewrite array map: key = %q"
                         [keyPath parents (indexKey k i)])
                    0 v sub ;;
          ret (Slice sub')
    | _ => t_Fatalf "could not rewrite array map: key = %q"
             [keyPath parents k]
    end.
Proof. reflexivity. Qed.

Lemma rewriteField_literal parents k old v :
  (forall m, v <> Map m) -> (forall l, v <> MapSlice l) ->
  rewriteField parents k old v = ret v.
Proof.
  intros Hm Hs. destruct v; try reflexivity.
  - exfalso. eapply Hm; eauto.
  - exfalso. eapply Hs; eauto.
Qed.

(** The loop of [rewriteMap], as the source has it. *)
Lemma rewriteMap_cons base k v rest parents :
  rewriteMap base ((k, v) :: rest) parents
  = match lookup k base with
    | Some old =>
        new <- rewriteField parents k old v ;;
        rewriteMap (store k new base) rest parents
    | None => rewriteMap base rest parents
    end.
Proof. reflexivity. Qed.

Lemma bind_ret_Ok_inv {A B} (m : W A) (g : A -> B) (b : B) :
  snd (bind m (fun a => ret (g a))) = Ok b ->
  exists a, snd m = Ok a /\ b = g a.
Proof.
  intros H. apply bind_Ok_inv in H. destruct H as [a [H1 H2]].
  exists a. split; auto. simpl in H2. congruence.
Qed.

Lemma bind_ret_fst {A B} (m : W A) (g : A -> B) :
  fst (bind m (fun a => ret (g a))) = fst m.
Proof.
  destruct m as [ev [a | | msg]]; simpl; auto. apply app_nil_r.
Qed.

Lemma bind_ret_no_panic {A B} (m : W A) (g : A -> B) msg :
  snd m <> Panic msg -> snd (bind m (fun a => ret (g a))) <> Panic msg.
Proof.
  destruct m as [ev [a | | msg']]; cbn; intros H H';
    [discriminate H' | discriminate H' | apply H; congruence].
Qed.

(** A successful rewrite logs nothing and does not mark the test. *)
Lemma rewriteField_quiet v : forall parents k old new,
  snd (rewriteField parents k old v) = Ok new ->
  fst (rewriteField parents k old v) = [].
Proof.
  induction v as [v Hm Hs | m IH | l IH] using any_induction;
    intros parents k old new H.
  - rewrite rewriteField_literal by auto. reflexivity.
  - rewrite rewriteField_Map in *. destruct old; try discriminate.
    rewrite bind_ret_fst. apply bind_ret_Ok_inv in H.
    destruct H as [sub' [H _]].
    eapply rangeMap_quiet; [| exact H]. intros; eapply IH; eauto.
  - rewrite rewriteField_MapSlice in *. destruct old; try discriminate.
    destruct (negb (length l0 =? length l)%nat); [discriminate |].
    rewrite bind_ret_fst. apply bind_ret_Ok_inv in H.
    destruct H as [sub' [H _]].
    eapply rangeSlice_quiet; [reflexivity | | exact H].
    intros i sub2 vv r Hin Hr. eapply rangeMap_quiet; [| exact Hr].
    intros; eapply IH; eauto.
Qed.

Lemma rewriteMap_quiet base overwrite parents base' :
  snd (rewriteMap base overwrite parents) = Ok base' ->
  rewriteMap base overwrite parents = ([], Ok base').
Proof.
  unfold rewriteMap. intros H. pose proof H as H'. apply rangeMap_quiet in H'.
  - destruct (rangeMap (rewriteField parents) overwrite base).
    simpl in *. congruence.
  - intros. eapply rewriteField_quiet; eauto.
Qed.

(** The index [sub[i]] is in range: the lengths were compared. *)
Lemma rewriteField_no_panic v : forall parents k old msg,
  snd (rewriteField parents k old v) <> Panic msg.
Proof.
  induction v as [v Hm Hs | m IH | l IH] using any_induction;
    intros parents k old msg.
  - rewrite rewriteField_literal by auto. discriminate.
  - rewrite rewriteField_Map. destruct old; try discriminate.
    apply bind_ret_no_panic. apply rangeMap_no_panic. intros; eapply IH; eauto.
  - rewrite rewriteField_MapSlice. destruct old; try discriminate.
    destruct (length l0 =? length l)%nat eqn:E; simpl; [| discriminate].
    apply Nat.eqb_eq in E.
    apply bind_ret_no_panic.
    apply rangeSlice_no_panic;
      [reflexivity | | apply Nat.eq_le_incl; symmetry; exact E].
    intros i sub2 vv msg' Hin. apply rangeMap_no_panic.
    intros; eapply IH; eauto.
Qed.

Lemma rewriteMap_no_panic base overwrite parents msg :
  snd (rewriteMap base overwrite parents) <> Panic msg.
Proof. apply rangeMap_no_panic. intros. apply rewriteField_no_panic. Qed.

Lemma wellFormed_Map m :
  wellFormed (Map m) = true ->
  NoDup (keys m) /\ forall k v, In (k, v) m -> wellFormed v = true.
Proof.
  simpl. rewrite andb_true_iff, distinct_NoDup, forallb_forall.
  intros [Hd Hall]. split; auto. intros k v Hin. apply (Hall (k, v) Hin).
Qed.

Lemma wellFormed_MapSlice l :
  wellFormed (MapSlice l) = true ->
  forall m, In m l -> wellFormed (Map m) = true.
Proof.
  simpl. rewrite forallb_forall. intros H m Hin. apply (H m Hin).
Qed.

Lemma rewriteField_idem v : wellFormed v = true ->
  forall parents k old new,
    snd (rewriteField parents k old v) = Ok new ->
    rewriteField parents k new v = ([], Ok new).
Proof.
  induction v as [v Hm Hs | m IH | l IH] using any_induction;
    intros Hwf parents k old new H.
  - rewrite rewriteField_literal in * by auto. simpl in H.
    injection H as <-. reflexivity.
  - apply wellFormed_Map in Hwf. destruct Hwf as [Hnd Hwf].
    rewrite rewriteField_Map in H. destruct old; try discriminate.
    apply bind_ret_Ok_inv in H. destruct H as [sub' [H ->]].
    rewrite rewriteField_Map. unfold rewriteMap in *.
    erewrite rangeMap_idem; [reflexivity | exact Hnd | | exact H].
    intros k' old' v' new' Hin Hv. eapply IH; eauto.
  - pose proof (wellFormed_MapSlice _ Hwf) as Hwf'.
    rewrite rewriteField_MapSlice in H. destruct old; try discriminate.
    destruct (length l0 =? length l)%nat eqn:E; simpl in H; [| discriminate].
    apply bind_ret_Ok_inv in H. destruct H as [sub' [H ->]].
    rewrite rewriteField_MapSlice.
    assert (length sub' = length l0) as ->
      by (eapply rangeSlice_length; [| exact H]; reflexivity).
    rewrite E. simpl.
    erewrite rangeSlice_idem; [reflexivity | reflexivity | | exact H].
    intros i sub2 vv r Hin Hr. unfold rewriteMap in *.
    apply Hwf' in Hin as Hvv. apply wellFormed_Map in Hvv.
    destruct Hvv as [Hnd Hvv].
    eapply rangeMap_idem; [exact Hnd | | exact Hr].
    intros k' old' v' new' Hin' Hv. eapply IH; eauto.
Qed.

Lemma failed_stop_bind {A B} (m : W A) (f : A -> W B) :
  (snd m = FailNow -> failed m = true) ->
  (forall a, snd (f a) = FailNow -> failed (f a) = true) ->
  snd (bind m f) = FailNow -> failed (bind m f) = true.
Proof.
  unfold failed. destruct m as [ev [a | | msg]]; simpl; auto.
  - intros _ Hf. specialize (Hf a). destruct (f a) as [ev' r]. simpl in *.
    intros ->. rewrite existsb_app, Hf; auto. apply orb_true_r.
  - discriminate.
Qed.

(** [FailNow] is only reached through [Fatalf], which marks the test. *)
Lemma rangeMap_stop_failed visit ow :
  (forall k old v, In (k, v) ow ->
     snd (visit k old v) = FailNow -> failed (visit k old v) = true) ->
  forall base,
    snd (rangeMap visit ow base) = FailNow ->
    failed (rangeMap visit ow base) = true.
Proof.
  induction ow as [| [k v] rest IH]; simpl; intros Hv base.
  - discriminate.
  - destruct (lookup k base) as [old |].
    + apply failed_stop_bind; [apply Hv; auto |].
      intros a. apply IH. intros; apply Hv; auto.
    + apply IH. intros; apply Hv; auto.
Qed.

Lemma rangeSlice_stop_failed visit notMap v :
  (forall i, failed (notMap i) = true) ->
  (forall i sub2 vv, In vv v ->
     snd (visit i sub2 vv) = FailNow -> failed (visit i sub2 vv) = true) ->
  forall i sub,
    snd (rangeSlice visit notMap i v sub) = FailNow ->
    failed (rangeSlice visit notMap i v sub) = true.
Proof.
  intros Hn. induction v as [| vv v IH]; simpl; intros Hv i sub.
  - discriminate.
  - destruct (nth_error sub i) as [[] |]; auto; try discriminate.
    apply failed_stop_bind; [apply Hv; auto |].
    intros a. apply IH. intros; apply Hv; auto.
Qed.

Lemma rewriteField_stop_failed v : forall parents k old,
  snd (rewriteField parents k old v) = FailNow ->
  failed (rewriteField parents k old v) = true.
Proof.
  induction v as [v Hm Hs | m IH | l IH] using any_induction;
    intros parents k old.
  - rewrite rewriteField_literal by auto. discriminate.
  - rewrite rewriteField_Map. destruct old; try reflexivity.
    apply failed_stop_bind; [| discriminate].
    apply rangeMap_stop_failed. intros; eapply IH; eauto.
  - rewrite rewriteField_MapSlice. destruct old; try reflexivity.
    destruct (negb (length l0 =? length l)%nat); [reflexivity |].
    apply failed_stop_bind; [| discriminate].
    apply rangeSlice_stop_failed; [reflexivity |].
    intros i sub2 vv Hin. apply rangeMap_stop_failed.
    intros; eapply IH; eauto.
Qed.

Lemma rewriteMap_stop_failed base overwrite parents :
  snd (rewriteMap base overwrite parents) = FailNow ->
  failed (rewriteMap base overwrite parents) = true.
Proof.
  apply rangeMap_stop_failed. intros. apply rewriteField_stop_failed; auto.
Qed.

(** ** Claims about the field rewriter *)

(** C2.  When a key [k] of the overwrite [O] that the target [T] holds
    carries a nested mapping while [T[k]] is not an object, or carries a
    sequence of mappings while [T[k]] is not an array or is an array of
    another length, [rewriteMap] stops the test with [Fatalf]: the test is
    marked failed and no rewritten object is returned, so the field is
    neither truncated, padded nor skipped.  (The keys of [O] are distinct,
    as those of every Go map.) *)
Theorem rewriteMap_mismatch_is_fatal
    (T O : gomap) (parents : list string) (k : string) (v old : any) :
  NoDupKeys O ->
  In (k, v) O ->
  lookup k T = Some old ->
  ((exists vm, v = Map vm) /\ (forall sub, old <> Map sub)) \/
  (exists vl, v = MapSlice vl /\
     forall sub, old = Slice sub -> length sub <> length vl) ->
  snd (rewriteMap T O parents) = FailNow /\
  failed (rewriteMap T O parents) = true.
Proof.
  intros Hnd Hin Hold Hmis.
  assert (snd (rewriteMap T O parents) = FailNow) as Hstop.
  { revert T Hold. induction O as [| [k' v'] rest IH]; intros T Hold.
    - destruct Hin.
    - inversion Hnd as [| ? ? Hk' Hnd']; subst. rewrite rewriteMap_cons.
      destruct Hin as [E | Hin].
      + injection E as -> ->. rewrite Hold. apply bind_FailNow.
        destruct Hmis as [[[vm ->] Hno] | [vl [-> Hno]]].
        * rewrite rewriteField_Map.
          destruct old; try reflexivity. exfalso. eapply Hno; eauto.
        * rewrite rewriteField_MapSlice. destruct old; try reflexivity.
          destruct (Nat.eqb_spec (length l) (length vl)) as [E | E];
            [| reflexivity].
          exfalso. eapply Hno; eauto.
      + assert (k <> k') as Hne.
        { intros ->. apply Hk'. apply (in_map fst) in Hin. exact Hin. }
        destruct (lookup k' T) as [old' |] eqn:E'; [| apply IH; auto].
        pose proof (rewriteField_no_panic v' parents k' old') as Hnp.
        destruct (rewriteField parents k' old' v') as [ev [new | | msg]] eqn:Ef.
        * rewrite (bind_Ok_snd _ _ new) by reflexivity.
          apply IH; auto. rewrite lookup_store_neq; auto.
        * reflexivity.
        * exfalso. apply (Hnp msg). reflexivity. }
  split; [exact Hstop | apply rewriteMap_stop_failed; exact Hstop].
Qed.

Lemma rewriteMap_mismatch_is_fatal_witness :
  let T := [("id", Float64 0); ("items", Slice [Map [("at", Float64 0)]; Map []])] in
  let O := [("id", Int 7); ("items", MapSlice [[("at", Int 1)]])] in
  snd (rewriteMap T O []) = FailNow /\ failed (rewriteMap T O []) = true.
Proof.
  intros T O.
  apply (rewriteMap_mismatch_is_fatal T O [] "items"
           (MapSlice [[("at", Int 1)]])
           (Slice [Map [("at", Float64 0)]; Map []])).
  - apply distinct_NoDup. reflexivity.
  - simpl. auto.
  - reflexivity.
  - right. eexists. split; [reflexivity |].
    intros sub E. injection E as <-. simpl. lia.
Defined.

(** C3.  Idempotence: when [rewriteMap] succeeds on [T] with overwrite [O]
    and leaves [T'], running it again on [T'] with [O] succeeds, logs
    nothing and leaves [T'] as it is; nested mappings and sequences of
    mappings included.  ([O] holds each key once at every level, as Go maps
    do.) *)
Theorem rewriteMap_idempotent
    (T O T' : gomap) (parents : list string) :
  wellFormed (Map O) = true ->
  snd (rewriteMap T O parents) = Ok T' ->
  rewriteMap T' O parents = ([], Ok T').
Proof.
  intros Hwf H. apply wellFormed_Map in Hwf. destruct Hwf as [Hnd Hwf].
  unfold rewriteMap in *.
  eapply rangeMap_idem; [exact Hnd | | exact H].
  intros k old v new Hin Hv. eapply rewriteField_idem; eauto.
Qed.

Lemma rewriteMap_idempotent_witness :
  let T := [("id", Float64 1);
            ("user", Map [("name", Str "JoJo"); ("at", Float64 5)]);
            ("items", Slice [Map [("at", Float64 6)]; Map [("n", Nil)]])] in
  let O := [("items", MapSlice [[("at", Int 0)]; [("at", Int 0)]]);
            ("user", Map [("at", Int 0)]);
            ("id", Int 7)] in
  let T' := [("id", Int 7);
             ("user", Map [("name", Str "JoJo"); ("at", Int 0)]);
             ("items", Slice [Map [("at", Int 0)]; Map [("n", Nil)]])] in
  snd (rewriteMap T O []) = Ok T' /\ rewriteMap T' O [] = ([], Ok T').
Proof.
  intros T O T'.
  assert (snd (rewriteMap T O []) = Ok T') as H by reflexivity.
  split; [exact H |].
  apply (rewriteMap_idempotent T O T' []); [reflexivity | exact H].
Defined.

(** C4.  Keys of the overwrite that the target does not hold are skipped:
    [rewriteMap] does what it does with those entries removed, and when the
    target holds no key of the overwrite it returns the target unchanged,
    with no log entry and no failure. *)
Theorem rewriteMap_ignores_absent_keys
    (T O : gomap) (parents : list string) :
  rewriteMap T O parents
  = rewriteMap T (filter (fun '(k, _) => hasKey T k) O) parents /\
  ((forall k, In k (keys O) -> lookup k T = None) ->
   rewriteMap T O parents = ([], Ok T)).
Proof.
  split.
  - apply rangeMap_filter. reflexivity.
  - intros H. apply rangeMap_absent. exact H.
Qed.

Lemma rewriteMap_ignores_absent_keys_witness :
  let T := [("id", Float64 1); ("name", Str "JoJo")] in
  let O := [("created_time", Int 1677136520);
            ("owner", Map [("id", Int 0)]);
            ("tags", MapSlice [[("id", Int 0)]])] in
  rewriteMap T O [] = ([], Ok T).
Proof.
  intros T O.
  apply (proj2 (rewriteMap_ignores_absent_keys T O [])).
  intros k Hk. simpl in Hk.
  destruct Hk as [<- | [<- | [<- | []]]]; reflexivity.
Defined.

(** C10.  An overwrite value that is a sequence other than a
    [[]map[string]any] (here a [[]any], a [[]string] or a [[]int]) is a
    literal: whatever [T[k]] was (an array of another length too), the
    entry replaces it, with no recursion, no length check and no failure,
    and a successful rewrite leaves the literal at [k]. *)
Theorem rewriteMap_plain_sequence_is_literal
    (base rest : gomap) (parents : list string) (k : string) (v old : any) :
  (exists l, v = Slice l) \/ (exists l, v = StrSlice l) \/
  (exists l, v = IntSlice l) ->
  lookup k base = Some old ->
  rewriteField parents k old v = ([], Ok v) /\
  rewriteMap base ((k, v) :: rest) parents
  = rewriteMap (store k v base) rest parents /\
  (forall base', NoDupKeys ((k, v) :: rest) ->
     snd (rewriteMap base ((k, v) :: rest) parents) = Ok base' ->
     lookup k base' = Some v).
Proof.
  intros Hv Hold.
  assert (rewriteField parents k old v = ret v) as Hf.
  { destruct Hv as [[l ->] | [[l ->] | [l ->]]]; reflexivity. }
  assert (rewriteMap base ((k, v) :: rest) parents
          = rewriteMap (store k v base) rest parents) as Hstep.
  { rewrite rewriteMap_cons, Hold, Hf.
    exact (bind_ret_l v (fun new => rewriteMap (store k new base) rest parents)). }
  repeat split; auto.
  intros base' Hnd H. rewrite Hstep in H.
  inversion Hnd as [| ? ? Hk _]; subst.
  unfold rewriteMap in H. rewrite (rangeMap_frame _ _ _ _ k H Hk).
  eapply lookup_store_eq; eauto.
Qed.

Lemma rewriteMap_plain_sequence_is_literal_witness :
  let base := [("tags", Slice [Str "a"; Str "b"; Str "c"]); ("id", Float64 0)] in
  rewriteMap base [("tags", StrSlice ["x"]); ("id", Int 1)] []
  = ([], Ok [("tags", StrSlice ["x"]); ("id", Int 1)]).
Proof.
  intros base.
  rewrite (proj1 (proj2 (rewriteMap_plain_sequence_is_literal
                           base [("id", Int 1)] [] "tags" (StrSlice ["x"])
                           (Slice [Str "a"; Str "b"; Str "c"])
                           (or_intror (or_introl (ex_intro _ ["x"] eq_refl)))
                           eq_refl))).
  reflexivity.
Defined.

(** ** Text: byte strings, UTF-8 and quoting *)

(** ** Byte strings *)

Lemma sapp_assoc (a b c : string) : ((a ++ b) ++ c = a ++ (b ++ c))%string.
Proof. induction a as [| x a IH]; simpl; congruence. Qed.

Lemma sapp_nil_r (a : string) : (a ++ "")%string = a.
Proof. induction a as [| x a IH]; simpl; congruence. Qed.

Lemma slength_app (a b : string) :
  String.length (a ++ b) = (String.length a + String.length b)%nat.
Proof. induction a as [| x a IH]; simpl; congruence. Qed.

Lemma drop_app (a b : string) : drop (String.length a) (a ++ b) = b.
Proof. induction a as [| x a IH]; simpl; auto. Qed.

Lemma take_app (a b : string) : take (String.length a) (a ++ b) = a.
Proof. induction a as [| x a IH]; simpl; congruence. Qed.

Lemma code_chr (n : N) : (n < 256)%N -> code (chr n) = n.
Proof. apply N_ascii_embedding. Qed.

Lemma chr_code (c : ascii) : chr (code c) = c.
Proof. apply ascii_N_embedding. Qed.

Lemma code_bounded (c : ascii) : (code c < 256)%N.
Proof. apply N_ascii_bounded. Qed.

(** ** UTF-8 *)

#[local] Ltac Zify.zify_post_hook ::= Z.to_euclidean_division_equations.

Lemma isScalar_spec r :
  isScalar r = true <-> (r < 0xD800 \/ 0xE000 <= r <= 0x10FFFF)%N.
Proof.
  unfold isScalar, isSurrogate.
  rewrite andb_true_iff, negb_true_iff, andb_false_iff, N.leb_le,
    N.leb_gt, N.ltb_ge. lia.
Qed.

Ltac code_chr_all :=
  repeat match goal with
         | |- context [code (chr ?x)] => rewrite (code_chr x) by lia
         end.

Ltac decide_N :=
  repeat match goal with
         | |- context [(?a <? ?b)%N] =>
             first [ replace (a <? b)%N with true by (symmetry; apply N.ltb_lt; lia)
                   | replace (a <? b)%N with false by (symmetry; apply N.ltb_ge; lia) ]
         | |- context [(?a =? ?b)%N] =>
             first [ replace (a =? b)%N with true by (symmetry; apply N.eqb_eq; lia)
                   | replace (a =? b)%N with false by (symmetry; apply N.eqb_neq; lia) ]
         | |- context [(?a <=? ?b)%N] =>
             first [ replace (a <=? b)%N with true by (symmetry; apply N.leb_le; lia)
                   | replace (a <=? b)%N with false by (symmetry; apply N.leb_gt; lia) ]
         end.

(** Decoding what [EncodeRune] wrote gives the rune and its width back. *)
Lemma DecodeRune_EncodeRune r p :
  isScalar r = true ->
  DecodeRune (EncodeRune r ++ p) = (r, String.length (EncodeRune r)).
Proof.
  intros Hs. apply isScalar_spec in Hs. unfold EncodeRune.
  destruct (N.ltb_spec r 0x80).
  { simpl. code_chr_all. decide_N. reflexivity. }
  destruct (N.ltb_spec r 0x800).
  { cbn [append DecodeRune String.length]. code_chr_all. decide_N.
    cbn [orb]. decide_N. cbn [orb]. f_equal. lia. }
  replace ((0x10FFFF <? r)%N || isSurrogate r)%bool with false.
  2:{ symmetry. unfold isSurrogate. apply orb_false_iff. split.
      - apply N.ltb_ge. lia.
      - rewrite andb_false_iff, N.leb_gt, N.ltb_ge. lia. }
  destruct (N.ltb_spec r 0x10000).
  { unfold encode3. cbn [append DecodeRune String.length isCont].
    code_chr_all. decide_N. cbn [orb].
    destruct (N.eqb_spec (0xE0 + r / 4096) 0xE0);
      destruct (N.eqb_spec (0xE0 + r / 4096) 0xED);
      unfold isCont; decide_N; cbn [orb andb negb]; f_equal; lia. }
  { cbn [append DecodeRune String.length isCont].
    code_chr_all. decide_N. cbn [orb].
    destruct (N.eqb_spec (0xF0 + r / 262144) 0xF0);
      destruct (N.eqb_spec (0xF0 + r / 262144) 0xF4);
      unfold isCont; decide_N; cbn [orb andb negb]; f_equal; lia. }
Qed.
Lemma unquote_ascii (c : ascii) (F : nat) (X : string) :
  (code c < 0x80)%N ->
  unquote (S F)
    ((if htmlSafe (code c) then String c "" else escapeByte c) ++ X)
  = prepend (String c "") (unquote F X).
Proof.
  destruct c as [[] [] [] [] [] [] [] []]; intros H;
    try (exfalso; vm_compute in H; discriminate H); reflexivity.
Qed.
Lemma isScalar_not_surrogate r : isScalar r = true -> isSurrogate r = false.
Proof.
  unfold isScalar. rewrite andb_true_iff, negb_true_iff. tauto.
Qed.

Lemma EncodeRune_scalar x :
  exists r, isScalar r = true /\ EncodeRune x = EncodeRune r.
Proof.
  destruct (isScalar x) eqn:E; [eauto |].
  exists RuneError. split; [reflexivity |].
  unfold isScalar in E. unfold EncodeRune.
  apply andb_false_iff in E. rewrite negb_false_iff, N.leb_gt in E.
  assert (0x800 <= x)%N as Hx.
  { destruct E as [E | E]; [lia |]. unfold isSurrogate in E.
    apply andb_true_iff in E. rewrite N.leb_le in E. lia. }
  decide_N.
  replace ((0x10FFFF <? x)%N || isSurrogate x)%bool with true; [reflexivity |].
  symmetry. apply orb_true_iff. destruct E as [E | E]; [left | right; auto].
  apply N.ltb_lt. lia.
Qed.

Lemma ascii_EncodeRune c :
  (code c < 0x80)%N -> String c "" = EncodeRune (code c).
Proof.
  intros H. unfold EncodeRune. decide_N. rewrite chr_code. reflexivity.
Qed.

Lemma ascii_isScalar c : (code c < 0x80)%N -> isScalar (code c) = true.
Proof. intros H. apply isScalar_spec. lia. Qed.

Lemma ValidUTF8_EncodeRune x s : ValidUTF8 s -> ValidUTF8 (EncodeRune x ++ s).
Proof.
  intros H. destruct (EncodeRune_scalar x) as [r [Hr ->]].
  constructor; auto.
Qed.

Lemma ValidUTF8_ascii c s :
  (code c < 0x80)%N -> ValidUTF8 s -> ValidUTF8 (String c s).
Proof.
  intros Hc H. change (String c s) with (String c "" ++ s)%string.
  rewrite (ascii_EncodeRune c Hc). apply ValidUTF8_EncodeRune. exact H.
Qed.

(** The first byte of a rune beyond ASCII is beyond ASCII. *)
Lemma EncodeRune_head r :
  isScalar r = true -> (0x80 <= r)%N ->
  exists c t, EncodeRune r = String c t /\ (0x80 <= code c)%N /\
              t <> ""%string.
Proof.
  intros Hs Hr. pose proof (isScalar_not_surrogate r Hs) as Hsur.
  apply isScalar_spec in Hs. unfold EncodeRune. rewrite Hsur. decide_N.
  cbn [orb].
  destruct (N.ltb_spec r 0x800).
  { eexists _, _. split; [reflexivity |]. code_chr_all. split; [lia | discriminate]. }
  destruct (N.ltb_spec r 0x10000).
  { eexists _, _. split; [reflexivity |]. code_chr_all. split; [lia | discriminate]. }
  { eexists _, _. split; [reflexivity |]. code_chr_all. split; [lia | discriminate]. }
Qed.

Lemma EncodeRune_length r : (1 <= String.length (EncodeRune r))%nat.
Proof.
  unfold EncodeRune, encode3.
  repeat match goal with |- context [if ?b then _ else _] => destruct b end;
    simpl; lia.
Qed.

Lemma escapeString_rune r s n :
  isScalar r = true ->
  escapeString (S n) (EncodeRune r ++ s) = (quoteRune r ++ escapeString n s)%string.
Proof.
  intros Hs. unfold quoteRune. destruct (N.ltb_spec r 0x80) as [Hr | Hr].
  - unfold EncodeRune. decide_N. cbn [append escapeString].
    rewrite code_chr by lia. decide_N.
    destruct (htmlSafe r); reflexivity.
  - pose proof (DecodeRune_EncodeRune r s Hs) as Hd.
    destruct (EncodeRune_head r Hs Hr) as (c & t & E & Hc & Ht).
    rewrite E in *. cbn [append escapeString]. decide_N.
    cbn [append] in Hd. rewrite Hd.
    replace ((r =? RuneError)%N && (String.length (String c t) =? 1)%nat)%bool
      with false.
    2:{ symmetry. apply andb_false_iff. right. destruct t; [congruence |].
        reflexivity. }
    destruct ((r =? 0x2028) || (r =? 0x2029))%N.
    + change (String c (t ++ s)) with (String c t ++ s)%string.
      rewrite drop_app. reflexivity.
    + change (String c (t ++ s)) with (String c t ++ s)%string.
      rewrite take_app, drop_app. reflexivity.
Qed.

Lemma unquote_rune r F X :
  isScalar r = true ->
  unquote (S F) (quoteRune r ++ X)
  = prepend (EncodeRune r) (unquote F X).
Proof.
  intros Hs. unfold quoteRune. destruct (N.ltb_spec r 0x80) as [Hr | Hr].
  - pose proof (unquote_ascii (chr r) F X) as H.
    rewrite code_chr in H by lia. rewrite H by lia.
    unfold EncodeRune. decide_N. reflexivity.
  - destruct (N.eqb_spec r 0x2028) as [-> | H1]; [reflexivity |].
    destruct (N.eqb_spec r 0x2029) as [-> | H2]; [reflexivity |].
    cbn [orb].
    pose proof (DecodeRune_EncodeRune r X Hs) as Hd.
    destruct (EncodeRune_head r Hs Hr) as (c & t & E & Hc & Ht).
    rewrite E in *. cbn [append unquote].
    assert (code c <> 34 /\ code c <> 92)%N as [Hq Hb] by lia.
    replace (Ascii.eqb c DQ) with false
      by (symmetry; apply Ascii.eqb_neq; intros ->; apply Hq; reflexivity).
    replace (Ascii.eqb c BS) with false
      by (symmetry; apply Ascii.eqb_neq; intros ->; apply Hb; reflexivity).
    decide_N. cbn [append] in Hd. rewrite Hd.
    change (String c (t ++ X)) with (String c t ++ X)%string.
    rewrite drop_app, E. reflexivity.
Qed.

(** Reading back a quoted string gives the string. *)
Lemma unquote_escapeString s :
  ValidUTF8 s ->
  forall n F rest,
    (String.length s <= n)%nat -> (String.length s < F)%nat ->
    unquote F (escapeString n s ++ String DQ rest) = Some (s, rest).
Proof.
  induction 1 as [| r s Hr Hs IH]; intros n F rest Hn HF.
  - destruct F; [lia |]. destruct n; reflexivity.
  - rewrite slength_app in *. pose proof (EncodeRune_length r).
    destruct n as [| n]; [lia |]. destruct F as [| F]; [lia |].
    rewrite escapeString_rune by auto. rewrite sapp_assoc.
    rewrite unquote_rune by auto.
    rewrite IH by lia. reflexivity.
Qed.

Lemma quoteRune_length r :
  isScalar r = true ->
  (String.length (EncodeRune r) <= String.length (quoteRune r))%nat.
Proof.
  intros Hs. unfold quoteRune. destruct (N.ltb_spec r 0x80) as [Hr | Hr].
  - unfold EncodeRune. decide_N. unfold escapeByte.
    repeat match goal with |- context [if ?b then _ else _] => destruct b end;
      simpl; lia.
  - destruct ((r =? 0x2028) || (r =? 0x2029))%N; [| lia].
    apply isScalar_spec in Hs. unfold EncodeRune, encode3.
    repeat match goal with |- context [if ?b then _ else _] => destruct b end;
      simpl; lia.
Qed.

Lemma escapeString_length s :
  ValidUTF8 s ->
  forall n, (String.length s <= n)%nat ->
    (String.length s <= String.length (escapeString n s))%nat.
Proof.
  induction 1 as [| r s Hr Hs IH]; intros n Hn.
  - simpl. lia.
  - rewrite slength_app in *. pose proof (EncodeRune_length r).
    destruct n as [| n]; [lia |].
    rewrite escapeString_rune by auto. rewrite slength_app.
    pose proof (quoteRune_length r Hr). specialize (IH n). lia.
Qed.

(** [appendString], read back. *)
Lemma unquote_appendString s rest :
  ValidUTF8 s ->
  exists body,
    appendString s ++ rest = String DQ body /\
    unquote (String.length body) body = Some (s, rest).
Proof.
  intros Hs. unfold appendString. eexists. split; [reflexivity |].
  rewrite sapp_assoc. apply unquote_escapeString; auto.
  rewrite slength_app. simpl.
  pose proof (escapeString_length s Hs (String.length s) (le_n _)). lia.
Qed.

(** What [unquote] returns is well-formed UTF-8. *)
Lemma unquote_valid F : forall s d rest,
  unquote F s = Some (d, rest) -> ValidUTF8 d.
Proof.
  assert (forall pre r d rest,
            (forall d', r = Some (d', rest) -> ValidUTF8 d') ->
            (forall t, ValidUTF8 t -> ValidUTF8 (pre ++ t)) ->
            prepend pre r = Some (d, rest) -> ValidUTF8 d) as Hpre.
  { intros pre [[d' rest'] |] d rest Hr Hp; simpl; [| discriminate].
    intros [= <- <-]. apply Hp. apply Hr. reflexivity. }
  induction F as [| F IH]; intros s d rest; simpl; [discriminate |].
  destruct s as [| c s1]; [discriminate |].
  destruct (Ascii.eqb c DQ); [intros [= <- _]; constructor |].
  destruct (Ascii.eqb c BS).
  - destruct s1 as [| e s2]; [discriminate |].
    destruct (Ascii.eqb e "u").
    + destruct (hex4 s2) as [[rr s3] |]; [| discriminate].
      destruct (isSurrogate rr).
      * match goal with
        | |- context [match ?x with Some _ => _ | None => _ end] =>
            destruct x as [[rr1 s5] |]
        end.
        -- destruct (_ =? _)%N;
             (apply Hpre; [intros; eapply IH; eauto |]);
             intros; apply ValidUTF8_EncodeRune; auto.
        -- apply Hpre; [intros; eapply IH; eauto |].
           intros; apply ValidUTF8_EncodeRune; auto.
      * apply Hpre; [intros; eapply IH; eauto |].
        intros; apply ValidUTF8_EncodeRune; auto.
    + destruct (unescape e) as [ch |] eqn:Eu; [| discriminate].
      apply Hpre; [intros; eapply IH; eauto |].
      intros t Ht. apply ValidUTF8_ascii; auto.
      unfold unescape in Eu.
      repeat match type of Eu with
             | (if ?b then _ else _) = _ => destruct b eqn:?
             end; try discriminate; injection Eu as <-;
        try (vm_compute; reflexivity).
      rewrite !orb_true_iff, !N.eqb_eq in Heqb. lia.
  - destruct (code c <? 0x20)%N; [discriminate |].
    destruct (N.ltb_spec (code c) 0x80).
    + apply Hpre; [intros; eapply IH; eauto |].
      intros t Ht. apply ValidUTF8_ascii; auto.
    + destruct (DecodeRune (String c s1)) as [rr size].
      apply Hpre; [intros; eapply IH; eauto |].
      intros; apply ValidUTF8_EncodeRune; auto.
Qed.



(** ** Numbers *)

Lemma delimited_head rest :
  delimited rest = true ->
  match rest with
  | EmptyString => True
  | String c _ =>
      isDigit c = false /\ Ascii.eqb c "." = false /\ isExpChar c = false
  end.
Proof.
  destruct rest as [| c rest]; [auto |]. unfold delimited.
  destruct c as [[] [] [] [] [] [] [] []]; intros H;
    try discriminate H; repeat split.
Qed.

Lemma spanDigits_app ds rest :
  allDigits ds = true ->
  match rest with EmptyString => True | String c _ => isDigit c = false end ->
  spanDigits (ds ++ rest) = (ds, rest).
Proof.
  induction ds as [| c ds IH]; simpl; intros Hd Hr.
  - destruct rest as [| c rest]; [reflexivity |]. simpl. rewrite Hr.
    reflexivity.
  - apply andb_true_iff in Hd. destruct Hd as [Hc Hd]. rewrite Hc.
    rewrite IH by auto. reflexivity.
Qed.

Lemma allDigits_app a b :
  allDigits (a ++ b) = (allDigits a && allDigits b)%bool.
Proof.
  induction a as [| c a IH]; simpl; auto. rewrite IH. apply andb_assoc.
Qed.

Lemma allDigits_zeros n : allDigits (zeros n) = true.
Proof. induction n; simpl; auto. Qed.

Lemma allDigits_take n s : allDigits s = true -> allDigits (take n s) = true.
Proof.
  revert s. induction n as [| n IH]; intros [| c s]; simpl; auto.
  rewrite !andb_true_iff. intros [Hc Hs]. auto.
Qed.

Lemma allDigits_drop n s : allDigits s = true -> allDigits (drop n s) = true.
Proof.
  revert s. induction n as [| n IH]; intros [| c s]; simpl; auto.
  rewrite !andb_true_iff. intros [Hc Hs]. auto.
Qed.

Lemma take_drop n s : (take n s ++ drop n s)%string = s.
Proof.
  revert s. induction n as [| n IH]; intros [| c s]; simpl; auto.
  rewrite IH. reflexivity.
Qed.

Lemma isDigit_digit_char d : (d < 10)%N -> isDigit (digit_char d) = true.
Proof.
  intros H. unfold isDigit, digit_char. fold (chr (48 + d)).
  rewrite code_chr by lia. apply andb_true_iff.
  rewrite !N.leb_le. lia.
Qed.

Lemma digit_char_zero d :
  (d < 10)%N -> digit_char d = "0"%char -> d = 0%N.
Proof.
  intros H E. assert (code (digit_char d) = code "0"%char) as E' by congruence.
  unfold digit_char in E'. fold (chr (48 + d)) in E'.
  rewrite code_chr in E' by lia. change (code "0") with 48%N in E'. lia.
Qed.

Lemma allDigits_utoa_aux f : forall n acc,
  allDigits acc = true -> allDigits (utoa_aux f n acc) = true.
Proof.
  induction f as [| f IH]; intros n acc Ha; simpl; auto.
  assert (allDigits (String (digit_char (n mod 10)) acc) = true) as H.
  { simpl. rewrite Ha, isDigit_digit_char; auto.
    apply N.mod_lt. discriminate. }
  destruct (n <? 10)%N; auto.
Qed.

Lemma allDigits_utoa n : allDigits (utoa n) = true.
Proof. apply allDigits_utoa_aux. reflexivity. Qed.

(** The digits of a positive number begin with a digit other than 0. *)
Lemma utoa_aux_head f : forall n acc,
  (0 < n < 2 ^ N.of_nat f)%N ->
  exists c t, utoa_aux f n acc = String c t /\ c <> "0"%char.
Proof.
  induction f as [| f IH]; intros n acc Hn.
  - simpl in Hn. lia.
  - cbn [utoa_aux]. destruct (N.ltb_spec n 10) as [Hlt | Hge].
    + eexists _, _. split; [reflexivity |]. intros E.
      apply digit_char_zero in E; [| apply N.mod_lt; discriminate].
      rewrite N.mod_small in E by lia. lia.
    + apply IH. rewrite Nat2N.inj_succ, N.pow_succ_r' in Hn. lia.
Qed.

Lemma utoa_head n :
  (0 < n)%N -> exists c t, utoa n = String c t /\ c <> "0"%char.
Proof.
  intros H. apply utoa_aux_head. split; [lia |].
  rewrite Nat2N.inj_succ, N2Nat.id.
  destruct (N.log2_spec n H) as [_ Hlt]. exact Hlt.
Qed.

Lemma utoa_aux_nonempty f : forall n acc,
  acc <> ""%string -> utoa_aux f n acc <> ""%string.
Proof.
  induction f as [| f IH]; intros n acc Ha; simpl; auto.
  destruct (n <? 10)%N; [discriminate |]. apply IH. discriminate.
Qed.

Lemma utoa_nonempty n : utoa n <> ""%string.
Proof.
  unfold utoa. cbn [utoa_aux]. destruct (n <? 10)%N; [discriminate |].
  apply utoa_aux_nonempty. discriminate.
Qed.

Lemma utoa_small n : (n < 10)%N -> utoa n = String (digit_char n) "".
Proof.
  intros H. unfold utoa. cbn [utoa_aux].
  replace (n <? 10)%N with true by (symmetry; apply N.ltb_lt; lia).
  rewrite N.mod_small by lia. reflexivity.
Qed.

Lemma trimZeros_pos f : forall d s d' s',
  (0 < d)%Z -> trimZeros f d s = (d', s') -> (0 < d')%Z.
Proof.
  induction f as [| f IH]; simpl; intros d s d' s' Hd.
  - intros [= <- _]. exact Hd.
  - destruct (Z.eqb_spec (d mod 10) 0) as [E | E].
    + apply IH. lia.
    + intros [= <- _]. exact Hd.
Qed.


Lemma isDigit_not c :
  isDigit c = true ->
  Ascii.eqb c "-" = false /\ Ascii.eqb c "+" = false /\
  Ascii.eqb c "." = false /\ isExpChar c = false.
Proof.
  destruct c as [[] [] [] [] [] [] [] []]; intros H; try discriminate H;
    repeat split.
Qed.

Lemma scanInt_digits int tail :
  allDigits int = true ->
  (exists c t, int = String c t /\ (t = ""%string \/ c <> "0"%char)) ->
  headIs (fun x => negb (isDigit x)) tail ->
  scanInt (int ++ tail) = Some (int, tail).
Proof.
  intros Hd (c & t & -> & Hc) Ht. unfold scanInt.
  rewrite spanDigits_app; auto.
  - destruct t; [reflexivity |]. destruct Hc as [Hc | Hc]; [discriminate |].
    apply Ascii.eqb_neq in Hc. rewrite Hc. reflexivity.
  - destruct tail; [exact I |]. simpl in Ht. apply negb_true_iff in Ht.
    exact Ht.
Qed.

Lemma scanFraction_digits fd tail :
  allDigits fd = true -> fd <> ""%string ->
  headIs (fun x => negb (isDigit x)) tail ->
  scanFraction (String "." fd ++ tail) = Some (String "." fd, tail).
Proof.
  intros Hd Hne Ht. unfold scanFraction. cbn [append].
  rewrite Ascii.eqb_refl. rewrite spanDigits_app; auto.
  - destruct fd; [congruence | reflexivity].
  - destruct tail; [exact I |]. simpl in Ht. apply negb_true_iff in Ht.
    exact Ht.
Qed.

Lemma scanFraction_none tail :
  headIs (fun x => negb (Ascii.eqb x ".")) tail ->
  scanFraction tail = Some (""%string, tail).
Proof.
  intros Ht. unfold scanFraction. destruct tail as [| x tail]; [reflexivity |].
  simpl in Ht. apply negb_true_iff in Ht. rewrite Ht. reflexivity.
Qed.

Lemma scanExponent_digits e esign ed tail :
  isExpChar e = true ->
  (esign = ""%string \/ esign = "+"%string \/ esign = "-"%string) ->
  allDigits ed = true -> ed <> ""%string ->
  headIs (fun x => negb (isDigit x)) tail ->
  scanExponent (String e (esign ++ ed) ++ tail)
  = Some (String e (esign ++ ed), tail).
Proof.
  intros He Hs Hd Hne Ht. unfold scanExponent. cbn [append]. rewrite He.
  assert (exists x y, ed = String x y /\ isDigit x = true) as (x & y & -> & Hx).
  { destruct ed as [| x y]; [congruence |]. simpl in Hd.
    apply andb_true_iff in Hd. destruct Hd. eauto. }
  destruct (isDigit_not x Hx) as (Hx1 & Hx2 & _).
  assert (match tail with "" => True | String c _ => isDigit c = false end)
    as Ht' by (destruct tail; [exact I |]; simpl in Ht;
               apply negb_true_iff in Ht; exact Ht).
  destruct Hs as [-> | [-> | ->]]; cbn [append].
  - rewrite Hx1, Hx2. cbn [orb].
    change (String x (y ++ tail)) with (String x y ++ tail)%string.
    rewrite (spanDigits_app _ _ Hd Ht'). reflexivity.
  - cbn [Ascii.eqb Bool.eqb orb andb].
    change (String x (y ++ tail)) with (String x y ++ tail)%string.
    rewrite (spanDigits_app _ _ Hd Ht'). reflexivity.
  - cbn [Ascii.eqb Bool.eqb orb andb].
    change (String x (y ++ tail)) with (String x y ++ tail)%string.
    rewrite (spanDigits_app _ _ Hd Ht'). reflexivity.
Qed.

Lemma scanExponent_none tail :
  headIs (fun x => negb (isExpChar x)) tail ->
  scanExponent tail = Some (""%string, tail).
Proof.
  intros Ht. unfold scanExponent. destruct tail as [| x tail]; [reflexivity |].
  simpl in Ht. apply negb_true_iff in Ht. rewrite Ht. reflexivity.
Qed.

Lemma scanSign_digit (neg : bool) s :
  headIs isDigit s ->
  scanSign ((if neg then "-" else "") ++ s)
  = ((if neg then "-" else "")%string, s).
Proof.
  intros Hs. destruct neg; [reflexivity |]. cbn [append]. unfold scanSign.
  destruct s as [| c s]; [reflexivity |]. simpl in Hs.
  destruct (isDigit_not c Hs) as (-> & _). reflexivity.
Qed.

Lemma delimited_heads rest :
  delimited rest = true ->
  headIs (fun x => negb (isDigit x)) rest /\
  headIs (fun x => negb (Ascii.eqb x ".")) rest /\
  headIs (fun x => negb (isExpChar x)) rest.
Proof.
  destruct rest as [| c rest]; [simpl; auto |]. unfold delimited, headIs.
  destruct c as [[] [] [] [] [] [] [] []]; intros H;
    try discriminate H; repeat split.
Qed.


Lemma scanNumber_literal neg int frac expo rest :
  isInt int -> isFrac frac -> isExpo expo -> delimited rest = true ->
  scanNumber (literal neg int frac expo ++ rest)
  = Some (literal neg int frac expo, rest).
Proof.
  intros [Hint Hhead] Hfrac Hexpo Hrest.
  destruct (delimited_heads rest Hrest) as (Hr1 & Hr2 & Hr3).
  unfold literal, scanNumber. rewrite !sapp_assoc.
  rewrite scanSign_digit.
  2:{ destruct Hhead as (c & t & -> & _). simpl in *.
      apply andb_true_iff in Hint. tauto. }
  assert (headIs (fun x => negb (isDigit x)) (expo ++ rest) /\
          headIs (fun x => negb (Ascii.eqb x ".")) (expo ++ rest)) as [He1 He2].
  { destruct Hexpo as [-> | (e & esign & ed & -> & He & _)]; [auto |].
    simpl. destruct e as [[] [] [] [] [] [] [] []]; try discriminate He;
      split; reflexivity. }
  assert (headIs (fun x => negb (isDigit x)) (frac ++ expo ++ rest)) as Hf1.
  { destruct Hfrac as [-> | (fd & -> & _)]; [exact He1 | reflexivity]. }
  rewrite (scanInt_digits int _ Hint Hhead Hf1).
  assert (scanFraction (frac ++ expo ++ rest) = Some (frac, (expo ++ rest)%string))
    as ->.
  { destruct Hfrac as [-> | (fd & -> & Hd & Hne)].
    - apply scanFraction_none. exact He2.
    - apply scanFraction_digits; auto. }
  assert (scanExponent (expo ++ rest) = Some (expo, rest)) as ->.
  { destruct Hexpo as [-> | (e & esign & ed & -> & He & Hs & Hd & Hne)].
    - apply scanExponent_none. exact Hr3.
    - apply scanExponent_digits; auto. }
  reflexivity.
Qed.

Lemma drop_nonempty n s : (n < String.length s)%nat -> drop n s <> ""%string.
Proof.
  revert s. induction n as [| n IH]; intros [| c s]; simpl; try lia.
  - discriminate.
  - intros H. apply IH. lia.
Qed.

Lemma cleanExponent_isExpo (neg small : bool) (digits : string) :
  allDigits digits = true ->
  (exists c t, digits = String c t /\ (small = true -> t = ""%string) /\
               (small = false -> c <> "0"%char)) ->
  isExpo (cleanExponent
            ("e" ++ (if neg then "-" else "+")
                 ++ (if small then "0" else "") ++ digits)).
Proof.
  intros Hd (c & t & -> & Hsmall & Hbig). right.
  destruct small.
  - rewrite (Hsmall eq_refl) in *. destruct neg; cbn.
    + exists "e"%char, "-"%string, (String c ""). repeat split; auto.
      discriminate.
    + exists "e"%char, "+"%string, (String "0" (String c "")).
      repeat split; auto. discriminate.
  - specialize (Hbig eq_refl).
    assert (cleanExponent ("e" ++ (if neg then "-" else "+") ++ "" ++ String c t)
            = ("e" ++ (if neg then "-" else "+") ++ String c t)%string) as ->.
    { destruct neg; cbn; [| destruct t as [| ? [| ? ?]]; reflexivity].
      destruct t as [| x [| ? ?]]; try reflexivity.
      apply Ascii.eqb_neq in Hbig. rewrite Hbig. reflexivity. }
    exists "e"%char, (if neg then "-" else "+")%string, (String c t).
    repeat split; auto; [destruct neg; auto | discriminate].
Qed.

(** A candidate is written as a JSON number. *)
Lemma render_literal bits d s :
  (0 < d)%Z ->
  exists int frac expo,
    render bits d s = literal (signOf bits) int frac expo /\
    isInt int /\ isFrac frac /\ isExpo expo.
Proof.
  intros Hd. unfold render.
  destruct (trimZeros 400 d s) as [d' s'] eqn:Et.
  pose proof (trimZeros_pos _ _ _ _ _ Hd Et) as Hd'.
  pose proof (allDigits_utoa (Z.to_N d')) as Hall.
  destruct (utoa_head (Z.to_N d') ltac:(lia)) as (c & t & Eds & Hc).
  rewrite Eds in *. set (dp := (Z.of_nat (String.length (String c t)) + s')%Z).
  assert (isDigit c = true /\ allDigits t = true) as [Hdc Hdt]
    by (simpl in Hall; apply andb_true_iff in Hall; exact Hall).
  destruct (useExponent bits).
  - unfold fmtE.
    set (e := (dp - 1)%Z).
    pose proof (allDigits_utoa (Z.to_N (Z.abs e))) as Hed.
    assert (isExpo (cleanExponent
              ("e" ++ (if (e <? 0)%Z then "-" else "+")
                   ++ (if (Z.abs e <? 10)%Z then "0" else "")
                   ++ utoa (Z.to_N (Z.abs e))))) as Hexpo.
    { apply cleanExponent_isExpo; auto.
      destruct (Z.ltb_spec (Z.abs e) 10) as [Hlt | Hge].
      - rewrite utoa_small by lia. eexists _, _.
        split; [reflexivity |]. split; [reflexivity | discriminate].
      - destruct (utoa_head (Z.to_N (Z.abs e)) ltac:(lia)) as (x & y & -> & Hx).
        eexists _, _. split; [reflexivity |]. split; [discriminate | auto]. }
    destruct t as [| c' t'].
    + exists (String c ""), ""%string. eexists. split; [reflexivity |].
      repeat split; auto; [eexists _, _; eauto | left; reflexivity].
    + exists (String c ""), (String "." (String c' t')). eexists.
      split; [unfold literal; reflexivity |].
      repeat split; auto.
      * simpl. rewrite Hdc. reflexivity.
      * eexists _, _; eauto.
      * right. eexists. split; [reflexivity |]. split; [auto | discriminate].
  - unfold fmtF. fold dp.
    destruct (Z.leb_spec dp 0) as [H0 | H0].
    + exists "0"%string, (String "." (zeros (Z.to_nat (- dp)) ++ String c t)),
        ""%string.
      split; [unfold literal; rewrite sapp_nil_r; reflexivity |].
      repeat split; auto.
      * eexists _, _; eauto.
      * right. eexists. split; [reflexivity |].
        rewrite allDigits_app, allDigits_zeros, Hall.
        split; [reflexivity |]. destruct (zeros _); discriminate.
      * left. reflexivity.
    + destruct (Z.leb_spec (Z.of_nat (String.length (String c t))) dp)
        as [H1 | H1].
      * exists (String c t ++ zeros (Z.to_nat (dp - Z.of_nat (String.length (String c t)))))%string,
          ""%string, ""%string.
        split; [unfold literal; rewrite !sapp_nil_r; reflexivity |].
        repeat split; auto.
        -- rewrite allDigits_app, allDigits_zeros, Hall. reflexivity.
        -- eexists _, _. split; [reflexivity | right; exact Hc].
        -- left. reflexivity.
        -- left. reflexivity.
      * destruct (Z.to_nat dp) as [| k] eqn:Ek; [lia |].
        exists (take (S k) (String c t)), (String "." (drop (S k) (String c t))),
          ""%string.
        split; [unfold literal; rewrite !sapp_nil_r; reflexivity |].
        repeat split; auto.
        -- apply allDigits_take. exact Hall.
        -- eexists _, _. split; [reflexivity | right; exact Hc].
        -- right. eexists. split; [reflexivity |].
           split; [apply allDigits_drop; exact Hall |].
           apply drop_nonempty. lia.
        -- left. reflexivity.
Qed.

Lemma firstRoundTrip_found bits cands text :
  firstRoundTrip bits cands = Some text ->
  exists d s, (0 < d)%Z /\ text = render bits d s /\
              ParseFloat text = Some bits.
Proof.
  induction cands as [| [d s] cands IH]; simpl; [discriminate |].
  destruct (ParseFloat (render bits d s)) as [bits' |] eqn:Ep; auto.
  destruct (Z.ltb_spec 0 d) as [Hd | Hd]; simpl; auto.
  destruct (N.eqb_spec bits' bits) as [-> | Hne]; auto.
  intros [= <-]. eauto.
Qed.

Lemma shortest_found bits num den p fuel : forall n text,
  shortest bits num den p n fuel = Some text ->
  exists d s, (0 < d)%Z /\ text = render bits d s /\
              ParseFloat text = Some bits.
Proof.
  induction fuel as [| fuel IH]; simpl; intros n text; [discriminate |].
  destruct (firstRoundTrip bits (candidates num den p n)) as [t |] eqn:E.
  - intros [= <-]. eapply firstRoundTrip_found; eauto.
  - apply IH.
Qed.

(** The zero of either sign is the only finite float64 without digits. *)
Lemma mantExp_zero bits :
  isFinite bits = true -> fst (mantExp bits) = 0%Z ->
  bits = if signOf bits then (2 ^ 63)%N else 0%N.
Proof.
  unfold isFinite, mantExp, biasedExp, fraction, signOf.
  change (2 ^ 52)%N with 4503599627370496%N.
  change (2 ^ 63)%N with 9223372036854775808%N.
  change (2 ^ 64)%N with 18446744073709551616%N.
  rewrite andb_true_iff, N.ltb_lt. intros [Hlt _].
  change (2 ^ 52)%Z with 4503599627370496%Z.
  destruct (N.eqb_spec ((bits / 4503599627370496) mod 2048) 0) as [E | E];
    cbn [fst]; intros Hf; [| lia].
  destruct (N.leb_spec 9223372036854775808 bits); lia.
Qed.

(** What [formatFloat] writes is a JSON number that [ParseFloat] reads
    back as the same float64. *)
Lemma formatFloat_literal bits text :
  isFinite bits = true ->
  formatFloat bits = Some text ->
  ParseFloat text = Some bits /\
  exists int frac expo,
    text = literal (signOf bits) int frac expo /\
    isInt int /\ isFrac frac /\ isExpo expo.
Proof.
  intros Hfin. unfold formatFloat.
  destruct (mantExp bits) as [m q] eqn:Em.
  destruct (Z.eqb_spec m 0) as [-> | Hm].
  - intros [= <-].
    pose proof (mantExp_zero bits Hfin) as Hz. rewrite Em in Hz.
    specialize (Hz eq_refl). split.
    + destruct (signOf bits); rewrite Hz; reflexivity.
    + exists "0"%string, ""%string, ""%string.
      split; [destruct (signOf bits); reflexivity |].
      repeat split; auto; [eexists _, _; eauto | left | left]; reflexivity.
  - intros H. apply shortest_found in H.
    destruct H as (d & s & Hd & -> & Hp). split; [exact Hp |].
    apply render_literal. exact Hd.
Qed.


(** ** Decoded values *)

Lemma keyLt_trans a b c : keyLt a b -> keyLt b c -> keyLt a c.
Proof.
  unfold keyLt. intros H1 H2.
  apply OrderedTypeEx.String_as_OT.cmp_lt in H1, H2.
  apply OrderedTypeEx.String_as_OT.cmp_lt.
  eapply OrderedTypeEx.String_as_OT.lt_trans; eauto.
Qed.

Lemma keyLt_flip a b : String.compare a b = Gt -> keyLt b a.
Proof.
  unfold keyLt. intros H. rewrite String.compare_antisym, H. reflexivity.
Qed.

Lemma keys_insertKey_Forall (P : string -> Prop) k v m :
  P k -> Forall P (keys m) -> Forall P (keys (insertKey k v m)).
Proof.
  intros Hk. induction m as [| [k' v'] m IH]; simpl; intros H.
  - constructor; auto.
  - inversion H as [| ? ? Hk' Hm]; subst.
    destruct (String.compare k k'); simpl; constructor; auto.
Qed.

Lemma insertKey_sorted k v m :
  StronglySorted keyLt (keys m) ->
  StronglySorted keyLt (keys (insertKey k v m)).
Proof.
  induction m as [| [k' v'] m IH]; simpl; intros H.
  - constructor; constructor.
  - inversion H as [| ? ? Hs Hall]; subst.
    destruct (String.compare k k') eqn:E; simpl.
    + apply String.compare_eq_iff in E. subst k'. constructor; auto.
    + constructor; [exact H |]. constructor; [exact E |].
      eapply Forall_impl; [| exact Hall]. intros x Hx.
      eapply keyLt_trans; eauto.
    + constructor; [apply IH; exact Hs |].
      apply keys_insertKey_Forall; [apply keyLt_flip; exact E | exact Hall].
Qed.

Lemma insertKey_Forall (P : string * any -> Prop) k v m :
  P (k, v) -> Forall P m -> Forall P (insertKey k v m).
Proof.
  intros Hk. induction m as [| [k' v'] m IH]; simpl; intros H.
  - constructor; auto.
  - inversion H as [| ? ? Hk' Hm]; subst.
    destruct (String.compare k k'); constructor; auto.
Qed.

Lemma Canonical_insertKey k v m :
  ValidUTF8 k -> Canonical v -> Canonical (Map m) ->
  Canonical (Map (insertKey k v m)).
Proof.
  intros Hk Hv Hm. inversion Hm as [| | | | | ? Hs Hall]; subst.
  constructor; [apply insertKey_sorted; exact Hs |].
  apply insertKey_Forall; auto.
Qed.

(** Adding a key beyond all the keys of the map adds it at the end. *)
Lemma insertKey_last k v m :
  Forall (fun k' => keyLt k' k) (keys m) -> insertKey k v m = (m ++ [(k, v)])%list.
Proof.
  induction m as [| [k' v'] m IH]; simpl; intros H; [reflexivity |].
  inversion H as [| ? ? Hk' Hm]; subst.
  unfold keyLt in Hk'. rewrite String.compare_antisym, Hk'. simpl.
  rewrite IH by exact Hm. reflexivity.
Qed.

(** What the decoder returns is canonical. *)
Lemma parse_canonical fuel :
  (forall s v rest, parseValue fuel s = Some (v, rest) -> Canonical v) /\
  (forall s l rest,
     parseElements fuel s = Some (l, rest) -> Forall Canonical l) /\
  (forall s acc v rest,
     Canonical (Map acc) ->
     parseMembers fuel s acc = Some (v, rest) -> Canonical v).
Proof.
  induction fuel as [| fuel (IHv & IHe & IHm)].
  { repeat split; intros; discriminate. }
  repeat split.
  - intros s v rest. cbn [parseValue].
    destruct (skipSpace s) as [| c s1]; [discriminate |].
    destruct (Ascii.eqb c "{").
    { destruct (skipSpace s1) as [| c' s2]; [discriminate |].
      destruct (Ascii.eqb c' "}").
      - intros [= <- _]. constructor; constructor.
      - apply IHm. constructor; constructor. }
    destruct (Ascii.eqb c "[").
    { destruct (skipSpace s1) as [| c' s2]; [discriminate |].
      destruct (Ascii.eqb c' "]").
      - intros [= <- _]. constructor. constructor.
      - destruct (parseElements fuel s1) as [[l r] |] eqn:E; [| discriminate].
        intros [= <- _]. constructor. eapply IHe; eauto. }
    destruct (Ascii.eqb c DQ).
    { destruct (unquote (String.length s1) s1) as [[str r] |] eqn:E;
        [| discriminate].
      intros [= <- _]. constructor. eapply unquote_valid; eauto. }
    destruct (Ascii.eqb c "-" || isDigit c)%bool.
    { destruct (scanNumber (String c s1)) as [[lit r] |]; [| discriminate].
      destruct (ParseFloat lit); [| discriminate].
      intros [= <- _]. constructor. }
    destruct (HasPrefix (String c s1) "true");
      [intros [= <- _]; constructor |].
    destruct (HasPrefix (String c s1) "false");
      [intros [= <- _]; constructor |].
    destruct (HasPrefix (String c s1) "null");
      [intros [= <- _]; constructor | discriminate].
  - intros s l rest. cbn [parseElements].
    destruct (parseValue fuel s) as [[v r] |] eqn:Ev; [| discriminate].
    destruct (skipSpace r) as [| c r']; [discriminate |].
    destruct (Ascii.eqb c ",").
    + destruct (parseElements fuel r') as [[l' r''] |] eqn:El; [| discriminate].
      intros [= <- _]. constructor; eauto.
    + destruct (Ascii.eqb c "]"); [| discriminate].
      intros [= <- _]. constructor; eauto.
  - intros s acc v rest Hacc. cbn [parseMembers].
    destruct (skipSpace s) as [| q s1]; [discriminate |].
    destruct (Ascii.eqb q DQ); [| discriminate].
    destruct (unquote (String.length s1) s1) as [[k s2] |] eqn:Ek;
      [| discriminate].
    destruct (skipSpace s2) as [| c s3]; [discriminate |].
    destruct (Ascii.eqb c ":"); [| discriminate].
    destruct (parseValue fuel s3) as [[x s4] |] eqn:Ev; [| discriminate].
    assert (Canonical (Map (insertKey k x acc))) as Hacc'.
    { apply Canonical_insertKey; eauto. eapply unquote_valid; eauto. }
    destruct (skipSpace s4) as [| c' s5]; [discriminate |].
    destruct (Ascii.eqb c' ",").
    + apply IHm. exact Hacc'.
    + destruct (Ascii.eqb c' "}"); [| discriminate].
      intros [= <- _]. exact Hacc'.
Qed.

Lemma any_full_ind (P : any -> Prop) :
  P Nil -> (forall b, P (Bool b)) -> (forall bits, P (Float64 bits)) ->
  (forall n, P (Int n)) -> (forall s, P (Str s)) ->
  (forall l, Forall P l -> P (Slice l)) ->
  (forall m, Forall (fun kv => P (snd kv)) m -> P (Map m)) ->
  (forall l, P (MapSlice l)) -> (forall l, P (StrSlice l)) ->
  (forall l, P (IntSlice l)) ->
  forall v, P v.
Proof.
  intros. induction v as [ | | | | | l X | m X | l X | | ] using any_ind; auto.
  - apply H4. induction X; constructor; auto.
  - apply H5. induction X as [| a Ha l Hl IH]; constructor; auto.
    inversion Ha. assumption.
Qed.

Lemma skipSpace_allSpace w s : allSpace w = true -> skipSpace (w ++ s) = skipSpace s.
Proof.
  induction w as [| c w IH]; simpl; auto.
  rewrite andb_true_iff. intros [-> H]. auto.
Qed.

Lemma skipSpace_head c s : isSpace c = false -> skipSpace (String c s) = String c s.
Proof. simpl. intros ->. reflexivity. Qed.

Lemma parseValue_skip F s s' :
  skipSpace s = skipSpace s' -> parseValue F s = parseValue F s'.
Proof. intros H. destruct F; cbn [parseValue]; rewrite ?H; reflexivity. Qed.

Lemma parseMembers_skip F s s' acc :
  skipSpace s = skipSpace s' -> parseMembers F s acc = parseMembers F s' acc.
Proof. intros H. destruct F; cbn [parseMembers]; rewrite ?H; reflexivity. Qed.

Lemma parseElements_skip F s s' :
  skipSpace s = skipSpace s' -> parseElements F s = parseElements F s'.
Proof.
  intros H. destruct F; cbn [parseElements]; [reflexivity |].
  rewrite (parseValue_skip F s s' H). reflexivity.
Qed.

Lemma skipSpace_idem s : skipSpace (skipSpace s) = skipSpace s.
Proof.
  induction s as [| c s IH]; simpl; auto.
  destruct (isSpace c) eqn:E; auto. simpl. rewrite E. reflexivity.
Qed.

Lemma delimited_allSpace w c s :
  allSpace w = true -> delimited (String c s) = true ->
  delimited (w ++ String c s) = true.
Proof.
  destruct w as [| x w]; simpl; auto.
  rewrite andb_true_iff. intros [-> _] _. reflexivity.
Qed.

(** The head of a number is a digit or a minus sign. *)
Lemma literal_head neg int frac expo :
  isInt int ->
  exists c t, literal neg int frac expo = String c t /\
              (Ascii.eqb c "-" || isDigit c)%bool = true.
Proof.
  intros [Hd (c & t & -> & _)]. unfold literal. destruct neg.
  - eexists _, _. split; reflexivity.
  - simpl in Hd. apply andb_true_iff in Hd. destruct Hd as [Hc _].
    eexists _, _. split; [reflexivity |]. rewrite Hc. apply orb_true_r.
Qed.

Lemma number_head c :
  (Ascii.eqb c "-" || isDigit c)%bool = true ->
  isSpace c = false /\ Ascii.eqb c "{" = false /\ Ascii.eqb c "[" = false /\
  Ascii.eqb c DQ = false /\ Ascii.eqb c "]" = false /\
  Ascii.eqb c "}" = false.
Proof.
  destruct c as [[] [] [] [] [] [] [] []]; intros H; try discriminate H;
    repeat split.
Qed.

Lemma parseValue_number F text rest bits :
  (exists c t, text = String c t /\
               (Ascii.eqb c "-" || isDigit c)%bool = true) ->
  scanNumber (text ++ rest) = Some (text, rest) ->
  ParseFloat text = Some bits ->
  parseValue (S F) (text ++ rest) = Some (Float64 bits, rest).
Proof.
  intros (c & t & -> & Hc) Hscan Hparse.
  destruct (number_head c Hc) as (Hs & H1 & H2 & H3 & _).
  cbn [append parseValue] in *. rewrite skipSpace_head by exact Hs.
  rewrite H1, H2, H3, Hc, Hscan, Hparse. reflexivity.
Qed.

Lemma collect_Val {A} (l : list (A * orError string)) ss :
  collect l = Val ss ->
  Forall2 (fun x y => fst x = fst y /\ snd x = Val (snd y)) l ss.
Proof.
  revert ss. induction l as [| [a [s | e]] l IH]; simpl; intros ss.
  - intros [= <-]. constructor.
  - destruct (collect l) as [ss' | e]; [| discriminate].
    intros [= <-]. constructor; auto.
  - discriminate.
Qed.

Lemma insertSorted_head {A} (x : string * A) l :
  match l with
  | [] => True
  | y :: _ => keyLt (fst x) (fst y)
  end -> insertSorted x l = x :: l.
Proof. destruct l as [| y l]; simpl; auto. intros ->. reflexivity. Qed.

Lemma sortByKey_sorted {A} (l : list (string * A)) :
  StronglySorted keyLt (List.map fst l) -> sortByKey l = l.
Proof.
  induction l as [| x l IH]; simpl; auto. intros H.
  inversion H as [| ? ? Hs Hall]; subst. rewrite IH by exact Hs.
  apply insertSorted_head. destruct l as [| y l]; [exact I |].
  inversion Hall; assumption.
Qed.

Lemma StronglySorted_app_inv {A} (R : A -> A -> Prop) l1 x l2 :
  StronglySorted R (l1 ++ x :: l2)%list -> Forall (fun y => R y x) l1.
Proof.
  induction l1 as [| y l1 IH]; simpl; intros H; [constructor |].
  inversion H as [| ? ? Hs Hall]; subst. constructor; auto.
  rewrite Forall_forall in Hall. apply Hall. apply in_or_app. right. left.
  reflexivity.
Qed.

Section RoundTrip.
Variable L : layout.
Hypothesis Lspacing : spacing L.

Lemma newline_skip depth s : skipSpace (newline L depth ++ s) = skipSpace s.
Proof. apply skipSpace_allSpace. apply Lspacing. Qed.

Lemma closing_delimited depth c rest :
  (Ascii.eqb c "]" || Ascii.eqb c "}")%bool = true ->
  delimited (newline L depth ++ String c rest) = true.
Proof.
  intros Hc. apply delimited_allSpace; [apply Lspacing |].
  unfold delimited. destruct (Ascii.eqb c "]"), (Ascii.eqb c "}");
    try discriminate; rewrite ?orb_true_r; reflexivity.
Qed.

Lemma parseElements_join d d' : forall vs texts,
  Forall2 readsBack vs texts -> vs <> [] ->
  forall F rest,
    (String.length (joinItems L d texts) + 1 < F)%nat ->
    parseElements F
      (newline L d ++ joinItems L d texts ++ newline L d' ++ String "]" rest)
    = Some (vs, rest).
Proof.
  induction 1 as [| v t vs texts [Hhead Hv] Hrest IH]; [congruence |].
  intros _ F rest HF. destruct F as [| F]; [lia |].
  cbn [parseElements]. rewrite (parseValue_skip F _ _ (newline_skip d _)).
  destruct Hrest as [| v2 t2 vs' texts' Hv2 Hrest'].
  - cbn [joinItems] in *. rewrite Hv; [| lia | apply closing_delimited; reflexivity].
    rewrite newline_skip. reflexivity.
  - change (joinItems L d (t :: t2 :: texts'))
      with (t ++ "," ++ newline L d ++ joinItems L d (t2 :: texts'))%string in *.
    rewrite !slength_app in HF. rewrite !sapp_assoc.
    rewrite Hv; [| lia | reflexivity].
    cbn [append]. rewrite skipSpace_head by reflexivity.
    rewrite Ascii.eqb_refl.
    rewrite IH; [reflexivity | discriminate |].
    change (String.length ",") with 1%nat in HF. lia.
Qed.

Lemma parseMembers_join d d' : forall m items,
  Forall2 (memberText L) m items -> m <> [] ->
  forall acc F rest,
    StronglySorted keyLt (keys (acc ++ m)%list) ->
    (String.length (joinItems L d items) + 1 < F)%nat ->
    parseMembers F
      (newline L d ++ joinItems L d items ++ newline L d' ++ String "}" rest)
      acc
    = Some (Map (acc ++ m)%list, rest).
Proof.
  induction 1 as [| [k v] item m items [Hk (t & -> & Hhead & Hv)] Hrest IH];
    [congruence |].
  intros _ acc F rest Hsorted HF. destruct F as [| F]; [lia |].
  rewrite (parseMembers_skip _ _ _ _ (newline_skip d _)).
  destruct Lspacing as [_ (w & Hcolon & Hw)]. cbn [fst snd] in *.
  assert (insertKey k v acc = (acc ++ [(k, v)])%list) as Hins.
  { apply insertKey_last. unfold keys in Hsorted. rewrite map_app in Hsorted.
    apply (StronglySorted_app_inv _ _ _ _ Hsorted). }
  assert (forall R, delimited R = true ->
            parseMembers (S F)
              ((appendString k ++ colon L ++ t) ++ R) acc
            = match skipSpace R with
              | String c' s5 =>
                  if Ascii.eqb c' "," then
                    parseMembers F s5 (acc ++ [(k, v)])%list
                  else if Ascii.eqb c' "}" then
                    Some (Map (acc ++ [(k, v)])%list, s5)
                  else None
              | EmptyString => None
              end) as Hstep.
  { intros R HR. rewrite !sapp_assoc.
    destruct (unquote_appendString k (colon L ++ t ++ R) Hk)
      as (body & -> & Hbody).
    cbn [parseMembers]. rewrite skipSpace_head by reflexivity.
    rewrite Ascii.eqb_refl, Hbody, Hcolon. cbn [append].
    rewrite skipSpace_head by reflexivity. rewrite Ascii.eqb_refl.
    rewrite (parseValue_skip F _ _ (skipSpace_allSpace w _ Hw)).
    rewrite Hv; [| | exact HR].
    - rewrite Hins. reflexivity.
    - destruct Hrest; cbn [joinItems] in HF; rewrite !slength_app in HF; lia. }
  destruct Hrest as [| kv2 item2 m' items' Hm2 Hrest'].
  - cbn [joinItems].
    rewrite Hstep by (apply closing_delimited; reflexivity).
    rewrite newline_skip. reflexivity.
  - change (joinItems L d ((appendString k ++ colon L ++ t) :: item2 :: items'))
      with ((appendString k ++ colon L ++ t) ++ ","
            ++ newline L d ++ joinItems L d (item2 :: items'))%string in *.
    rewrite (sapp_assoc (appendString k ++ colon L ++ t)).
    rewrite Hstep by reflexivity.
    cbn [append]. rewrite skipSpace_head by reflexivity.
    rewrite Ascii.eqb_refl. rewrite !sapp_assoc.
    rewrite IH; [| discriminate | | ].
    + rewrite <- app_assoc. reflexivity.
    + rewrite <- app_assoc. exact Hsorted.
    + rewrite !slength_app in HF. change (String.length ",") with 1%nat in HF.
      lia.
Qed.

Lemma Forall2_map_l {A B C} (R : B -> C -> Prop) (f : A -> B) l l' :
  Forall2 R (List.map f l) l' <-> Forall2 (fun x y => R (f x) y) l l'.
Proof.
  revert l'. induction l as [| x l IH]; intros l'; simpl; split;
    inversion 1; subst; constructor; auto; apply IH; auto.
Qed.

Lemma Forall2_map_r {A B C} (R : A -> C -> Prop) (f : B -> C) l l' :
  Forall2 R l (List.map f l') <-> Forall2 (fun x y => R x (f y)) l l'.
Proof.
  revert l. induction l' as [| y l' IH]; intros l; simpl; split;
    inversion 1; subst; constructor; auto; apply IH; auto.
Qed.

Lemma Forall2_impl_In {A B} (R R' : A -> B -> Prop) l l' :
  (forall x y, In x l -> R x y -> R' x y) ->
  Forall2 R l l' -> Forall2 R' l l'.
Proof.
  intros H F. induction F; constructor.
  - apply H; simpl; auto.
  - apply IHF. intros; apply H; simpl; auto.
Qed.

Lemma bracket_head opening closing depth items c t :
  opening = String c t ->
  exists t', bracket L opening closing depth items = String c t'.
Proof. intros ->. destruct items; simpl; eauto. Qed.

(** The text of a canonical value, read back, is the value. *)
Lemma encode_readsBack v :
  Canonical v -> hasRangeError v = false ->
  forall depth text, encode L depth v = Val text -> readsBack v text.
Proof.
  induction v as [ | b | bits | n | s | l IH | m IH | l | l | l ]
    using any_full_ind; intros Hcan Hrange depth text Henc;
    try (inversion Hcan; fail).
  - (* null *)
    injection Henc as <-. split; [eexists _, _; repeat split |].
    intros [| F] rest HF _; [simpl in HF; lia | reflexivity].
  - (* true, false *)
    injection Henc as <-. split; [destruct b; eexists _, _; repeat split |].
    intros [| F] rest HF _; [destruct b; simpl in HF; lia |].
    destruct b; reflexivity.
  - (* numbers *)
    cbn [encode] in Henc. unfold encodeFloat in Henc.
    cbn [hasRangeError] in Hrange. apply negb_false_iff in Hrange.
    rewrite Hrange in Henc.
    destruct (formatFloat bits) as [text' |] eqn:Ef; [| discriminate].
    injection Henc as <-.
    destruct (formatFloat_literal bits text' Hrange Ef)
      as (Hparse & int & frac & expo & -> & Hint & Hfrac & Hexpo).
    destruct (literal_head (signOf bits) int frac expo Hint)
      as (c & t & Ehead & Hc).
    split.
    + destruct (number_head c Hc) as (Hs & _ & _ & _ & Hb & _). eauto.
    + intros [| F] rest HF Hrest; [lia |].
      apply parseValue_number; eauto.
      apply scanNumber_literal; auto.
  - (* strings *)
    injection Henc as <-. inversion Hcan as [| | | ? Hs | |]; subst.
    split; [unfold appendString; eexists _, _; repeat split |].
    intros [| F] rest HF Hrest; [lia |].
    destruct (unquote_appendString s rest Hs) as (body & -> & Hbody).
    cbn [parseValue]. rewrite skipSpace_head by reflexivity.
    cbn [Ascii.eqb Bool.eqb DQ andb]. fold DQ. rewrite Hbody. reflexivity.
  - (* arrays *)
    inversion Hcan as [| | | | ? Hall |]; subst.
    cbn [encode] in Henc. unfold encodeArray in Henc.
    destruct (collect _) as [ss | e] eqn:Ec; [| discriminate].
    injection Henc as <-.
    apply collect_Val in Ec. rewrite !Forall2_map_l in Ec. cbn [fst snd] in Ec.
    assert (Forall2 readsBack l (List.map snd ss)) as Hread.
    { apply Forall2_map_r.
      eapply Forall2_impl_In; [| exact Ec].
      intros x y Hin [_ Hx]. rewrite Forall_forall in IH, Hall.
      apply (IH x Hin (Hall x Hin)) with (depth := S depth); auto.
      cbn [hasRangeError] in Hrange.
      destruct (hasRangeError x) eqn:E; auto.
      assert (existsb hasRangeError l = true) as E'
        by (apply existsb_exists; eauto).
      congruence. }
    split.
    { destruct (bracket_head "[" "]" depth (List.map snd ss) "[" "" eq_refl)
        as [t' ->]. eexists _, _. repeat split. }
    intros [| F] rest HF Hrest; [lia |].
    destruct l as [| v0 l].
    + inversion Hread as [E |]. reflexivity.
    + inversion Hread as [| ? t0 ? ts H0 Hts E1 E2]. subst.
      rewrite <- E2 in *. clear E2.
      unfold bracket. cbn [append parseValue].
      rewrite skipSpace_head by reflexivity.
      cbn [Ascii.eqb Bool.eqb andb].
      rewrite !sapp_assoc. rewrite newline_skip.
      destruct H0 as [(c & t & Et & Hsp & Hbr) _].
      assert (exists X, (joinItems L (S depth) (t0 :: ts) ++ newline L depth ++ "]" ++ rest
                         = String c X)%string) as [X EX].
      { destruct ts; cbn [joinItems]; rewrite Et; eexists; reflexivity. }
      rewrite EX. rewrite skipSpace_head by exact Hsp. rewrite Hbr.
      rewrite <- EX. change ("]" ++ rest)%string with (String "]" rest).
      rewrite (parseElements_join (S depth) depth (v0 :: l) (t0 :: ts));
        [reflexivity | | discriminate |].
      * constructor; auto.
        inversion Hread; subst; auto.
      * unfold bracket in HF. rewrite !slength_app in HF.
        cbn [String.length] in HF. lia.
  - (* objects *)
    inversion Hcan as [| | | | | ? Hsorted Hall]; subst.
    cbn [encode] in Henc. unfold encodeObject in Henc.
    rewrite sortByKey_sorted in Henc.
    2:{ rewrite map_map. unfold keys in Hsorted.
        erewrite map_ext; [exact Hsorted |]. intros [k x]. reflexivity. }
    destruct (collect _) as [ss | e] eqn:Ec; [| discriminate].
    injection Henc as <-.
    apply collect_Val in Ec. rewrite !Forall2_map_l in Ec.
    remember (List.map _ ss) as items eqn:Eitems.
    assert (Forall2 (memberText L) m items) as Hread.
    { subst items. apply Forall2_map_r.
      eapply Forall2_impl_In; [| exact Ec].
      intros [k x] [k' t] Hin [Hk Hx]. cbn [fst snd] in *. subst k'.
      rewrite Forall_forall in IH, Hall.
      destruct (Hall (k, x) Hin) as [Hvalid Hcx]. split; [exact Hvalid |].
      exists t. split; [reflexivity |].
      apply (IH (k, x) Hin Hcx) with (depth := S depth); auto.
      cbn [hasRangeError] in Hrange.
      destruct (hasRangeError x) eqn:E; auto.
      assert (existsb (fun '(_, x) => hasRangeError x) m = true) as E'
        by (apply existsb_exists; exists (k, x); auto).
      congruence. }
    split.
    { destruct (bracket_head "{" "}" depth items "{" "" eq_refl)
        as [t' ->]. eexists _, _. repeat split. }
    intros [| F] rest HF Hrest; [lia |].
    destruct m as [| kv0 m].
    + inversion Hread as [E |]. reflexivity.
    + inversion Hread as [| ? item0 ? its H0 Hts E1 E2]. subst.
      rewrite <- E2 in *.
      unfold bracket. cbn [append parseValue].
      rewrite skipSpace_head by reflexivity.
      cbn [Ascii.eqb Bool.eqb andb].
      rewrite !sapp_assoc. rewrite newline_skip.
      destruct H0 as [_ (t & Et & _)].
      assert (exists X, (joinItems L (S depth) (item0 :: its) ++ newline L depth ++ "}" ++ rest
                         = String DQ X)%string) as [X EX].
      { destruct its; cbn [joinItems]; rewrite Et; unfold appendString;
          eexists; reflexivity. }
      rewrite EX. rewrite skipSpace_head by reflexivity.
      cbn [Ascii.eqb Bool.eqb DQ andb]. fold DQ. rewrite <- EX.
      change ("}" ++ rest)%string with (String "}" rest).
      rewrite (parseMembers_join (S depth) depth (kv0 :: m) (item0 :: its));
        [reflexivity | | discriminate | exact Hsorted |].
      * exact Hread.
      * unfold bracket in HF. rewrite !slength_app in HF.
        cbn [String.length] in HF. lia.
Qed.
End RoundTrip.

(** ** The test driver *)

Lemma bindM_lift {A B} (w : W A) (f : A -> M B) (fs : FileSystem) :
  bindM (lift w) f fs
  = match w with
    | (ev, Ok a) =>
        let '((ev', r), fs') := f a fs in (((ev ++ ev')%list, r), fs')
    | (ev, FailNow) => ((ev, FailNow), fs)
    | (ev, Panic msg) => ((ev, Panic msg), fs)
    end.
Proof. unfold bindM, lift. destruct w as [ev [a | | msg]]; reflexivity. Qed.

Lemma bindM_lift_ret {A B} (a : A) (f : A -> M B) (fs : FileSystem) :
  bindM (lift (ret a)) f fs = f a fs.
Proof.
  rewrite bindM_lift. simpl. destruct (f a fs) as [[ev r] fs']. reflexivity.
Qed.

Lemma drainBody_same t (got : Response) :
  drainBody t (Body got) = ret (Body got, Body got) \/
  exists s, Body got = Reader s /\ drainBody t (Body got) = ret (Reader s, Reader s).
Proof. destruct (Body got); simpl; eauto. Qed.

Lemma withBody_same (got : Response) : withBody got (Body got) = got.
Proof. destruct got; reflexivity. Qed.

Section DriverFacts.
Variable router : Request -> Response.
Variable DumpResponse : Response -> bool -> orError bytes.
Variable Diff : bytes -> bytes -> string.

(** [cmp.Diff] reports no difference exactly between equal values. *)
Hypothesis Diff_empty : forall x y, Diff x y = "" <-> x = y.

(** When the raw dump goes through, it has only logged. *)
Lemma dumpRaw_Ok t got ev got' :
  dumpRaw DumpResponse t got = (ev, Ok got') ->
  got' = got /\ existsb (fun e => match e with Fail => true | _ => false end) ev = false.
Proof.
  unfold dumpRaw.
  assert (drainBody t (Body got) = ret (Body got, Body got)) as ->
    by (destruct (Body got); reflexivity).
  rewrite bind_ret_l, withBody_same.
  set (pretty := if HasPrefix _ _ then _ else _).
  destruct pretty as [ev1 [body | | msg]] eqn:Ep; simpl; try discriminate.
  destruct (DumpResponse got false) as [dump | e]; simpl; try discriminate.
  intros [= <- <-]. split; [reflexivity |].
  assert (ev1 = []) as ->.
  { subst pretty. destruct (HasPrefix _ _); [| injection Ep as <- _; reflexivity].
    destruct (_ || _)%bool; [| injection Ep as <- _; reflexivity].
    unfold indentJSON in Ep.
    destruct (Unmarshal (ReadAll (Body got))) as [tmp | e]; simpl in Ep;
      [| discriminate].
    destruct (MarshalIndent tmp "" "  ") as [b | e]; simpl in Ep;
      [| discriminate].
    injection Ep as <- _. reflexivity. }
  reflexivity.
Qed.

Lemma bindM_lift_bind {A B C} (w : W A) (g : A -> W B) (f : B -> M C) fs :
  bindM (lift (bind w g)) f fs
  = bindM (lift w) (fun a => bindM (lift (g a)) f) fs.
Proof.
  rewrite !bindM_lift. destruct w as [ev [a | | msg]]; simpl; auto.
  rewrite bindM_lift. destruct (g a) as [ev' [b | | msg]]; simpl; auto.
  destruct (f b fs) as [[ev'' r] fs']. rewrite app_assoc. reflexivity.
Qed.

Lemma bindM_ext {A B} (m : M A) (f g : A -> M B) fs :
  (forall a fs', f a fs' = g a fs') -> bindM m f fs = bindM m g fs.
Proof.
  intros H. unfold bindM. destruct (m fs) as [[ev [a | | msg]] fs']; auto.
  rewrite H. reflexivity.
Qed.

(** [RunTest] is the exchange followed by the golden step and the
    closing log line. *)
Lemma RunTest_steps dumpFlag updateFlag t r want filters fs :
  RunTest router dumpFlag updateFlag DumpResponse Diff t r want filters fs
  = bindM (lift (exchange router dumpFlag DumpResponse t r want filters))
      (fun dump =>
         bindM (compareOrUpdate updateFlag Diff t dump)
           (fun _ =>
              lift (t_Logf ("<<< %s" ++ LF)
                      [AString (goldenFileName (Name t))])))
      fs.
Proof.
  unfold RunTest, exchange.
  rewrite bindM_lift_bind. apply bindM_ext; intros _ fs1.
  rewrite bindM_lift_bind. apply bindM_ext; intros _ fs2.
  rewrite bindM_lift_bind. apply bindM_ext; intros got fs3.
  rewrite bindM_lift_bind. reflexivity.
Qed.

Lemma fileAt_putFile fs name data :
  fileAt (putFile fs name data) name = Some data.
Proof.
  induction fs as [| [p d] fs IH]; simpl.
  - rewrite String.eqb_refl. reflexivity.
  - destruct (String.eqb p name) eqn:E; simpl; rewrite E; auto.
Qed.
End DriverFacts.

(** ** Claims about the filters and the driver *)

(** C6.  [PrettyJSON] returns the response as it is on status 204.  On
    another status, when the Content-Type does not start with
    [application/json] it stops the test with the one message
    "Response is not JSON", whatever the body holds: the body is not
    decoded, so no decoding error can be logged.  Otherwise it decodes the
    body and writes it back with two-space indentation. *)
Theorem PrettyJSON_cases (t : testingT) (r : Response) :
  (StatusCode r = StatusNoContent -> PrettyJSON t r = ([], Ok r)) /\
  (StatusCode r <> StatusNoContent ->
   HasPrefix (Get (Header r) "Content-Type") "application/json" = false ->
   forall b : body,
     PrettyJSON t (withBody r b)
     = ([Log [AString "Response is not JSON"]; Fail], FailNow)) /\
  (StatusCode r <> StatusNoContent ->
   HasPrefix (Get (Header r) "Content-Type") "application/json" = true ->
   PrettyJSON t r
   = match Unmarshal (ReadAll (Body r)) with
     | Err e => ([Log [AError e]; Fail], FailNow)
     | Val tmp =>
         match MarshalIndent tmp "" "  " with
         | Err e => ([Log [AError e]; Fail], FailNow)
         | Val pretty => ([], Ok (withBody r (Reader pretty)))
         end
     end).
Proof.
  unfold PrettyJSON. repeat split.
  - intros ->. reflexivity.
  - intros Hs Hct b. cbn [withBody StatusCode Header].
    destruct (Z.eqb_spec (StatusCode r) StatusNoContent); [contradiction |].
    rewrite Hct. reflexivity.
  - intros Hs Hct.
    destruct (Z.eqb_spec (StatusCode r) StatusNoContent); [contradiction |].
    rewrite Hct. cbn [negb]. unfold indentJSON.
    destruct (Unmarshal (ReadAll (Body r))) as [tmp | e]; simpl; auto.
    destruct (MarshalIndent tmp "" "  ") as [b | e]; reflexivity.
Qed.

Lemma PrettyJSON_cases_witness :
  let t := {| Name := "TestText" |} in
  let r := {| StatusCode := StatusOK;
              Header := [("Content-Type", ["text/plain"])];
              Body := Reader (js "{'hoge':'fuga'}") |} in
  PrettyJSON t r = ([Log [AString "Response is not JSON"]; Fail], FailNow).
Proof.
  intros t r.
  apply (proj1 (proj2 (PrettyJSON_cases t r))
           ltac:(discriminate) eq_refl (Body r)).
Defined.

Section DriverClaims.
Variable router : Request -> Response.
Variable DumpResponse : Response -> bool -> orError bytes.
Variable Diff : bytes -> bytes -> string.
Hypothesis Diff_empty : forall x y, Diff x y = "" <-> x = y.

(** C8.  In compare mode [RunTest] leaves the file system as it found
    it, whatever happens.  When the exchange reaches the golden step with
    the serialized response [dump]: in update mode (on a directory that
    takes writes) the golden file holds [dump] afterwards, whatever it held
    and whatever [cmp.Diff] would say, and the step adds no failure; in
    compare mode a missing golden file stops the test, a golden file with
    other bytes marks it failed (and the test goes on), and one with the
    same bytes adds nothing. *)
Theorem golden_step_modes
    (dumpFlag : bool) (t : testingT) (r : Request) (want : Z)
    (filters : list ResponseFilter) (fs : FileSystem) :
  let golden := goldenFileName (Name t) in
  let closing := Logf ("<<< %s" ++ LF) [AString golden] in
  let run update :=
    RunTest router dumpFlag update DumpResponse Diff t r want filters fs in
  snd (run false) = fs /\
  forall ev dump,
    exchange router dumpFlag DumpResponse t r want filters = (ev, Ok dump) ->
    (readOnly fs = false ->
     fst (run true) = ((ev ++ [closing])%list, Ok tt) /\
     fileAt (files (snd (run true))) golden = Some dump) /\
    (fileAt (files fs) golden = None ->
     snd (fst (run false)) = FailNow /\ failed (fst (run false)) = true) /\
    (forall stored, fileAt (files fs) golden = Some stored ->
       (stored <> dump ->
        snd (fst (run false)) = Ok tt /\ failed (fst (run false)) = true) /\
       (stored = dump ->
        fst (run false) = ((ev ++ [closing])%list, Ok tt))).
Proof.
  intros golden closing run. subst run. cbv beta. split.
  - rewrite RunTest_steps, bindM_lift.
    destruct (exchange _ _ _ _ _ _ _) as [ev [dump | | msg]]; auto.
    unfold compareOrUpdate, readGolden, bindM, lift, orFatal.
    destruct (ReadFile _ fs) as [g | e]; simpl; auto.
    destruct (negb _); reflexivity.
  - intros ev dump Hex. rewrite !RunTest_steps, !bindM_lift, Hex.
    unfold compareOrUpdate, writeGolden, readGolden, MkdirAll, WriteFile,
      ReadFile, bindM, lift, orFatal.
    fold golden. split; [| split].
    + intros Hw. rewrite Hw. split; [reflexivity |].
      simpl. apply fileAt_putFile.
    + intros Hn. rewrite Hn. split; [reflexivity |].
      unfold failed. simpl. rewrite existsb_app. simpl. apply orb_true_r.
    + intros stored Hs. rewrite Hs. simpl. split.
      * intros Hne.
        destruct (String.eqb_spec (Diff stored dump) "") as [E | E]; simpl.
        -- exfalso. apply Hne. apply (proj1 (Diff_empty _ _) E).
        -- split; [reflexivity |].
           unfold failed. simpl. rewrite existsb_app. simpl.
           apply orb_true_r.
      * intros ->.
        destruct (String.eqb_spec (Diff dump dump) "") as [E | E]; simpl.
        -- reflexivity.
        -- exfalso. apply E. apply Diff_empty. reflexivity.
Qed.

(** C9.  A status code other than the expected one is reported with
    [Errorf], which marks the test failed and returns: the run goes on
    exactly as the run whose expectation is met does (raw dump, filters,
    serialization, comparison or update), with the same end and the same
    files, and the same log but for the report of the status. *)
Theorem status_mismatch_is_not_fatal
    (dumpFlag updateFlag : bool) (t : testingT) (r : Request) (want : Z)
    (filters : list ResponseFilter) (fs : FileSystem) :
  StatusCode (router r) <> want ->
  let run want :=
    RunTest router dumpFlag updateFlag DumpResponse Diff t r want filters fs in
  let start := Logf (">>> %s %s" ++ LF) [AString (Method r); AString (URL r)] in
  let report := Logf ("HTTP StatusCode: %d, want: %d" ++ LF)
                  [AInt (StatusCode (router r)); AInt want] in
  exists ev res fs',
    run (StatusCode (router r)) = ((start :: ev, res), fs') /\
    run want = ((start :: report :: Fail :: ev, res), fs') /\
    failed (fst (run want)) = true.
Proof.
  intros Hne run start report. subst run. cbv beta.
  unfold RunTest. rewrite !(bindM_lift (t_Logf _ _)).
  cbv beta iota delta [t_Logf].
  rewrite !(bindM_lift (if negb _ then _ else _)).
  rewrite Z.eqb_refl.
  destruct (Z.eqb_spec (StatusCode (router r)) want) as [E | _];
    [contradiction |].
  cbv beta iota delta [negb t_Errorf ret].
  match goal with
  | |- context [bindM ?m ?f fs] => destruct (bindM m f fs) as [[ev res] fs']
  end.
  exists ev, res, fs'. repeat split.
Qed.

(** What holds of the diagnostic switch: when the raw dump goes through,
    the run with the switch on is the run with it off, with the lines of
    the dump (none of them a failure) added to the log. *)
Lemma dump_flag_logs_only
    (updateFlag : bool) (t : testingT) (r : Request) (want : Z)
    (filters : list ResponseFilter) (fs : FileSystem) evd got :
  dumpRaw DumpResponse t (router r) = (evd, Ok got) ->
  let run dumpFlag :=
    RunTest router dumpFlag updateFlag DumpResponse Diff t r want filters fs in
  exists ev1 ev2 res fs',
    run false = (((ev1 ++ ev2)%list, res), fs') /\
    run true = (((ev1 ++ evd ++ ev2)%list, res), fs') /\
    existsb (fun e => match e with Fail => true | _ => false end) evd = false.
Proof.
  intros Hd run. subst run. cbv beta.
  destruct (dumpRaw_Ok _ _ _ _ _ Hd) as [-> Hq].
  unfold RunTest. rewrite !(bindM_lift (t_Logf _ _)).
  cbv beta iota delta [t_Logf].
  rewrite !(bindM_lift (if negb _ then _ else _)).
  remember (if negb _ then _ else _) as check eqn:Ec.
  destruct check as [ev0 [[] | | msg]].
  - cbv beta iota. rewrite Hd, bindM_lift_ret.
    rewrite (bindM_lift (evd, Ok (router r))).
    match goal with
    | |- context [bindM ?m ?f fs] => destruct (bindM m f fs) as [[ev res] fs']
    end.
    exists (Logf (">>> %s %s" ++ LF) [AString (Method r); AString (URL r)]
            :: ev0), ev, res, fs'.
    repeat split; auto.
  - exists (Logf (">>> %s %s" ++ LF) [AString (Method r); AString (URL r)]
            :: ev0), [], FailNow, fs.
    destruct (negb _); discriminate.
  - destruct (negb _); discriminate.
Qed.
End DriverClaims.

Lemma exampleDiff_empty x y : exampleDiff x y = "" <-> x = y.
Proof.
  unfold exampleDiff. destruct (String.eqb_spec x y) as [-> | Hne].
  - tauto.
  - split; [discriminate | contradiction].
Qed.

Lemma golden_step_modes_witness :
  let t := {| Name := "TestHealthEndpoint/v1_health_200" |} in
  let r := {| Method := "GET"; Path := "/v1/health"; Query := [];
              RequestBody := "" |} in
  let fs := {| files := [(goldenFileName (Name t), "stale")]; dirs := [];
               readOnly := false |} in
  let run update :=
    RunTest (newRouter 0) false update exampleDump exampleDiff
      t r StatusOK [PrettyJSON] fs in
  fileAt (files (snd (run true))) (goldenFileName (Name t))
  = Some ("HTTP/1.1 200" ++ CRLF ++ "Content-Type: application/json" ++ CRLF
          ++ CRLF ++ js "{" ++ LF ++ js "  'hoge': 'fuga'" ++ LF ++ "}") /\
  failed (fst (run true)) = false /\
  snd (run false) = fs /\
  failed (fst (run false)) = true.
Proof.
  intros t r fs run.
  pose proof (golden_step_modes (newRouter 0) exampleDump exampleDiff
                exampleDiff_empty false t r StatusOK [PrettyJSON] fs)
    as [Hsame H].
  specialize (H _ _ ltac:(vm_compute; reflexivity)).
  destruct H as [Hupdate [_ Hcompare]].
  destruct (Hupdate eq_refl) as [Hrun Hfile].
  destruct (Hcompare "stale" eq_refl) as [Hdiff _].
  split; [exact Hfile |].
  split; [subst run; cbv beta; rewrite Hrun; reflexivity |].
  split; [exact Hsame |].
  apply Hdiff. discriminate.
Defined.

Lemma status_mismatch_is_not_fatal_witness :
  let t := {| Name := "TestUserPutEndpoint/v1_user_200_success" |} in
  let r := {| Method := "PUT"; Path := "/v1/user/1"; Query := [];
              RequestBody := js "{'name':'JoJo'}" ++ LF |} in
  let fs := {| files := []; dirs := []; readOnly := false |} in
  let run :=
    RunTest (newRouter 0) false true exampleDump exampleDiff t r StatusOK []
      fs in
  failed (fst run) = true /\ snd (fst run) = Ok tt /\
  fileAt (files (snd run)) (goldenFileName (Name t))
  = Some ("HTTP/1.1 204" ++ CRLF ++ CRLF).
Proof.
  intros t r fs run.
  destruct (status_mismatch_is_not_fatal (newRouter 0) exampleDump exampleDiff
              false true t r StatusOK [] fs ltac:(discriminate))
    as (ev & res & fs' & Hok & Hbad & Hfailed).
  subst run. split; [exact Hfailed |].
  rewrite Hbad. simpl.
  assert ((Logf (">>> %s %s" ++ LF) [AString (Method r); AString (URL r)]
           :: ev, res, fs')
          = RunTest (newRouter 0) false true exampleDump exampleDiff t r
              (StatusCode (newRouter 0 r)) [] fs) as E
    by (symmetry; exact Hok).
  vm_compute in E. injection E as _ -> ->. split; reflexivity.
Defined.

(** C5 does not hold of the code.  The block under [dumpRawResponse]
    indents the raw body with [indentJSON], which stops the test when the
    body is not a JSON object.  A handler that answers 200 with the JSON
    array [[]] under [application/json] passes against its golden file with
    the switch off; with the switch on the same test is stopped and marked
    failed, and in update mode its golden file is not written. *)
Theorem dump_flag_changes_the_outcome :
  let t := {| Name := "TestList/v1_items_200" |} in
  let r := {| Method := "GET"; Path := "/v1/items"; Query := [];
              RequestBody := "" |} in
  let router := fun _ : Request =>
    {| StatusCode := StatusOK; Header := jsonHeader; Body := Reader "[]" |} in
  let golden := "HTTP/1.1 200" ++ CRLF ++ "Content-Type: application/json"
                ++ CRLF ++ CRLF ++ "[]" in
  let stored := {| files := [(goldenFileName (Name t), golden)]; dirs := [];
                   readOnly := false |} in
  let empty := {| files := []; dirs := []; readOnly := false |} in
  let run dump update fs :=
    RunTest router dump update exampleDump exampleDiff t r StatusOK [] fs in
  (failed (fst (run false false stored)) = false /\
   snd (fst (run false false stored)) = Ok tt) /\
  (failed (fst (run true false stored)) = true /\
   snd (fst (run true false stored)) = FailNow) /\
  fileAt (files (snd (run false true empty))) (goldenFileName (Name t))
  = Some golden /\
  fileAt (files (snd (run true true empty))) (goldenFileName (Name t)) = None.
Proof. vm_compute. repeat split. Qed.

(** ** Pretty-printing twice *)

Lemma allSpace_indentation n : allSpace (indentation "  " n) = true.
Proof. induction n; simpl; auto. Qed.

Lemma indented_spacing : spacing (indented "" "  ").
Proof.
  split.
  - intros depth. cbn. apply allSpace_indentation.
  - exists " "%string. split; reflexivity.
Qed.

Lemma Unmarshal_canonical data m :
  Unmarshal data = Val (Some m) ->
  Canonical (Map m) /\ hasRangeError (Map m) = false.
Proof.
  unfold Unmarshal.
  destruct (parseValue _ data) as [[v rest] |] eqn:Ep; [| discriminate].
  destruct (onlySpace rest); [| discriminate].
  apply (proj1 (parse_canonical _)) in Ep.
  destruct v; cbn [storeMap]; try discriminate.
  destruct (hasRangeError (Map m0)) eqn:Er; [discriminate |].
  intros [= <-]. auto.
Qed.

(** Decoding the indented text of a decoded map gives the map back. *)
Lemma Unmarshal_MarshalIndent m text :
  Canonical (Map m) -> hasRangeError (Map m) = false ->
  MarshalIndent (Some m) "" "  " = Val text ->
  Unmarshal text = Val (Some m).
Proof.
  intros Hcan Hrange Henc. unfold MarshalIndent, encodeMap in Henc.
  destruct (encode_readsBack _ indented_spacing _ Hcan Hrange _ _ Henc)
    as [_ Hread].
  unfold Unmarshal.
  specialize (Hread (S (String.length text)) ""%string (Nat.lt_succ_diag_r _)
                eq_refl).
  rewrite sapp_nil_r in Hread. rewrite Hread. cbn [onlySpace skipSpace storeMap].
  rewrite Hrange. reflexivity.
Qed.

Lemma withBody_withBody r b b' : withBody (withBody r b) b' = withBody r b'.
Proof. reflexivity. Qed.

Lemma indentJSON_Ok t body pretty :
  snd (indentJSON t body) = Ok pretty ->
  exists tmp, Unmarshal body = Val tmp /\
              MarshalIndent tmp "" "  " = Val pretty.
Proof.
  unfold indentJSON.
  destruct (Unmarshal body) as [tmp | e]; [| discriminate].
  cbn [orFatal]. rewrite bind_ret_l.
  destruct (MarshalIndent tmp "" "  ") as [b | e] eqn:E; [| discriminate].
  cbn. intros [= <-]. exists tmp. split; [reflexivity | exact E].
Qed.

Lemma indentJSON_again t body pretty :
  snd (indentJSON t body) = Ok pretty ->
  indentJSON t pretty = ([], Ok pretty).
Proof.
  intros H. apply indentJSON_Ok in H. destruct H as (tmp & Hdec & Henc).
  unfold indentJSON. destruct tmp as [m |].
  - destruct (Unmarshal_canonical _ _ Hdec) as [Hcan Hrange].
    rewrite (Unmarshal_MarshalIndent m pretty Hcan Hrange Henc).
    cbn [orFatal]. rewrite bind_ret_l. cbv beta. unfold gomap in *.
    rewrite Henc. reflexivity.
  - injection Henc as <-. reflexivity.
Qed.

(** C7.  Pretty-printing is idempotent.  When [indentJSON] succeeds on a
    body, it returns its own output unchanged on that output; and when the
    filter [PrettyJSON] succeeds on a response, running it on the response
    it left gives the same response, byte for byte, with nothing logged. *)
Theorem PrettyJSON_idempotent (t : testingT) :
  (forall body pretty,
     snd (indentJSON t body) = Ok pretty ->
     indentJSON t pretty = ([], Ok pretty)) /\
  (forall r r',
     snd (PrettyJSON t r) = Ok r' -> PrettyJSON t r' = ([], Ok r')).
Proof.
  split; [apply indentJSON_again |].
  intros r r'. unfold PrettyJSON.
  destruct (Z.eqb (StatusCode r) StatusNoContent) eqn:Es.
  - intros [= <-]. rewrite Es. reflexivity.
  - destruct (HasPrefix (Get (Header r) "Content-Type") "application/json")
      eqn:Ect; [| discriminate].
    cbn [negb]. intros H. apply bind_ret_Ok_inv in H.
    destruct H as (pretty & Hp & ->).
    cbn [withBody StatusCode Header Body]. rewrite Es, Ect. cbn [negb ReadAll].
    rewrite (indentJSON_again t _ _ Hp). reflexivity.
Qed.

Lemma PrettyJSON_idempotent_witness :
  let t := {| Name := "TestHealthEndpoint/v1_health_200" |} in
  let r := {| StatusCode := StatusOK; Header := jsonHeader;
              Body := Reader (js " {'b' : [1, 2.50, true, null, {'x':'<y>'}],  'a':1e21, 'a':-7e-7}") |} in
  let pretty :=
    (js "{" ++ LF ++
     js "  'a': -7e-7," ++ LF ++
     js "  'b': [" ++ LF ++
     js "    1," ++ LF ++
     js "    2.5," ++ LF ++
     js "    true," ++ LF ++
     js "    null," ++ LF ++
     js "    {" ++ LF ++
     js "      'x': '\u003cy\u003e'" ++ LF ++
     js "    }" ++ LF ++
     js "  ]" ++ LF ++
     js "}")%string in
  PrettyJSON t r = ([], Ok (withBody r (Reader pretty))) /\
  PrettyJSON t (withBody r (Reader pretty))
  = ([], Ok (withBody r (Reader pretty))).
Proof.
  intros t r pretty.
  assert (PrettyJSON t r = ([], Ok (withBody r (Reader pretty)))) as H
    by (vm_compute; reflexivity).
  split; [exact H |].
  apply (proj2 (PrettyJSON_idempotent t) r). rewrite H. reflexivity.
Defined.

(** ** The rewrite scenario *)

Lemma digitsValue_app a b acc :
  digitsValue (a ++ b) acc = digitsValue b (digitsValue a acc).
Proof. revert acc. induction a as [| c a IH]; simpl; auto. Qed.

Lemma code_digit_char d : (d < 10)%N -> code (digit_char d) = (48 + d)%N.
Proof. intros H. unfold digit_char. apply code_chr. lia. Qed.

Lemma digitsValue_utoa_aux f : forall n,
  (n < 2 ^ N.of_nat f)%N ->
  exists k, forall acc a,
    digitsValue (utoa_aux f n acc) a
    = digitsValue acc (a * k + Z.of_N n)%Z.
Proof.
  induction f as [| f IH]; intros n Hn.
  - exists 1%Z. intros acc a. simpl in *. f_equal. lia.
  - cbn [utoa_aux]. destruct (N.ltb_spec n 10) as [Hlt | Hge].
    + exists 10%Z. intros acc a. cbn [digitsValue].
      rewrite code_digit_char by (apply N.mod_lt; discriminate).
      rewrite N.mod_small by lia. f_equal. lia.
    + destruct (IH (n / 10)%N) as [k Hk].
      { rewrite Nat2N.inj_succ, N.pow_succ_r' in Hn. lia. }
      exists (10 * k)%Z. intros acc a. rewrite Hk. cbn [digitsValue].
      rewrite code_digit_char by (apply N.mod_lt; discriminate).
      f_equal. lia.
Qed.

(** Reading the digits of a number gives the number. *)
Lemma digitsValue_utoa n : digitsValue (utoa n) 0 = Z.of_N n.
Proof.
  destruct (digitsValue_utoa_aux (S (N.to_nat (N.log2 n))) n) as [k Hk].
  - rewrite Nat2N.inj_succ, N2Nat.id. destruct n as [| p]; [reflexivity |].
    apply N.log2_spec. reflexivity.
  - unfold utoa. rewrite Hk. simpl. lia.
Qed.

Lemma Itoa_literal z :
  Itoa z = literal (z <? 0)%Z (utoa (Z.to_N (Z.abs z))) "" "".
Proof.
  unfold literal, Itoa. rewrite !sapp_nil_r.
  destruct z as [| p | p]; reflexivity.
Qed.

Lemma isInt_utoa n : isInt (utoa n).
Proof.
  split; [apply allDigits_utoa |].
  destruct (N.eq_dec n 0) as [-> | Hn].
  - eexists _, _. split; [reflexivity | left; reflexivity].
  - destruct (utoa_head n ltac:(lia)) as (c & t & E & Hc). eauto.
Qed.

(** [ParseFloat] on the decimal text of an integer. *)
Lemma ParseFloat_Itoa z :
  ParseFloat (Itoa z) = Some (decimalToFloat64 (z <? 0)%Z (Z.abs z) 0).
Proof.
  assert (forall (neg : bool) n,
            ParseFloat ((if neg then "-" else "") ++ utoa n)%string
            = Some (decimalToFloat64 neg (Z.of_N n) 0)) as H.
  { intros neg n. unfold ParseFloat.
    destruct (isInt_utoa n) as [Hall (c & t & E & _)].
    assert (isDigit c = true) as Hc.
    { rewrite E in Hall. simpl in Hall. apply andb_true_iff in Hall. tauto. }
    destruct (isDigit_not c Hc) as (Hm & Hp & _).
    assert (match ((if neg then "-" else "") ++ utoa n)%string with
            | String c0 s' =>
                if Ascii.eqb c0 "-" then (true, s')
                else if Ascii.eqb c0 "+" then (false, s')
                     else (false, ((if neg then "-" else "") ++ utoa n)%string)
            | EmptyString => (false, ((if neg then "-" else "") ++ utoa n)%string)
            end = (neg, utoa n)) as ->.
    { destruct neg; [reflexivity |]. cbn [append]. rewrite E, Hm, Hp.
      reflexivity. }
    rewrite <- (sapp_nil_r (utoa n)) at 1.
    rewrite (spanDigits_app (utoa n) "" Hall I).
    rewrite sapp_nil_r. rewrite E at 1. rewrite <- E.
    rewrite digitsValue_utoa. reflexivity. }
  rewrite Itoa_literal. unfold literal. rewrite !sapp_nil_r, H.
  rewrite Z2N.id by lia. reflexivity.
Qed.

(** An integer that fits 64 bits is within the range of float64. *)
Lemma roundFloat64_int d :
  (0 < d <= 2 ^ 63)%Z -> (0 <= roundFloat64 d 1 < infBits)%Z.
Proof.
  intros Hd. unfold roundFloat64.
  change (Z.log2 1) with 0%Z. rewrite Z.sub_0_r.
  pose proof (Z.log2_nonneg d) as Hnn.
  destruct (Z.log2_spec d ltac:(lia)) as [Hlo Hhi].
  assert (Z.log2 d <= 63)%Z as H63.
  { rewrite <- (Z.log2_pow2 63) by lia. apply Z.log2_le_mono. lia. }
  rewrite (Z.max_l 0 (- Z.log2 d)) by lia.
  rewrite (Z.max_r 0 (Z.log2 d)) by lia.
  change (2 ^ 0)%Z with 1%Z. rewrite !Z.mul_1_r, Z.mul_1_l.
  replace (d <? 2 ^ Z.log2 d)%Z with false by (symmetry; apply Z.ltb_ge; lia).
  rewrite (Z.max_l (Z.log2 d - 52) (-1074)) by lia.
  set (E := Z.log2 d) in *. unfold infBits.
  change (2 ^ 52)%Z with 4503599627370496%Z.
  assert (0 <= roundQuot (d * 2 ^ Z.max 0 (- (E - 52)))
                 (2 ^ Z.max 0 (E - 52)) <= 2 ^ 53)%Z as Hm.
  { unfold roundQuot. destruct (Z.le_gt_cases E 52) as [HE | HE].
    - rewrite (Z.max_r 0 (- (E - 52))) by lia.
      rewrite (Z.max_l 0 (E - 52)) by lia.
      change (2 ^ 0)%Z with 1%Z. rewrite Z.mod_1_r, Z.div_1_r. cbn [Z.mul Z.compare].
      assert (d * 2 ^ (- (E - 52)) < 2 ^ 53)%Z.
      { replace 53%Z with (Z.succ E + (- (E - 52)))%Z by lia.
        rewrite Z.pow_add_r by lia.
        apply Z.mul_lt_mono_pos_r; [apply Z.pow_pos_nonneg; lia | exact Hhi]. }
      assert (0 <= d * 2 ^ (- (E - 52)))%Z
        by (apply Z.mul_nonneg_nonneg; [lia | apply Z.pow_nonneg; lia]).
      lia.
    - rewrite (Z.max_l 0 (- (E - 52))) by lia.
      rewrite (Z.max_r 0 (E - 52)) by lia.
      change (2 ^ 0)%Z with 1%Z. rewrite Z.mul_1_r.
      assert (0 < 2 ^ (E - 52))%Z as Hp by (apply Z.pow_pos_nonneg; lia).
      assert (0 <= d / 2 ^ (E - 52) < 2 ^ 53)%Z as Hq.
      { split; [apply Z.div_pos; lia |].
        apply Z.div_lt_upper_bound; [exact Hp |].
        rewrite <- Z.pow_add_r by lia.
        replace (E - 52 + 53)%Z with (Z.succ E) by lia. exact Hhi. }
      destruct (2 * (d mod 2 ^ (E - 52)) ?= 2 ^ (E - 52))%Z;
        try destruct (Z.even _); lia. }
  change (2 ^ 53)%Z with 9007199254740992%Z in Hm.
  rewrite ?Z.mul_1_l.
  match goal with
  | |- context [if ?c then _ else _] => destruct c eqn:Ec
  end.
  - apply Z.leb_le in Ec. lia.
  - apply Z.leb_gt in Ec. lia.
Qed.

Lemma isFinite_int z :
  (- 2 ^ 63 <= z < 2 ^ 63)%Z ->
  isFinite (decimalToFloat64 (z <? 0)%Z (Z.abs z) 0) = true.
Proof.
  intros Hz. unfold decimalToFloat64.
  change (0 <=? 0)%Z with true. cbv iota. change (10 ^ 0)%Z with 1%Z.
  rewrite Z.mul_1_r.
  assert (0 <= (if Z.abs z =? 0 then 0 else roundFloat64 (Z.abs z) 1) < infBits)%Z
    as Hb.
  { destruct (Z.eqb_spec (Z.abs z) 0); [unfold infBits; lia |].
    apply roundFloat64_int. lia. }
  set (b := (if Z.abs z =? 0 then 0 else roundFloat64 (Z.abs z) 1)%Z) in *.
  unfold infBits in Hb. unfold isFinite, biasedExp, signBit.
  change (2 ^ 63)%Z with 9223372036854775808%Z.
  change (2 ^ 64)%N with 18446744073709551616%N.
  change (2 ^ 52)%N with 4503599627370496%N.
  apply andb_true_iff. split.
  - apply N.ltb_lt. destruct (z <? 0)%Z; lia.
  - apply negb_true_iff. apply N.eqb_neq. destruct (z <? 0)%Z; lia.
Qed.

Lemma parseMembers_member F s s1 k s2 s3 v s4 acc :
  skipSpace s = String DQ s1 ->
  unquote (String.length s1) s1 = Some (k, s2) ->
  skipSpace s2 = String ":" s3 ->
  parseValue F s3 = Some (v, s4) ->
  parseMembers (S F) s acc
  = match skipSpace s4 with
    | String c s5 =>
        if Ascii.eqb c "," then parseMembers F s5 (insertKey k v acc)
        else if Ascii.eqb c "}" then Some (Map (insertKey k v acc), s5)
        else None
    | EmptyString => None
    end.
Proof.
  intros H1 H2 H3 H4. cbn [parseMembers]. rewrite H1.
  change (Ascii.eqb DQ DQ) with true. cbv iota.
  rewrite H2, H3. change (Ascii.eqb ":" ":") with true. cbv iota.
  rewrite H4. reflexivity.
Qed.

(** The body of the handler of [POST /v1/user] as the decoder reads it,
    whatever number [text] the second member holds. *)
Lemma Decode_user text bits :
  (exists c t, text = String c t /\
               (Ascii.eqb c "-" || isDigit c)%bool = true) ->
  scanNumber (text ++ "}") = Some (text, "}"%string) ->
  ParseFloat text = Some bits ->
  isFinite bits = true ->
  Decode (js "{'id':1,'created_time':" ++ text ++ "}")
  = Val (Some [("created_time"%string, Float64 bits);
               ("id"%string, Float64 4607182418800017408)]).
Proof.
  intros Hhead Hscan Hparse Hfin. unfold Decode.
  set (tail := (text ++ "}")%string) in *.
  assert (exists F, String.length (js "{'id':1,'created_time':" ++ tail)
                    = S (S (S F))) as [F ->].
  { eexists. reflexivity. }
  assert (parseValue (S (S (S (S F)))) (js "{'id':1,'created_time':" ++ tail)
          = parseMembers (S (S (S F))) (js "'id':1,'created_time':" ++ tail) [])
    as -> by reflexivity.
  rewrite (parseMembers_member (S (S F)) _
             (js "id':1,'created_time':" ++ tail) "id"
             (js ":1,'created_time':" ++ tail)
             (js "1,'created_time':" ++ tail)
             (Float64 4607182418800017408)
             (js ",'created_time':" ++ tail));
    [| reflexivity | reflexivity | reflexivity |].
  2:{ apply (parseValue_number (S F) "1" (js ",'created_time':" ++ tail)).
      - eexists _, _. split; reflexivity.
      - apply (scanNumber_literal false "1" "" "").
        + split; [reflexivity |]. eexists _, _. split; [reflexivity | now left].
        + now left.
        + now left.
        + reflexivity.
      - vm_compute. reflexivity. }
  assert (skipSpace (js ",'created_time':" ++ tail)
          = String "," (js "'created_time':" ++ tail)) as -> by reflexivity.
  change (Ascii.eqb "," ",") with true. cbv iota.
  rewrite (parseMembers_member (S F) _
             (js "created_time':" ++ tail) "created_time"
             (":" ++ tail) tail (Float64 bits) "}");
    [| reflexivity | reflexivity | reflexivity |].
  2:{ apply parseValue_number; assumption. }
  change (skipSpace "}") with "}"%string. cbv beta iota.
  change (Ascii.eqb "}" ",") with false. change (Ascii.eqb "}" "}") with true.
  cbv iota.
  change (insertKey "created_time" (Float64 bits)
            (insertKey "id" (Float64 4607182418800017408) []))
    with [("created_time"%string, Float64 bits);
          ("id"%string, Float64 4607182418800017408)].
  unfold storeMap. cbn [hasRangeError existsb]. rewrite Hfin. reflexivity.
Qed.

Lemma Itoa_head z :
  exists c t, Itoa z = String c t /\
              (Ascii.eqb c "-" || isDigit c)%bool = true.
Proof.
  destruct (isInt_utoa (Z.to_N (Z.abs z))) as [Hall (c & t & E & _)].
  assert (isDigit c = true) as Hc.
  { rewrite E in Hall. simpl in Hall. apply andb_true_iff in Hall. tauto. }
  rewrite Itoa_literal. unfold literal. rewrite !sapp_nil_r.
  destruct (z <? 0)%Z.
  - eexists _, _. split; reflexivity.
  - exists c, t. split; [exact E |]. rewrite Hc. apply orb_true_r.
Qed.

(** The body of the handler of [POST /v1/user] decodes to its two members,
    whatever the time is. *)
Lemma Decode_created now :
  (- 2 ^ 63 <= now < 2 ^ 63)%Z ->
  exists bits,
    Decode (js "{'id':1,'created_time':" ++ Itoa now ++ "}")
    = Val (Some [("created_time"%string, Float64 bits);
                 ("id"%string, Float64 4607182418800017408)]).
Proof.
  intros Hnow. eexists. apply Decode_user.
  - apply Itoa_head.
  - rewrite Itoa_literal. apply scanNumber_literal.
    + apply isInt_utoa.
    + now left.
    + now left.
    + reflexivity.
  - apply ParseFloat_Itoa.
  - apply isFinite_int. exact Hnow.
Qed.

(** C1: the rewrite scenario.  Whatever time the handler of
    [POST /v1/user] reads from the clock (a 64-bit Unix time), it answers
    201 with the body [{"id":1,"created_time":<now>}], and the filters
    [ModifyJSON] with the overwrite [{"created_time": 1677136520}] followed
    by [PrettyJSON] end, with no failure and nothing logged, in the same
    response whose body is exactly the two members indented by two spaces,
    [created_time] first and with the fixed value: the same bytes at every
    run. *)
Theorem rewrite_scenario (now : Z) (t : testingT) (r : Request) :
  (- 2 ^ 63 <= now < 2 ^ 63)%Z ->
  Method r = "POST"%string -> Path r = "/v1/user"%string ->
  let got := newRouter now r in
  StatusCode got = StatusCreated /\
  Body got = Reader (js "{'id':1,'created_time':" ++ Itoa now ++ "}") /\
  runFilters t
    [ModifyJSON [("created_time"%string, Int 1677136520)]; PrettyJSON] got
  = ([], Ok (withBody got
               (Reader (js "{" ++ LF ++
                        js "  'created_time': 1677136520," ++ LF ++
                        js "  'id': 1" ++ LF ++ "}")))).
Proof.
  intros Hnow Hm Hp got.
  assert (got = {| StatusCode := StatusCreated; Header := jsonHeader;
                   Body := Reader (js "{'id':1,'created_time':"
                                   ++ Itoa now ++ "}") |}) as ->.
  { unfold got, newRouter. rewrite Hm, Hp. reflexivity. }
  split; [reflexivity |]. split; [reflexivity |].
  destruct (Decode_created now Hnow) as [bits Hdec].
  cbn [runFilters]. unfold ModifyJSON at 1. cbn [Body ReadAll].
  rewrite Hdec. vm_compute. reflexivity.
Qed.

Lemma rewrite_scenario_witness :
  runFilters {| Name := "TestUserPostEndpoint/v1_user_201_success" |}
    [ModifyJSON [("created_time"%string, Int 1677136520)]; PrettyJSON]
    (newRouter 1700000000
       {| Method := "POST"; Path := "/v1/user"; Query := [];
          RequestBody := js "{'name':'Jonathan Joestar'}" ++ LF |})
  = ([], Ok {| StatusCode := 201; Header := jsonHeader;
               Body := Reader (js "{" ++ LF ++
                               js "  'created_time': 1677136520," ++ LF ++
                               js "  'id': 1" ++ LF ++ "}") |}).
Proof.
  apply (rewrite_scenario 1700000000
           {| Name := "TestUserPostEndpoint/v1_user_201_success" |}
           {| Method := "POST"; Path := "/v1/user"; Query := [];
              RequestBody := js "{'name':'Jonathan Joestar'}" ++ LF |});
    [lia | reflexivity | reflexivity].
Defined.

(** ** More about [rewriteMap] *)

Lemma store_comm k1 k2 v1 v2 m :
  k1 <> k2 -> store k1 v1 (store k2 v2 m) = store k2 v2 (store k1 v1 m).
Proof.
  intros Hne. induction m as [| [k v] m IH]; simpl; auto.
  destruct (String.eqb_spec k2 k) as [-> | H2];
    destruct (String.eqb_spec k1 k) as [-> | H1]; simpl;
    rewrite ?String.eqb_refl;
    try (destruct (String.eqb_spec k2 k) as [? | ?]; [congruence |]);
    try (destruct (String.eqb_spec k1 k) as [? | ?]; [congruence |]);
    try congruence.
Qed.

Lemma snd_bind_ext {A B} (m : W A) (f g : A -> W B) :
  (forall a, snd (f a) = snd (g a)) -> snd (bind m f) = snd (bind m g).
Proof.
  intros H. destruct m as [ev [a | | msg]]; simpl; auto.
  specialize (H a). destruct (f a), (g a). exact H.
Qed.



Section RangeMapOrder.
Variable visit : string -> any -> any -> W any.
Hypothesis visit_no_panic :
  forall k old v msg, snd (visit k old v) <> Panic msg.

(** Two turns of the loop on different keys, in either order. *)
Lemma rangeMap_swap k1 v1 k2 v2 rest base :
  k1 <> k2 ->
  snd (rangeMap visit ((k1, v1) :: (k2, v2) :: rest) base)
  = snd (rangeMap visit ((k2, v2) :: (k1, v1) :: rest) base).
Proof.
  intros Hne. cbn [rangeMap].
  destruct (lookup k1 base) as [old1 |] eqn:E1;
    destruct (lookup k2 base) as [old2 |] eqn:E2;
    rewrite ?E1, ?E2; auto.
  - rewrite (snd_bind_ext (visit k1 old1 v1) _
               (fun n1 => n2 <- visit k2 old2 v2 ;;
                          rangeMap visit rest (store k2 n2 (store k1 n1 base)))).
    2:{ intros n1. rewrite (lookup_store_neq k2 k1) by congruence.
        rewrite E2. reflexivity. }
    rewrite (snd_bind_ext (visit k2 old2 v2) _
               (fun n2 => n1 <- visit k1 old1 v1 ;;
                          rangeMap visit rest (store k1 n1 (store k2 n2 base)))).
    2:{ intros n2. rewrite (lookup_store_neq k1 k2) by congruence.
        rewrite E1. reflexivity. }
    pose proof (visit_no_panic k1 old1 v1) as P1.
    pose proof (visit_no_panic k2 old2 v2) as P2.
    destruct (visit k1 old1 v1) as [ev1 [n1 | | m1]];
      destruct (visit k2 old2 v2) as [ev2 [n2 | | m2]];
      try (exfalso; eapply P1; reflexivity);
      try (exfalso; eapply P2; reflexivity);
      try reflexivity.
    cbn [bind]. rewrite (store_comm k1 k2) by congruence.
    destruct (rangeMap visit rest (store k2 n2 (store k1 n1 base))).
    reflexivity.
  - apply snd_bind_ext. intros n1.
    rewrite (lookup_store_neq k2 k1) by congruence. rewrite E2. reflexivity.
  - apply snd_bind_ext. intros n2.
    rewrite (lookup_store_neq k1 k2) by congruence. rewrite E1. reflexivity.
Qed.

Lemma rangeMap_permutation ow ow' :
  Permutation ow ow' -> NoDup (keys ow) ->
  forall base, snd (rangeMap visit ow base) = snd (rangeMap visit ow' base).
Proof.
  induction 1 as [| [k v] l l' Hp IH | [k1 v1] [k2 v2] l | l l' l'' Hp IH Hp' IH'];
    intros Hnd base.
  - reflexivity.
  - cbn [rangeMap]. simpl in Hnd. inversion Hnd; subst.
    destruct (lookup k base); [apply snd_bind_ext; intros |]; apply IH; auto.
  - apply rangeMap_swap. simpl in Hnd. inversion Hnd; subst.
    simpl in *. intros ->. tauto.
  - rewrite IH by auto. apply IH'.
    unfold keys in *. eapply Permutation_NoDup; [| exact Hnd].
    apply Permutation_map. exact Hp.
Qed.
End RangeMapOrder.


(** X1.  A successful [rewriteMap] neither adds nor removes a field of
    [base], nor moves one, and every field whose key the overwrite does not
    name keeps its value. *)
Theorem rewriteMap_keeps_other_fields
    (base overwrite base' : gomap) (parents : list string) :
  snd (rewriteMap base overwrite parents) = Ok base' ->
  keys base' = keys base /\
  forall k, ~ In k (keys overwrite) -> lookup k base' = lookup k base.
Proof.
  intros H. split.
  - eapply rangeMap_keys. exact H.
  - intros k Hk. eapply rangeMap_frame; eauto.
Qed.

Lemma rewriteMap_keeps_other_fields_witness :
  let base := [("id", Float64 1); ("name", Str "JoJo");
               ("user", Map [("at", Float64 5)])] in
  let overwrite := [("user", Map [("at", Int 0)]); ("id", Int 7)] in
  let base' := [("id", Int 7); ("name", Str "JoJo");
                ("user", Map [("at", Int 0)])] in
  keys base' = keys base /\ lookup "name" base' = lookup "name" base.
Proof.
  intros base overwrite base'.
  destruct (rewriteMap_keeps_other_fields base overwrite base' [] eq_refl)
    as [Hk Hf].
  split; [exact Hk |]. apply Hf. simpl. intros [E | [E | []]]; discriminate E.
Defined.

(** X2.  A literal of the overwrite (any value but a [map[string]any] and
    a [[]map[string]any]) under a key that [base] holds is the value of the
    key after a successful [rewriteMap], wherever the entry comes in the
    loop. *)
Theorem rewriteMap_sets_literal
    (base overwrite base' : gomap) (parents : list string)
    (k : string) (v old : any) :
  NoDupKeys overwrite ->
  In (k, v) overwrite ->
  (forall m, v <> Map m) -> (forall l, v <> MapSlice l) ->
  lookup k base = Some old ->
  snd (rewriteMap base overwrite parents) = Ok base' ->
  lookup k base' = Some v.
Proof.
  intros Hnd Hin Hm Hs. revert base old.
  induction overwrite as [| [k' v'] rest IH]; intros base old Hold H.
  - destruct Hin.
  - inversion Hnd as [| ? ? Hk' Hnd']; subst. rewrite rewriteMap_cons in H.
    destruct Hin as [E | Hin].
    + injection E as -> ->. rewrite Hold in H.
      rewrite rewriteField_literal, bind_ret_l in H by assumption.
      unfold rewriteMap in H. rewrite (rangeMap_frame _ _ _ _ k H Hk').
      eapply lookup_store_eq; eauto.
    + assert (k <> k') as Hne.
      { intros ->. apply Hk'. apply (in_map fst) in Hin. exact Hin. }
      destruct (lookup k' base) as [old' |] eqn:E'.
      * apply bind_Ok_inv in H. destruct H as [new [_ H]].
        eapply (IH Hnd' Hin); [| exact H].
        rewrite lookup_store_neq by exact Hne. exact Hold.
      * eapply (IH Hnd' Hin); eauto.
Qed.

Lemma rewriteMap_sets_literal_witness :
  let base := [("id", Float64 1); ("tags", Slice [Str "a"])] in
  let overwrite := [("user", Map []); ("id", Str "seven")] in
  let base' := [("id", Str "seven"); ("tags", Slice [Str "a"])] in
  snd (rewriteMap base overwrite []) = Ok base' /\
  lookup "id" base' = Some (Str "seven").
Proof.
  intros base overwrite base'.
  assert (snd (rewriteMap base overwrite []) = Ok base') as H by reflexivity.
  split; [exact H |].
  apply (rewriteMap_sets_literal base overwrite base' [] "id" (Str "seven")
           (Float64 1)).
  - apply distinct_NoDup. reflexivity.
  - simpl. auto.
  - discriminate.
  - discriminate.
  - reflexivity.
  - exact H.
Defined.

(** X3.  [rewriteMap] ends in one of two ways: it returns the rewritten
    map and has logged nothing, or it has stopped the test with [Fatalf],
    and the test is marked failed.  It never panics (the index into the
    array is below the length that was compared) and never reports a
    failure that lets the test go on. *)
Theorem rewriteMap_ends_quiet_or_fatal
    (base overwrite : gomap) (parents : list string) :
  (exists base', rewriteMap base overwrite parents = ([], Ok base')) \/
  (snd (rewriteMap base overwrite parents) = FailNow /\
   failed (rewriteMap base overwrite parents) = true).
Proof.
  destruct (snd (rewriteMap base overwrite parents)) as [base' | | msg] eqn:E.
  - left. exists base'. apply rewriteMap_quiet. exact E.
  - right. split; [reflexivity |]. apply rewriteMap_stop_failed. exact E.
  - exfalso. eapply rewriteMap_no_panic. exact E.
Qed.

(** X4.  The order in which the loop visits the entries of the overwrite
    (Go ranges over a map in no fixed order) does not change how
    [rewriteMap] ends: the same rewritten map, or a stop in both orders. *)
Theorem rewriteMap_order_independent
    (base overwrite overwrite' : gomap) (parents : list string) :
  Permutation overwrite overwrite' ->
  NoDupKeys overwrite ->
  snd (rewriteMap base overwrite parents)
  = snd (rewriteMap base overwrite' parents).
Proof.
  intros Hp Hnd. unfold rewriteMap.
  apply rangeMap_permutation; auto.
  intros k old v msg. apply rewriteField_no_panic.
Qed.

Lemma rewriteMap_order_independent_witness :
  let base := [("id", Float64 1); ("user", Map [("at", Float64 5)]);
               ("name", Str "JoJo")] in
  let a := ("id", Int 7) in
  let b := ("user", Map [("at", Int 0)]) in
  let c := ("name", Nil) in
  snd (rewriteMap base [a; b; c] []) = snd (rewriteMap base [c; a; b] []).
Proof.
  intros base a b c.
  apply (rewriteMap_order_independent base [a; b; c] [c; a; b] []).
  - apply Permutation_sym. apply (Permutation_cons_append [a; b] c).
  - apply distinct_NoDup. reflexivity.
Defined.


(** ** More about the golden files and the driver *)

Lemma fileAt_putFile_other fs name data path :
  path <> name -> fileAt (putFile fs name data) path = fileAt fs path.
Proof.
  intros Hne. induction fs as [| [p d] fs IH]; simpl.
  - destruct (String.eqb_spec name path); [congruence | reflexivity].
  - destruct (String.eqb_spec p name) as [-> | Hp]; simpl.
    + destruct (String.eqb_spec name path); [congruence | reflexivity].
    + destruct (String.eqb p path); auto.
Qed.

(** X6.  On a directory that takes writes [writeGolden] succeeds without
    a log entry, [readGolden] of the same test then returns the bytes that
    were written, and every other file is as it was. *)
Theorem writeGolden_then_readGolden
    (t : testingT) (data : bytes) (fs : FileSystem) :
  readOnly fs = false ->
  exists fs',
    writeGolden t data fs = (([], Ok tt), fs') /\
    readGolden t fs' = (([], Ok data), fs') /\
    forall path, path <> goldenFileName (Name t) ->
      fileAt (files fs') path = fileAt (files fs) path.
Proof.
  intros Hw. unfold writeGolden, readGolden, MkdirAll, WriteFile, ReadFile.
  rewrite Hw. cbn [readOnly]. eexists. split; [reflexivity |].
  cbn [files]. rewrite fileAt_putFile. split; [reflexivity |].
  intros path Hne. apply fileAt_putFile_other. exact Hne.
Qed.

Lemma writeGolden_then_readGolden_witness :
  let t := {| Name := "TestHealthEndpoint/v1_health_200" |} in
  let other := goldenFileName "TestHealthEndpoint/v2_health_200" in
  let fs := {| files := [(other, "kept"); (goldenFileName (Name t), "stale")];
               dirs := []; readOnly := false |} in
  exists fs',
    writeGolden t "fresh" fs = (([], Ok tt), fs') /\
    readGolden t fs' = (([], Ok "fresh"), fs') /\
    fileAt (files fs') other = Some "kept".
Proof.
  intros t other fs.
  destruct (writeGolden_then_readGolden t "fresh" fs eq_refl)
    as (fs' & Hwrite & Hread & Hother).
  exists fs'. split; [exact Hwrite |]. split; [exact Hread |].
  rewrite Hother; [reflexivity | discriminate].
Defined.

Section GoldenRuns.
Variable router : Request -> Response.
Variable DumpResponse : Response -> bool -> orError bytes.
Variable Diff : bytes -> bytes -> string.

(** [cmp.Diff] reports no difference between equal values. *)
Hypothesis Diff_same : forall x, Diff x x = "".

(** The golden file that an update run leaves is the one a compare run
    of an exchange with the same outcome accepts. *)
Lemma golden_replay
    (router' : Request -> Response) (dumpFlag dumpFlag' : bool)
    (t : testingT) (r r' : Request) (want want' : Z)
    (filters filters' : list ResponseFilter) (fs fs' : FileSystem) ev :
  exchange router' dumpFlag' DumpResponse t r' want' filters'
  = exchange router dumpFlag DumpResponse t r want filters ->
  RunTest router dumpFlag true DumpResponse Diff t r want filters fs
  = ((ev, Ok tt), fs') ->
  RunTest router' dumpFlag' false DumpResponse Diff t r' want' filters' fs'
  = ((ev, Ok tt), fs').
Proof.
  intros Hsame. rewrite !RunTest_steps, !bindM_lift, Hsame. clear Hsame.
  destruct (exchange _ _ _ _ _ _ _) as [ev0 [dump | | msg]]; try discriminate.
  unfold compareOrUpdate, writeGolden, readGolden, MkdirAll, WriteFile,
    ReadFile, bindM, lift, orFatal.
  destruct (readOnly fs) eqn:Hw; simpl; [discriminate |].
  intros [= <- <-]. simpl.
  rewrite fileAt_putFile. simpl. rewrite Diff_same. reflexivity.
Qed.

(** X7.  A run in update mode that was not stopped leaves the golden
    file such that the same exchange run in compare mode finds no
    difference: the compare run ends as the update run did, with the same
    log, and leaves the files as they are. *)
Theorem compare_after_update_agrees
    (dumpFlag : bool) (t : testingT) (r : Request) (want : Z)
    (filters : list ResponseFilter) (fs fs' : FileSystem) ev :
  RunTest router dumpFlag true DumpResponse Diff t r want filters fs
  = ((ev, Ok tt), fs') ->
  RunTest router dumpFlag false DumpResponse Diff t r want filters fs'
  = ((ev, Ok tt), fs').
Proof. apply golden_replay. reflexivity. Qed.

(** X8.  When the exchange is stopped before the golden step (a filter
    or the serialization called [Fatal]), [RunTest] ends there in both
    modes: the golden file is neither read nor written, and the closing
    line is not logged. *)
Theorem stopped_exchange_leaves_golden
    (dumpFlag updateFlag : bool) (t : testingT) (r : Request) (want : Z)
    (filters : list ResponseFilter) (fs : FileSystem) ev :
  exchange router dumpFlag DumpResponse t r want filters = (ev, FailNow) ->
  RunTest router dumpFlag updateFlag DumpResponse Diff t r want filters fs
  = ((ev, FailNow), fs).
Proof.
  intros H. rewrite RunTest_steps, bindM_lift, H. reflexivity.
Qed.

(** X9.  When the block under the [-dump] switch goes through (the raw
    body is indented or not JSON), the run with the switch on is the run
    with it off with the lines of the dump, none of them a failure, added
    to the log: the same end and the same files. *)
Theorem dump_that_succeeds_only_logs
    (updateFlag : bool) (t : testingT) (r : Request) (want : Z)
    (filters : list ResponseFilter) (fs : FileSystem) evd got :
  dumpRaw DumpResponse t (router r) = (evd, Ok got) ->
  let run dumpFlag :=
    RunTest router dumpFlag updateFlag DumpResponse Diff t r want filters fs in
  exists ev1 ev2 res fs',
    run false = (((ev1 ++ ev2)%list, res), fs') /\
    run true = (((ev1 ++ evd ++ ev2)%list, res), fs') /\
    existsb (fun e => match e with Fail => true | _ => false end) evd = false.
Proof. apply dump_flag_logs_only. Qed.
End GoldenRuns.

Lemma exampleDiff_same x : exampleDiff x x = "".
Proof. unfold exampleDiff. rewrite String.eqb_refl. reflexivity. Qed.

Lemma compare_after_update_agrees_witness :
  let t := {| Name := "TestHealthEndpoint/v1_health_200" |} in
  let r := {| Method := "GET"; Path := "/v1/health"; Query := [];
              RequestBody := "" |} in
  let fs := {| files := []; dirs := []; readOnly := false |} in
  let run update :=
    RunTest (newRouter 0) false update exampleDump exampleDiff
      t r StatusOK [PrettyJSON] in
  run false (snd (run true fs)) = run true fs /\
  failed (fst (run true fs)) = false.
Proof.
  intros t r fs run.
  assert (exists ev fs', run true fs = ((ev, Ok tt), fs') /\
                         failed (ev, Ok tt) = false)
    as (ev & fs' & Hrun & Hpass).
  { eexists _, _. split; vm_compute; reflexivity. }
  rewrite Hrun. split; [| exact Hpass].
  exact (compare_after_update_agrees (newRouter 0) exampleDump exampleDiff
           exampleDiff_same false t r StatusOK [PrettyJSON] fs fs' ev Hrun).
Defined.

Lemma stopped_exchange_leaves_golden_witness :
  let t := {| Name := "TestUserGetEndpoint/v1_user_500_exception" |} in
  let r := {| Method := "GET"; Path := "/v1/user/1";
              Query := [("typ", "exception")]; RequestBody := "" |} in
  let fs := {| files := [(goldenFileName (Name t), "stored")]; dirs := [];
               readOnly := false |} in
  let run :=
    RunTest (newRouter 0) false true exampleDump exampleDiff t r
      StatusInternalServerError [PrettyJSON] fs in
  snd (fst run) = FailNow /\ snd run = fs.
Proof.
  intros t r fs run. subst run.
  erewrite (stopped_exchange_leaves_golden (newRouter 0) exampleDump
              exampleDiff false true t r StatusInternalServerError
              [PrettyJSON] fs);
    [split; reflexivity | vm_compute; reflexivity].
Defined.

Lemma dump_that_succeeds_only_logs_witness :
  let t := {| Name := "TestHealthEndpoint/v1_health_200" |} in
  let r := {| Method := "GET"; Path := "/v1/health"; Query := [];
              RequestBody := "" |} in
  let fs := {| files := []; dirs := []; readOnly := false |} in
  let run dumpFlag :=
    RunTest (newRouter 0) dumpFlag true exampleDump exampleDiff t r StatusOK
      [PrettyJSON] fs in
  snd (fst (run true)) = snd (fst (run false)) /\
  snd (run true) = snd (run false) /\
  failed (fst (run true)) = failed (fst (run false)).
Proof.
  intros t r fs.
  assert (exists evd got,
            dumpRaw exampleDump t (newRouter 0 r) = (evd, Ok got))
    as (evd & got & Hd).
  { eexists _, _. vm_compute. reflexivity. }
  intros run.
  destruct (dump_that_succeeds_only_logs (newRouter 0) exampleDump exampleDiff
              true t r StatusOK [PrettyJSON] fs evd got Hd)
    as (ev1 & ev2 & res & fs' & Hoff & Hon & Hquiet).
  subst run. cbv beta. rewrite Hoff, Hon. unfold failed. cbn [fst snd].
  repeat split. rewrite !existsb_app, Hquiet. reflexivity.
Defined.

(** ** More about the JSON helpers *)

Lemma compact_spacing : spacing compact.
Proof. split; [reflexivity |]. exists ""%string. split; reflexivity. Qed.

Lemma Unmarshal_Decode data m : Unmarshal data = Val m -> Decode data = Val m.
Proof.
  unfold Unmarshal, Decode.
  destruct (parseValue _ data) as [[v rest] |]; [| discriminate].
  destruct (onlySpace rest); [auto | discriminate].
Qed.

(** The text [Encode] writes for a decoded map reads back as the map,
    with [Unmarshal] and with a [Decoder]. *)
Lemma Encode_readsBack m text :
  Canonical (Map m) -> hasRangeError (Map m) = false ->
  Encode (Some m) = Val text ->
  Unmarshal text = Val (Some m) /\ Decode text = Val (Some m).
Proof.
  intros Hcan Hrange. unfold Encode, Marshal, encodeMap.
  destruct (encode compact 0 (Map m)) as [s | e] eqn:Henc; [| discriminate].
  intros [= <-].
  destruct (encode_readsBack _ compact_spacing _ Hcan Hrange _ _ Henc)
    as [_ Hread].
  assert (Unmarshal (s ++ LF) = Val (Some m)) as HU.
  { unfold Unmarshal.
    rewrite (Hread (S (String.length (s ++ LF))) LF); [| | reflexivity].
    - cbn [onlySpace skipSpace storeMap]. rewrite Hrange. reflexivity.
    - rewrite slength_app. simpl. lia. }
  split; [exact HU | apply Unmarshal_Decode; exact HU].
Qed.

(** X10.  Pretty-printing keeps the document: the indented text that
    [indentJSON] returns decodes to what the body decoded to. *)
Theorem indentJSON_keeps_the_value (t : testingT) (body pretty : bytes) :
  snd (indentJSON t body) = Ok pretty ->
  Unmarshal pretty = Unmarshal body.
Proof.
  intros H. apply indentJSON_Ok in H. destruct H as (tmp & HU & HM).
  rewrite HU. destruct tmp as [m |].
  - destruct (Unmarshal_canonical _ _ HU) as [Hcan Hrange].
    apply Unmarshal_MarshalIndent; assumption.
  - injection HM as <-. reflexivity.
Qed.

Lemma indentJSON_keeps_the_value_witness :
  let body := js "{'b':[1,2.50],'a':{'x':null},'b':[true]}" in
  let pretty := js "{" ++ LF ++ js "  'a': {" ++ LF ++ js "    'x': null"
                ++ LF ++ js "  }," ++ LF ++ js "  'b': [" ++ LF
                ++ js "    true" ++ LF ++ js "  ]" ++ LF ++ "}" in
  snd (indentJSON {| Name := "T" |} body) = Ok pretty /\
  Unmarshal pretty = Unmarshal body.
Proof.
  intros body pretty.
  assert (snd (indentJSON {| Name := "T" |} body) = Ok pretty) as H
    by (vm_compute; reflexivity).
  split; [exact H |].
  exact (indentJSON_keeps_the_value {| Name := "T" |} body pretty H).
Defined.

(** X11.  The request body that [JSONBody] builds from a map of decoded
    values is a JSON document that decodes to the same map. *)
Theorem JSONBody_decodes_back (t : testingT) (m : gomap) (body : bytes) :
  Canonical (Map m) -> hasRangeError (Map m) = false ->
  snd (JSONBody t (Some m)) = Ok body ->
  JSONBody t (Some m) = ([], Ok body) /\
  Unmarshal body = Val (Some m) /\ Decode body = Val (Some m).
Proof.
  intros Hcan Hrange. unfold JSONBody.
  destruct (Encode (Some m)) as [text | e] eqn:E; [| discriminate].
  cbn. intros [= <-]. split; [reflexivity |].
  apply Encode_readsBack; assumption.
Qed.

Lemma JSONBody_decodes_back_witness :
  let m := [("name", Str "Jonathan Joestar");
            ("tags", Slice [Bool true; Nil; Float64 4607182418800017408])] in
  let body := js "{'name':'Jonathan Joestar','tags':[true,null,1]}" ++ LF in
  JSONBody {| Name := "T" |} (Some m) = ([], Ok body) /\
  Decode body = Val (Some m).
Proof.
  intros m body.
  destruct (Unmarshal_canonical body m ltac:(vm_compute; reflexivity))
    as [Hcan _].
  destruct (JSONBody_decodes_back {| Name := "T" |} m body Hcan eq_refl
              ltac:(vm_compute; reflexivity)) as (H1 & _ & H3).
  split; assumption.
Defined.

Lemma In_insertSorted {A} (x y : string * A) l :
  In y (insertSorted x l) <-> y = x \/ In y l.
Proof.
  induction l as [| z l IH]; simpl.
  - intuition.
  - destruct (String.compare (fst x) (fst z)); simpl; rewrite ?IH; intuition.
Qed.

Lemma In_sortByKey {A} (y : string * A) l : In y (sortByKey l) <-> In y l.
Proof.
  induction l as [| x l IH]; simpl; [tauto |].
  rewrite In_insertSorted, IH. intuition.
Qed.

Lemma collect_all_Val {A} (l : list (A * orError string)) :
  (forall x, In x l -> exists s, snd x = Val s) ->
  exists ss, collect l = Val ss.
Proof.
  induction l as [| [a [s | e]] l IH]; intros H; simpl.
  - eauto.
  - destruct IH as [ss ->]; [intros; apply H; simpl; auto |]. eauto.
  - destruct (H (a, Err e)) as [s Hs]; [simpl; auto | discriminate].
Qed.

Lemma collect_Val_In {A} (l : list (A * orError string)) ss :
  collect l = Val ss -> forall x, In x l -> exists s, snd x = Val s.
Proof.
  revert ss. induction l as [| [a [s | e]] l IH]; simpl; intros ss H x Hx.
  - destruct Hx.
  - destruct (collect l) as [ss' |] eqn:E; [| discriminate].
    destruct Hx as [<- | Hx]; [simpl; eauto | eapply IH; eauto].
  - discriminate.
Qed.

Lemma collect_some_Err {A} (l : list (A * orError string)) a e :
  In (a, Err e) l -> exists e', collect l = Err e'.
Proof.
  induction l as [| [b [s | e0]] l IH]; simpl; intros H.
  - destruct H.
  - destruct H as [H | H]; [discriminate |].
    destruct (IH H) as [e' ->]. eauto.
  - eauto.
Qed.

(** Whether a decoded value can be encoded does not depend on the
    layout. *)
Lemma encode_any_layout L L' v :
  Canonical v ->
  forall d d', (exists text, encode L d v = Val text) ->
               exists text', encode L' d' v = Val text'.
Proof.
  induction v as [ | b | bits | n | s | l IH | m IH | l | l | l ]
    using any_full_ind; intros Hcan d d' [text H];
    try (inversion Hcan; fail); cbn [encode] in *; eauto.
  - inversion Hcan as [ | | | | l0 Hl | ]; subst.
    unfold encodeArray in *.
    destruct (collect _) as [ss |] eqn:E in H; [| discriminate].
    destruct (collect_all_Val
                (List.map (fun x => (tt, x)) (List.map (encode L' (S d')) l)))
      as [ss' ->]; [| eauto].
    intros [[] x] Hx. apply in_map_iff in Hx. destruct Hx as (y & [= <-] & Hy).
    apply in_map_iff in Hy. destruct Hy as (v & <- & Hv).
    rewrite Forall_forall in IH, Hl. apply (IH v Hv (Hl v Hv) (S d)).
    apply (collect_Val_In _ _ E (tt, encode L (S d) v)).
    apply in_map_iff. eexists. split; [reflexivity |].
    apply in_map. exact Hv.
  - inversion Hcan as [ | | | | | m0 _ Hm ]; subst.
    unfold encodeObject in *.
    destruct (collect _) as [ss |] eqn:E in H; [| discriminate].
    destruct (collect_all_Val
                (sortByKey
                   (List.map (fun '(k, x) => (k, encode L' (S d') x)) m)))
      as [ss' ->]; [| eauto].
    intros [k x] Hx. apply (proj1 (In_sortByKey _ _)) in Hx.
    apply in_map_iff in Hx.
    destruct Hx as ([k0 v] & [= <- <-] & Hv).
    rewrite Forall_forall in IH, Hm.
    apply (IH _ Hv (proj2 (Hm _ Hv)) (S d)).
    apply (collect_Val_In _ _ E (k0, encode L (S d) v)).
    apply (proj2 (In_sortByKey _ _)). apply in_map_iff. exists (k0, v). auto.
Qed.

(** A value [encoding/json] does not support (NaN or an infinity), at any
    depth of maps and arrays, fails the encoding. *)
Lemma encode_unsupported L v :
  hasRangeError v = true -> forall d, exists e, encode L d v = Err e.
Proof.
  induction v as [ | b | bits | n | s | l IH | m IH | l | l | l ]
    using any_full_ind; cbn [hasRangeError]; intros H d;
    try discriminate.
  - cbn [encode]. unfold encodeFloat.
    destruct (isFinite bits); [discriminate | eauto].
  - apply existsb_exists in H. destruct H as (v & Hv & Hr).
    rewrite Forall_forall in IH. destruct (IH v Hv Hr (S d)) as [e He].
    cbn [encode]. unfold encodeArray.
    destruct (collect_some_Err
                (List.map (fun x => (tt, x)) (List.map (encode L (S d)) l))
                tt e) as [e' ->]; [| eauto].
    apply in_map_iff. exists (Err e). split; [reflexivity |].
    rewrite <- He. apply in_map. exact Hv.
  - apply existsb_exists in H. destruct H as ([k v] & Hv & Hr).
    rewrite Forall_forall in IH. destruct (IH _ Hv Hr (S d)) as [e He].
    cbn [encode]. unfold encodeObject.
    destruct (collect_some_Err
                (sortByKey
                   (List.map (fun '(k, x) => (k, encode L (S d) x)) m))
                k e) as [e' ->]; [| eauto].
    apply (proj2 (In_sortByKey _ _)). apply in_map_iff. exists (k, v).
    simpl in He. rewrite He. auto.
Qed.

(** X12.  A map that holds a NaN or an infinity, at any depth of maps
    and [[]any], cannot be encoded: [JSONBody] stops the test. *)
Theorem JSONBody_unsupported_is_fatal (t : testingT) (m : gomap) :
  hasRangeError (Map m) = true ->
  snd (JSONBody t (Some m)) = FailNow /\ failed (JSONBody t (Some m)) = true.
Proof.
  intros H. unfold JSONBody, Encode, Marshal, encodeMap.
  destruct (encode_unsupported compact _ H 0) as [e ->].
  split; reflexivity.
Qed.

Lemma JSONBody_unsupported_is_fatal_witness :
  let inf := 9218868437227405312%N in
  let m := [("name", Str "JoJo"); ("stats", Slice [Map [("ratio", Float64 inf)]])] in
  snd (JSONBody {| Name := "T" |} (Some m)) = FailNow /\
  failed (JSONBody {| Name := "T" |} (Some m)) = true.
Proof.
  intros inf m.
  apply (JSONBody_unsupported_is_fatal {| Name := "T" |} m). reflexivity.
Defined.

(** X13.  [ModifyJSON] with an overwrite none of whose keys the body
    holds (the empty overwrite too), put before [PrettyJSON], changes
    nothing of what [PrettyJSON] returns: the compact text it leaves
    decodes to the same document. *)
Theorem ModifyJSON_absent_then_PrettyJSON
    (t : testingT) (r r' : Response) (overwrite : gomap) :
  StatusCode r <> StatusNoContent ->
  snd (PrettyJSON t r) = Ok r' ->
  (forall m k, Unmarshal (ReadAll (Body r)) = Val (Some m) ->
               In k (keys overwrite) -> lookup k m = None) ->
  runFilters t [ModifyJSON overwrite; PrettyJSON] r = ([], Ok r').
Proof.
  intros Hstatus Hpretty Habsent. unfold PrettyJSON in Hpretty.
  apply Z.eqb_neq in Hstatus. rewrite Hstatus in Hpretty.
  destruct (HasPrefix (Get (Header r) "Content-Type") "application/json")
    eqn:Hjson; [| discriminate].
  cbn [negb] in Hpretty. apply bind_ret_Ok_inv in Hpretty.
  destruct Hpretty as (pretty & Hind & ->).
  apply indentJSON_Ok in Hind. destruct Hind as (tmp & HU & HM).
  cbn [runFilters]. unfold ModifyJSON.
  rewrite (Unmarshal_Decode _ _ HU). cbn [orFatal]. rewrite bind_ret_l.
  assert (forall text,
            Encode tmp = Val text -> Unmarshal text = Val tmp ->
            (got <- (tmp0 <- ret tmp ;;
                     body <- orFatal (Encode tmp0) ;;
                     ret (withBody r (Reader body))) ;;
             got0 <- PrettyJSON t got ;; ret got0)
            = ([], Ok (withBody r (Reader pretty)))) as Hrest.
  { intros text HE HU'. rewrite bind_ret_l, HE. cbn [orFatal].
    rewrite !bind_ret_l. unfold PrettyJSON.
    cbn [withBody StatusCode Header Body ReadAll]. rewrite Hstatus, Hjson.
    cbn [negb]. unfold indentJSON. rewrite HU'. cbn [orFatal].
    rewrite bind_ret_l, HM. reflexivity. }
  destruct tmp as [m |].
  - unfold rewriteMap.
    rewrite rangeMap_absent by (intros k Hk; eapply Habsent; eauto).
    rewrite bind_ret_l.
    destruct (Unmarshal_canonical _ _ HU) as [Hcan Hrange].
    destruct (encode_any_layout (indented "" "  ") compact (Map m) Hcan 0 0
                (ex_intro _ pretty HM)) as [text Htext].
    assert (Encode (Some m) = Val (text ++ LF)) as HE.
    { unfold Encode, Marshal, encodeMap. rewrite Htext. reflexivity. }
    apply (Hrest _ HE). apply Encode_readsBack; assumption.
  - apply (Hrest ("null" ++ LF)); reflexivity.
Qed.

Lemma ModifyJSON_absent_then_PrettyJSON_witness :
  let t := {| Name := "TestHealthEndpoint/v1_health_200" |} in
  let r := {| StatusCode := StatusOK; Header := jsonHeader;
              Body := Reader (js " {'ping' : 'pong'} ") |} in
  let r' := withBody r (Reader (js "{" ++ LF ++ js "  'ping': 'pong'" ++ LF
                                ++ "}")) in
  runFilters t [ModifyJSON [("created_time", Int 1677136520)]; PrettyJSON] r
  = ([], Ok r').
Proof.
  intros t r r'.
  apply (ModifyJSON_absent_then_PrettyJSON t r r').
  - discriminate.
  - vm_compute. reflexivity.
  - intros m k Hm [<- | []]. vm_compute in Hm. injection Hm as <-.
    reflexivity.
Defined.

(** X14.  The two filters end in one of two ways: with the response,
    its status code and header untouched, and nothing logged; or with the
    test stopped by [Fatal] and marked failed.  Neither panics or reports
    a failure and goes on. *)
Theorem filters_end_quiet_or_fatal
    (t : testingT) (r : Response) (overwrite : gomap) :
  let outcome (w : W Response) :=
    (exists r', w = ([], Ok r') /\ StatusCode r' = StatusCode r /\
                Header r' = Header r) \/
    (snd w = FailNow /\ failed w = true) in
  outcome (ModifyJSON overwrite t r) /\ outcome (PrettyJSON t r).
Proof.
  intros outcome. subst outcome. cbv beta. split.
  - unfold ModifyJSON.
    destruct (Decode (ReadAll (Body r))) as [tmp | e]; cbn [orFatal];
      [| right; split; reflexivity].
    rewrite bind_ret_l.
    assert (forall tmp',
              (exists r', (body <- orFatal (Encode tmp') ;;
                           ret (withBody r (Reader body))) = ([], Ok r') /\
                          StatusCode r' = StatusCode r /\
                          Header r' = Header r) \/
              (snd (body <- orFatal (Encode tmp') ;;
                    ret (withBody r (Reader body))) = FailNow /\
               failed (body <- orFatal (Encode tmp') ;;
                       ret (withBody r (Reader body))) = true)) as Henc.
    { intros tmp'. destruct (Encode tmp') as [body | e]; cbn [orFatal].
      - left. rewrite bind_ret_l. eexists. repeat split.
      - right. split; reflexivity. }
    destruct tmp as [base |].
    + destruct (snd (rewriteMap base overwrite [])) as [base' | | msg] eqn:E.
      * rewrite (rewriteMap_quiet _ _ _ _ E).
        change (@pair (list event) (result gomap) [] (Ok base'))
          with (ret base').
        rewrite !bind_ret_l. apply Henc.
      * right. pose proof (rewriteMap_stop_failed _ _ _ E) as Hf.
        destruct (rewriteMap base overwrite []) as [ev res].
        simpl in E. subst res. split; [reflexivity | exact Hf].
      * exfalso. eapply rewriteMap_no_panic. exact E.
    + rewrite bind_ret_l. apply Henc.
  - unfold PrettyJSON. destruct (StatusCode r =? StatusNoContent)%Z.
    { left. exists r. repeat split. }
    destruct (negb _); [right; split; reflexivity |].
    unfold indentJSON.
    destruct (Unmarshal (ReadAll (Body r))) as [tmp | e]; cbn [orFatal];
      [| right; split; reflexivity].
    rewrite bind_ret_l.
    destruct (MarshalIndent tmp "" "  ") as [body | e]; cbn [orFatal];
      [| right; split; reflexivity].
    left. eexists. repeat split.
Qed.

(** X15.  [CaptureResponse] reads the body and puts a reader over the
    same bytes back: the response it leaves has the status code, the
    header and the body bytes it had (it is the same response when the
    body was a reader), so the filters after it see what they would see
    without it.  The captured value is what [json.Unmarshal] makes of
    these bytes; when it fails the test is stopped. *)
Theorem CaptureResponse_keeps_the_response
    (T : Type) (unmarshalInto : bytes -> T -> orError T) (ptr : T)
    (t : testingT) (r : Response) :
  match unmarshalInto (ReadAll (Body r)) ptr with
  | Val captured =>
      exists r',
        CaptureResponse T unmarshalInto ptr t r = ([], Ok (r', captured)) /\
        StatusCode r' = StatusCode r /\ Header r' = Header r /\
        ReadAll (Body r') = ReadAll (Body r) /\
        (forall b, Body r = Reader b -> r' = r)
  | Err e =>
      snd (CaptureResponse T unmarshalInto ptr t r) = FailNow /\
      failed (CaptureResponse T unmarshalInto ptr t r) = true
  end.
Proof.
  unfold CaptureResponse.
  destruct (unmarshalInto (ReadAll (Body r)) ptr) as [captured | e];
    cbn [orFatal].
  - rewrite bind_ret_l. eexists. split; [reflexivity |].
    repeat split. intros b Hb. destruct r as [code h body].
    simpl in *. subst body. reflexivity.
  - split; reflexivity.
Qed.
